(** * motioncam-fs: the MCRAW virtual file system and its BW64 reader

    A shallow embedding of [VirtualFileSystemImpl_MCRAW.cpp] and of the
    bundled [bw64] headers ([parser.hpp], [reader.hpp], [utils.hpp]).

    - C++ [int], [int64_t], [uint64_t] are [Z] with the wrap-around written
      out ([wrap32], [wrap64], [wrapU64]).
    - C++ [float] and [double] are IEEE 754 binary32 and binary64 values
      ([spec_float]); every arithmetic operation is the exact rational
      result rounded to nearest, ties to even.
    - [std::vector] is [list]; a function that has no defined result
      (conversion of an out-of-range float to an integer, indexing an empty
      vector) returns [None]; a function that throws returns an [exn]. *)

From Stdlib Require Import ZArith QArith Qround Qpower Qabs Qminmax Lia Lqa Bool List.
From Stdlib Require Import Sorting.Sorted.
From Stdlib Require Import Floats.SpecFloat.
From Stdlib Require Import Ascii String DecimalString DecimalZ DecimalPos.
Import ListNotations.

Local Open Scope Z_scope.

(** ** Fixed-width integers *)

Definition wrapS (w : Z) (x : Z) : Z :=
  let m := 2 ^ w in
  let r := x mod m in
  if r <? 2 ^ (w - 1) then r else r - m.

Definition wrap32 : Z -> Z := wrapS 32.
Definition wrap64 : Z -> Z := wrapS 64.
Definition wrapU64 (x : Z) : Z := x mod 2 ^ 64.
Definition wrapU32 (x : Z) : Z := x mod 2 ^ 32.
Definition wrapU16 (x : Z) : Z := x mod 2 ^ 16.

Definition INT_MIN : Z := - 2 ^ 31.
Definition INT_MAX : Z := 2 ^ 31 - 1.
Definition INT64_MIN : Z := - 2 ^ 63.
Definition INT64_MAX : Z := 2 ^ 63 - 1.

Definition in_int (x : Z) : Prop := INT_MIN <= x <= INT_MAX.
Definition in_int64 (x : Z) : Prop := INT64_MIN <= x <= INT64_MAX.

Lemma wrapS_id w x : 0 < w -> - 2 ^ (w - 1) <= x < 2 ^ (w - 1) -> wrapS w x = x.
Proof.
  intros Hw Hx. unfold wrapS.
  assert (E : 2 ^ w = 2 * 2 ^ (w - 1)).
  { replace w with (Z.succ (w - 1)) at 1 by lia. apply Z.pow_succ_r. lia. }
  assert (P : 0 < 2 ^ (w - 1)) by (apply Z.pow_pos_nonneg; lia).
  destruct (Z_lt_le_dec x 0) as [Hn | Hp].
  - replace (x mod 2 ^ w) with (x + 2 ^ w).
    + destruct (Z.ltb_spec (x + 2 ^ w) (2 ^ (w - 1))); lia.
    + symmetry. rewrite <- (Z.mod_small (x + 2 ^ w) (2 ^ w)) by lia.
      rewrite <- (Z.mod_add x 1 (2 ^ w)) by lia. f_equal. lia.
  - rewrite Z.mod_small by lia.
    destruct (Z.ltb_spec x (2 ^ (w - 1))); lia.
Qed.

Lemma wrap32_id x : in_int x -> wrap32 x = x.
Proof. unfold in_int, INT_MIN, INT_MAX. intros. apply wrapS_id; simpl; lia. Qed.

Lemma wrap64_id x : in_int64 x -> wrap64 x = x.
Proof. unfold in_int64, INT64_MIN, INT64_MAX. intros. apply wrapS_id; simpl; lia. Qed.

(** ** IEEE 754 arithmetic: rounding of exact rationals *)

Module IEEE.

Local Open Scope Q_scope.

(** [pow2 e] is 2^e for any integer [e]. *)
Definition pow2 (e : Z) : Q := 2 ^ e.

Arguments pow2 : simpl never.

(** floor(log2 q) of a positive rational. *)
Definition ilog2 (q : Q) : Z :=
  let l := (Z.log2 (Qnum q) - Z.log2 (Zpos (Qden q)))%Z in
  if Qle_bool (pow2 l) q then l else (l - 1)%Z.

(** Nearest integer, ties to even. *)
Definition rne (x : Q) : Z :=
  let f := Qfloor x in
  match Qcompare (x - inject_Z f) (1 # 2) with
  | Lt => f
  | Gt => (f + 1)%Z
  | Eq => if Z.even f then f else (f + 1)%Z
  end.

(** Nearest integer, ties away from zero: [std::round]. *)
Definition rha (x : Q) : Z :=
  if Qle_bool 0 x then Qfloor (x + (1 # 2)) else (- Qfloor (- x + (1 # 2)))%Z.

(** Integer part, towards zero: the value of a float-to-integer cast. *)
Definition truncQ (x : Q) : Z :=
  if Qle_bool 0 x then Qfloor x else (- Qfloor (- x))%Z.

Lemma pow2_pos e : 0 < pow2 e.
Proof. apply Qpower_0_lt. reflexivity. Qed.

Lemma pow2_add a b : pow2 (a + b) == pow2 a * pow2 b.
Proof. apply Qpower_plus. discriminate. Qed.

Lemma pow2_le a b : (a <= b)%Z -> pow2 a <= pow2 b.
Proof. intros. apply Qpower_le_compat_l; [assumption | discriminate]. Qed.

Lemma pow2_lt a b : (a < b)%Z -> pow2 a < pow2 b.
Proof. intros. apply Qpower_lt_compat_l; [assumption | reflexivity]. Qed.

Lemma pow2_Z e : (0 <= e)%Z -> pow2 e == inject_Z (2 ^ e).
Proof. intros. unfold pow2. rewrite Zpower_Qpower by assumption. reflexivity. Qed.

Lemma pow2_succ e : pow2 (e + 1) == 2 * pow2 e.
Proof. rewrite pow2_add. unfold pow2 at 2. simpl. ring. Qed.

Lemma pow2_opp_mul e : pow2 e * pow2 (- e) == 1.
Proof. rewrite <- pow2_add. rewrite Z.add_opp_diag_r. reflexivity. Qed.

Lemma Q_as_div (q : Q) : q == inject_Z (Qnum q) / inject_Z (Zpos (Qden q)).
Proof. destruct q as [n d]. simpl. apply Qmake_Qdiv. Qed.

Lemma log2_bounds_Q (n : Z) :
  (0 < n)%Z -> pow2 (Z.log2 n) <= inject_Z n /\ inject_Z n < pow2 (Z.log2 n + 1).
Proof.
  intros Hn. destruct (Z.log2_spec n Hn) as [L U].
  pose proof (Z.log2_nonneg n) as Hl.
  rewrite !pow2_Z by lia. rewrite <- Zle_Qle, <- Zlt_Qlt.
  replace (Z.log2 n + 1)%Z with (Z.succ (Z.log2 n)) by lia. split; assumption.
Qed.

Lemma ilog2_spec (q : Q) :
  0 < q -> pow2 (ilog2 q) <= q /\ q < pow2 (ilog2 q + 1).
Proof.
  intros Hq. unfold ilog2.
  set (n := Qnum q). set (d := Zpos (Qden q)).
  assert (Hn : (0 < n)%Z) by (destruct q as [qn qd]; unfold Qlt in Hq; simpl in *; subst n; simpl; lia).
  assert (Hd : (0 < d)%Z) by (subst d; lia).
  destruct (log2_bounds_Q n Hn) as [Ln Un].
  destruct (log2_bounds_Q d Hd) as [Ld Ud].
  set (a := Z.log2 n) in *. set (b := Z.log2 d) in *.
  assert (HD : 0 < inject_Z d) by (rewrite <- (Zlt_Qlt 0); exact Hd).
  pose proof (Q_as_div q) as Eq. fold n d in Eq.
  assert (Up : q < pow2 (a - b + 1)).
  { rewrite Eq. apply Qlt_shift_div_r; [exact HD|].
    assert (E : pow2 (a + 1) == pow2 (a - b + 1) * pow2 b)
      by (rewrite <- pow2_add; replace (a - b + 1 + b)%Z with (a + 1)%Z by lia; reflexivity).
    pose proof (pow2_pos (a - b + 1)) as P.
    assert (pow2 (a - b + 1) * pow2 b <= pow2 (a - b + 1) * inject_Z d)
      by (apply Qmult_le_l; assumption).
    lra. }
  assert (Lo : pow2 (a - b - 1) < q).
  { rewrite Eq. apply Qlt_shift_div_l; [exact HD|].
    assert (E : pow2 a == pow2 (a - b - 1) * pow2 (b + 1))
      by (rewrite <- pow2_add; replace (a - b - 1 + (b + 1))%Z with a by lia; reflexivity).
    pose proof (pow2_pos (a - b - 1)) as P.
    assert (pow2 (a - b - 1) * inject_Z d < pow2 (a - b - 1) * pow2 (b + 1))
      by (apply Qmult_lt_l; assumption).
    lra. }
  destruct (Qle_bool (pow2 (a - b)) q) eqn:T.
  - apply Qle_bool_iff in T. split; assumption.
  - assert (q < pow2 (a - b)).
    { apply Qnot_le_lt. intro C. apply Qle_bool_iff in C. congruence. }
    replace (a - b - 1 + 1)%Z with (a - b)%Z by lia. split; [apply Qlt_le_weak|]; assumption.
Qed.

Lemma ilog2_unique (q : Q) (l : Z) :
  pow2 l <= q -> q < pow2 (l + 1) -> ilog2 q = l.
Proof.
  intros L U.
  assert (Hq : 0 < q) by (pose proof (pow2_pos l); lra).
  destruct (ilog2_spec q Hq) as [L' U'].
  destruct (Z.compare_spec (ilog2 q) l) as [E | E | E]; [assumption | exfalso | exfalso].
  - assert (pow2 (ilog2 q + 1) <= pow2 l) by (apply pow2_le; lia). lra.
  - assert (pow2 (l + 1) <= pow2 (ilog2 q)) by (apply pow2_le; lia). lra.
Qed.

Lemma ilog2_mono (p q : Q) : 0 < p -> p <= q -> (ilog2 p <= ilog2 q)%Z.
Proof.
  intros Hp Hpq.
  destruct (ilog2_spec p Hp) as [Lp Up].
  destruct (ilog2_spec q) as [Lq Uq]; [lra|].
  destruct (Z_le_gt_dec (ilog2 p) (ilog2 q)) as [|G]; [assumption | exfalso].
  assert (pow2 (ilog2 q + 1) <= pow2 (ilog2 p)) by (apply pow2_le; lia). lra.
Qed.

(** *** Rounding to an integer *)

Lemma rne_bounds (x : Q) : (Qfloor x <= rne x <= Qfloor x + 1)%Z.
Proof.
  unfold rne. destruct (Qcompare (x - inject_Z (Qfloor x)) (1 # 2));
    [destruct (Z.even (Qfloor x))| |]; lia.
Qed.

Lemma rne_Z (z : Z) : rne (inject_Z z) = z.
Proof.
  unfold rne. rewrite Qfloor_Z.
  assert (E : Qcompare (inject_Z z - inject_Z z) (1 # 2) = Lt).
  { apply (proj1 (Qlt_alt _ _)). ring_simplify. reflexivity. }
  rewrite E. reflexivity.
Qed.

Lemma rne_comp (x y : Q) : x == y -> rne x = rne y.
Proof.
  intros E. unfold rne. rewrite (Qfloor_comp _ _ E).
  assert (C : Qcompare (x - inject_Z (Qfloor y)) (1 # 2) = Qcompare (y - inject_Z (Qfloor y)) (1 # 2))
    by (apply Qcompare_comp; [rewrite E; reflexivity | reflexivity]).
  rewrite C. reflexivity.
Qed.

Lemma rne_mono (x y : Q) : x <= y -> (rne x <= rne y)%Z.
Proof.
  intros Hxy. pose proof (Qfloor_resp_le _ _ Hxy) as Hf.
  destruct (Z.eq_dec (Qfloor x) (Qfloor y)) as [E | NE].
  - unfold rne. rewrite E.
    destruct (Qcompare (x - inject_Z (Qfloor y)) (1 # 2)) eqn:Cx;
    destruct (Qcompare (y - inject_Z (Qfloor y)) (1 # 2)) eqn:Cy;
    try (destruct (Z.even (Qfloor y))); try lia; exfalso;
    try apply (proj2 (Qeq_alt _ _)) in Cx; try apply (proj2 (Qlt_alt _ _)) in Cx;
    try apply (proj2 (Qgt_alt _ _)) in Cx;
    try apply (proj2 (Qeq_alt _ _)) in Cy; try apply (proj2 (Qlt_alt _ _)) in Cy;
    try apply (proj2 (Qgt_alt _ _)) in Cy; lra.
  - pose proof (rne_bounds x). pose proof (rne_bounds y). lia.
Qed.

Lemma rne_ge_Z (z : Z) (x : Q) : inject_Z z <= x -> (z <= rne x)%Z.
Proof. intros H. rewrite <- (rne_Z z). apply rne_mono. exact H. Qed.

Lemma rne_le_Z (z : Z) (x : Q) : x <= inject_Z z -> (rne x <= z)%Z.
Proof. intros H. rewrite <- (rne_Z z). apply rne_mono. exact H. Qed.

Lemma Qfloor_nonneg (x : Q) : 0 <= x -> (0 <= Qfloor x)%Z.
Proof. intros H. rewrite <- (Qfloor_Z 0). apply Qfloor_resp_le. exact H. Qed.

Lemma rha_comp (x y : Q) : x == y -> rha x = rha y.
Proof.
  intros E. unfold rha.
  assert (B : Qle_bool 0 x = Qle_bool 0 y).
  { destruct (Qle_bool 0 x) eqn:Bx, (Qle_bool 0 y) eqn:By; try reflexivity.
    - apply Qle_bool_iff in Bx. rewrite E in Bx. apply Qle_bool_iff in Bx. congruence.
    - apply Qle_bool_iff in By. rewrite <- E in By. apply Qle_bool_iff in By. congruence. }
  rewrite B. destruct (Qle_bool 0 y); [|f_equal]; apply Qfloor_comp; rewrite E; reflexivity.
Qed.

Lemma rha_mono (x y : Q) : x <= y -> (rha x <= rha y)%Z.
Proof.
  intros Hxy. unfold rha.
  destruct (Qle_bool 0 x) eqn:Bx, (Qle_bool 0 y) eqn:By.
  - apply Qfloor_resp_le. lra.
  - apply Qle_bool_iff in Bx.
    assert (~ 0 <= y) by (intro C; apply Qle_bool_iff in C; congruence). lra.
  - assert (Nx : ~ 0 <= x) by (intro C; apply Qle_bool_iff in C; congruence).
    apply Qle_bool_iff in By.
    assert ((0 <= Qfloor (- x + (1 # 2)))%Z)
      by (apply Qfloor_nonneg; apply Qnot_le_lt in Nx; lra).
    assert ((0 <= Qfloor (y + (1 # 2)))%Z) by (apply Qfloor_nonneg; lra).
    lia.
  - assert ((Qfloor (- y + (1 # 2)) <= Qfloor (- x + (1 # 2)))%Z)
      by (apply Qfloor_resp_le; lra).
    lia.
Qed.

Lemma rha_Z (z : Z) : rha (inject_Z z) = z.
Proof.
  unfold rha. destruct (Qle_bool 0 (inject_Z z)) eqn:B.
  - pose proof (Qfloor_le (inject_Z z + (1 # 2))) as L.
    pose proof (Qlt_floor (inject_Z z + (1 # 2))) as U.
    assert ((z <= Qfloor (inject_Z z + (1 # 2)))%Z)
      by (rewrite <- (Qfloor_Z z) at 1; apply Qfloor_resp_le; lra).
    assert (inject_Z (Qfloor (inject_Z z + (1 # 2))) < inject_Z (z + 1)).
    { rewrite inject_Z_plus. apply Qle_lt_trans with (inject_Z z + (1 # 2)); [exact L|].
      change (inject_Z 1) with 1. lra. }
    rewrite <- Zlt_Qlt in *. lia.
  - pose proof (Qfloor_le (- inject_Z z + (1 # 2))) as L.
    assert ((- z <= Qfloor (- inject_Z z + (1 # 2)))%Z).
    { rewrite <- (Qfloor_Z (- z)) at 1. apply Qfloor_resp_le. rewrite inject_Z_opp. lra. }
    assert (inject_Z (Qfloor (- inject_Z z + (1 # 2))) < inject_Z (- z + 1)).
    { rewrite inject_Z_plus, inject_Z_opp.
      apply Qle_lt_trans with (- inject_Z z + (1 # 2)); [exact L|].
      change (inject_Z 1) with 1. lra. }
    rewrite <- Zlt_Qlt in *. lia.
Qed.

(** *** Floating-point data and their values *)

Definition sgn (s : bool) : Q := if s then - (1) else 1.

(** The rational value of a finite float; zeros, infinities and NaN map to 0. *)
Definition val (x : spec_float) : Q :=
  match x with
  | S754_finite s m e => sgn s * (inject_Z (Zpos m) * pow2 e)
  | _ => 0
  end.

Definition is_nan (x : spec_float) : bool :=
  match x with S754_nan => true | _ => false end.

Definition is_num (x : spec_float) : bool :=
  match x with S754_zero _ | S754_finite _ _ _ => true | _ => false end.

Definition sign_of (x : spec_float) : bool :=
  match x with
  | S754_zero s | S754_infinity s | S754_finite s _ _ => s
  | S754_nan => false
  end.

Section Format.

(** [prec] bits of mantissa, exponent of the infinities [emax]:
    binary32 is (24, 128), binary64 is (53, 1024). *)
Variables prec emax : Z.

Definition emin : Z := (3 - emax - prec)%Z.

(** Exponent of the unit in the last place of a positive rational. *)
Definition cexp (q : Q) : Z := Z.max (ilog2 q + 1 - prec) emin.

(** A float from a sign, a rounded mantissa in [0, 2^prec] and its exponent. *)
Definition mk (s : bool) (m e : Z) : spec_float :=
  match m with
  | Zpos p =>
      if (m =? 2 ^ prec)%Z then
        if (e + 1 <=? emax - prec)%Z
        then S754_finite s (Z.to_pos (2 ^ (prec - 1))) (e + 1)
        else S754_infinity s
      else if (e <=? emax - prec)%Z then S754_finite s p e
      else S754_infinity s
  | _ => S754_zero s
  end.

Definition round_pos (s : bool) (q : Q) : spec_float :=
  let e := cexp q in mk s (rne (q * pow2 (- e))) e.

(** Round to nearest, ties to even; [sz] signs an exactly zero result. *)
Definition round (q : Q) (sz : bool) : spec_float :=
  match Qcompare q 0 with
  | Eq => S754_zero sz
  | Gt => round_pos false q
  | Lt => round_pos true (- q)
  end.

(** Values extended to the infinities, which sit at ±2^emax. *)
Definition xval (x : spec_float) : Q :=
  match x with
  | S754_infinity s => sgn s * pow2 emax
  | _ => val x
  end.

(** A finite number of this format. *)
Definition fin (x : spec_float) : Prop :=
  match x with
  | S754_zero _ => True
  | S754_finite _ m e => (Zpos m < 2 ^ prec)%Z /\ (emin <= e <= emax - prec)%Z
  | _ => False
  end.

(** A rational that the format holds exactly. *)
Definition rep (q : Q) : Prop :=
  exists k e, q == inject_Z k * pow2 e /\
              (Z.abs k < 2 ^ prec)%Z /\ (emin <= e)%Z /\
              - pow2 emax < q < pow2 emax.

(** **** Operations *)

Definition of_Z (z : Z) : spec_float := round (inject_Z z) false.

(** Conversion from another format. *)
Definition of_float (x : spec_float) : spec_float :=
  match x with
  | S754_finite s _ _ => round (val x) s
  | _ => x
  end.

Definition fopp (x : spec_float) : spec_float := SFopp x.

Definition fadd (x y : spec_float) : spec_float :=
  match x, y with
  | S754_nan, _ | _, S754_nan => S754_nan
  | S754_infinity sx, S754_infinity sy => if Bool.eqb sx sy then x else S754_nan
  | S754_infinity _, _ => x
  | _, S754_infinity _ => y
  | S754_zero sx, S754_zero sy => S754_zero (sx && sy)
  | _, _ => round (val x + val y) false
  end.

Definition fsub (x y : spec_float) : spec_float :=
  match x, y with
  | S754_nan, _ | _, S754_nan => S754_nan
  | S754_infinity sx, S754_infinity sy => if Bool.eqb sx sy then S754_nan else x
  | S754_infinity _, _ => x
  | _, S754_infinity sy => S754_infinity (negb sy)
  | S754_zero sx, S754_zero sy => S754_zero (sx && negb sy)
  | _, _ => round (val x - val y) false
  end.

Definition fmul (x y : spec_float) : spec_float :=
  match x, y with
  | S754_nan, _ | _, S754_nan => S754_nan
  | S754_infinity _, S754_zero _ | S754_zero _, S754_infinity _ => S754_nan
  | S754_infinity sx, _ => S754_infinity (xorb sx (sign_of y))
  | _, S754_infinity sy => S754_infinity (xorb (sign_of x) sy)
  | _, _ => round (val x * val y) (xorb (sign_of x) (sign_of y))
  end.

Definition fdiv (x y : spec_float) : spec_float :=
  match x, y with
  | S754_nan, _ | _, S754_nan => S754_nan
  | S754_infinity _, S754_infinity _ => S754_nan
  | S754_zero _, S754_zero _ => S754_nan
  | S754_infinity sx, _ => S754_infinity (xorb sx (sign_of y))
  | _, S754_infinity sy => S754_zero (xorb (sign_of x) sy)
  | S754_finite sx _ _, S754_zero sy => S754_infinity (xorb sx sy)
  | _, _ => round (val x / val y) (xorb (sign_of x) (sign_of y))
  end.

(** [std::round]: nearest integer, ties away from zero, in the same format. *)
Definition fround (x : spec_float) : spec_float :=
  match x with
  | S754_finite s _ _ => round (inject_Z (rha (val x))) s
  | _ => x
  end.

(** Comparison; [None] when an operand is NaN. *)
Definition fcompare (x y : spec_float) : option comparison :=
  if is_nan x || is_nan y then None else Some (Qcompare (xval x) (xval y)).

Definition flt (x y : spec_float) : bool :=
  match fcompare x y with Some Lt => true | _ => false end.

Definition fle (x y : spec_float) : bool :=
  match fcompare x y with Some (Lt | Eq) => true | _ => false end.

Definition fgt (x y : spec_float) : bool := flt y x.

End Format.

(** [static_cast] of a float to an integer type with range [lo, hi]:
    truncation towards zero, undefined when the truncated value does not
    fit (or the operand is not a number). *)
Definition to_int (lo hi : Z) (x : spec_float) : option Z :=
  if is_num x then
    let z := truncQ (val x) in
    if ((lo <=? z) && (z <=? hi))%Z%bool then Some z else None
  else None.

(** *** Facts about rounding *)

Lemma scale_lt (a b : Q) (c : Z) : a < b * pow2 c -> a * pow2 (- c) < b.
Proof.
  intros H. pose proof (pow2_pos (- c)) as P.
  assert (E : b == b * pow2 c * pow2 (- c))
    by (rewrite <- Qmult_assoc, pow2_opp_mul; ring).
  rewrite E. apply Qmult_lt_compat_r; assumption.
Qed.

Lemma scale_le (a b : Q) (c : Z) : b * pow2 c <= a -> b <= a * pow2 (- c).
Proof.
  intros H. pose proof (pow2_pos (- c)) as P.
  assert (E : b == b * pow2 c * pow2 (- c))
    by (rewrite <- Qmult_assoc, pow2_opp_mul; ring).
  rewrite E. apply Qmult_le_compat_r; [assumption | apply Qlt_le_weak; assumption].
Qed.

Lemma sgn_cases (s : bool) : sgn s == 1 \/ sgn s == - (1).
Proof. destruct s; [right | left]; reflexivity. Qed.

Ltac rep_intro k e :=
  exists k, e; split; [ | split; [ | split; [ | split ] ] ].

Section FormatFacts.

Variables prec emax : Z.
Hypothesis Hprec : (1 < prec)%Z.
Hypothesis Hemax : (prec < emax)%Z.

#[local] Set Default Proof Using "Hprec Hemax".

Local Abbreviation emin := (emin prec emax).
Local Abbreviation cexp := (cexp prec emax).
Local Abbreviation mk := (mk prec emax).
Local Abbreviation round_pos := (round_pos prec emax).
Local Abbreviation round := (round prec emax).
Local Abbreviation xval := (xval emax).
Local Abbreviation fin := (fin prec emax).
Local Abbreviation rep := (rep prec emax).

(** The rounded mantissa and the value rounded with unbounded exponent. *)
Definition mant (q : Q) : Z := rne (q * pow2 (- cexp q)).
Definition uval (q : Q) : Q := inject_Z (mant q) * pow2 (cexp q).

Lemma cexp_ge_emin q : (emin <= cexp q)%Z.
Proof. unfold cexp, IEEE.cexp. lia. Qed.

Lemma cexp_mono p q : 0 < p -> p <= q -> (cexp p <= cexp q)%Z.
Proof.
  intros Hp Hpq. pose proof (ilog2_mono p q Hp Hpq).
  unfold cexp, IEEE.cexp. lia.
Qed.

Lemma pow2_prec_Z : pow2 prec == inject_Z (2 ^ prec).
Proof. apply pow2_Z. lia. Qed.

Lemma pow2_prec1_Z : pow2 (prec - 1) == inject_Z (2 ^ (prec - 1)).
Proof. apply pow2_Z. lia. Qed.

Lemma scaled_lt q : 0 < q -> q * pow2 (- cexp q) < pow2 prec.
Proof.
  intros Hq. destruct (ilog2_spec q Hq) as [_ U].
  apply scale_lt. rewrite <- pow2_add.
  apply Qlt_le_trans with (pow2 (ilog2 q + 1)); [exact U|].
  apply pow2_le. unfold cexp, IEEE.cexp. lia.
Qed.

Lemma scaled_ge q : 0 < q -> (emin < cexp q)%Z -> pow2 (prec - 1) <= q * pow2 (- cexp q).
Proof.
  intros Hq Hc. destruct (ilog2_spec q Hq) as [L _].
  apply scale_le. rewrite <- pow2_add.
  apply Qle_trans with (pow2 (ilog2 q)); [|exact L].
  apply pow2_le. unfold cexp, IEEE.cexp in *. lia.
Qed.

Lemma mant_le q : 0 < q -> (mant q <= 2 ^ prec)%Z.
Proof.
  intros Hq. apply rne_le_Z. rewrite <- pow2_prec_Z.
  apply Qlt_le_weak, scaled_lt, Hq.
Qed.

Lemma mant_ge q : 0 < q -> (emin < cexp q)%Z -> (2 ^ (prec - 1) <= mant q)%Z.
Proof.
  intros Hq Hc. apply rne_ge_Z. rewrite <- pow2_prec1_Z. apply scaled_ge; assumption.
Qed.

Lemma mant_nonneg q : 0 < q -> (0 <= mant q)%Z.
Proof.
  intros Hq. apply (rne_ge_Z 0). apply Qlt_le_weak.
  apply Qmult_lt_0_compat; [exact Hq | apply pow2_pos].
Qed.

Lemma uval_nonneg q : 0 < q -> 0 <= uval q.
Proof.
  intros Hq. unfold uval. apply Qmult_le_0_compat.
  - rewrite <- (Zle_Qle 0). apply mant_nonneg, Hq.
  - apply Qlt_le_weak, pow2_pos.
Qed.

Lemma uval_mono p q : 0 < p -> p <= q -> uval p <= uval q.
Proof.
  intros Hp Hpq. assert (Hq : 0 < q) by lra.
  pose proof (cexp_mono p q Hp Hpq) as Hc. unfold uval.
  destruct (Z.eq_dec (cexp p) (cexp q)) as [E | NE].
  - unfold mant. rewrite E. apply Qmult_le_compat_r.
    + rewrite <- Zle_Qle. apply rne_mono. apply Qmult_le_compat_r; [exact Hpq|].
      apply Qlt_le_weak, pow2_pos.
    + apply Qlt_le_weak, pow2_pos.
  - pose proof (mant_le p Hp) as Mp.
    assert (Mq : (2 ^ (prec - 1) <= mant q)%Z)
      by (apply mant_ge; [exact Hq | pose proof (cexp_ge_emin p); lia]).
    apply Qle_trans with (pow2 prec * pow2 (cexp p)).
    + apply Qmult_le_compat_r; [|apply Qlt_le_weak, pow2_pos].
      rewrite pow2_prec_Z, <- Zle_Qle. exact Mp.
    + apply Qle_trans with (pow2 (prec - 1) * pow2 (cexp q)).
      * rewrite <- !pow2_add. apply pow2_le. lia.
      * apply Qmult_le_compat_r; [|apply Qlt_le_weak, pow2_pos].
        rewrite pow2_prec1_Z, <- Zle_Qle. exact Mq.
Qed.

(** A rational k·2^e with a mantissa of at most [prec] bits rounds to itself. *)
Lemma uval_exact q k e :
  0 < q -> q == inject_Z k * pow2 e -> (k < 2 ^ prec)%Z -> (emin <= e)%Z -> uval q == q.
Proof.
  intros Hq Eq Hk He.
  assert (Hc : (cexp q <= e)%Z).
  { destruct (ilog2_spec q Hq) as [L _].
    assert (U : q < pow2 (prec + e)).
    { rewrite Eq, pow2_add. apply Qmult_lt_compat_r; [apply pow2_pos|].
      rewrite pow2_prec_Z, <- Zlt_Qlt. exact Hk. }
    assert ((ilog2 q < prec + e)%Z).
    { destruct (Z_lt_le_dec (ilog2 q) (prec + e)) as [|G]; [assumption | exfalso].
      pose proof (pow2_le _ _ G). lra. }
    unfold cexp, IEEE.cexp. lia. }
  unfold uval, mant.
  assert (S : q * pow2 (- cexp q) == inject_Z (k * 2 ^ (e - cexp q))).
  { rewrite Eq at 1. rewrite inject_Z_mult, <- pow2_Z by lia.
    rewrite <- Qmult_assoc, <- pow2_add.
    replace (e + - cexp q)%Z with (e - cexp q)%Z by lia. reflexivity. }
  rewrite (rne_comp _ _ S), rne_Z.
  rewrite inject_Z_mult, <- pow2_Z by lia.
  rewrite <- Qmult_assoc, <- pow2_add.
  replace (e - cexp q + cexp q)%Z with e by lia. symmetry. exact Eq.
Qed.

Lemma emin_lt_top : (emin < emax - prec)%Z.
Proof. unfold emin, IEEE.emin. lia. Qed.

Lemma mk_fin s m e :
  (0 <= m <= 2 ^ prec)%Z -> (emin <= e)%Z ->
  ((emin < e)%Z -> (2 ^ (prec - 1) <= m)%Z) ->
  inject_Z m * pow2 e < pow2 emax ->
  fin (mk s m e) /\ val (mk s m e) == sgn s * (inject_Z m * pow2 e).
Proof.
  intros Hm He Hn Hv. pose proof emin_lt_top as Ht.
  assert (P1 : (0 < 2 ^ (prec - 1))%Z) by (apply Z.pow_pos_nonneg; lia).
  assert (P2 : (2 ^ prec = 2 * 2 ^ (prec - 1))%Z).
  { replace prec with (Z.succ (prec - 1)) at 1 by lia. apply Z.pow_succ_r. lia. }
  unfold mk, IEEE.mk. destruct m as [|p|p]; [| |lia].
  - simpl. split; [exact I | ring].
  - destruct (Z.eqb_spec (Zpos p) (2 ^ prec)) as [E | NE].
    + assert (Hpe : (prec + e < emax)%Z).
      { destruct (Z_lt_le_dec (prec + e) emax) as [|G]; [assumption | exfalso].
        pose proof (pow2_le _ _ G) as G'. rewrite pow2_add in G'.
        rewrite E, <- pow2_prec_Z in Hv. lra. }
      destruct (Z.leb_spec (e + 1) (emax - prec)); [|lia].
      simpl. rewrite Z2Pos.id by lia. split; [lia|].
      rewrite E, <- pow2_prec_Z, <- pow2_prec1_Z, <- !pow2_add.
      replace (prec - 1 + (e + 1))%Z with (prec + e)%Z by lia. reflexivity.
    + destruct (Z.leb_spec e (emax - prec)) as [L | G].
      * simpl. split; [lia | reflexivity].
      * exfalso. assert (M : (2 ^ (prec - 1) <= Zpos p)%Z) by (apply Hn; lia).
        assert (pow2 emax <= pow2 (prec - 1) * pow2 e)
          by (rewrite <- pow2_add; apply pow2_le; lia).
        assert (pow2 (prec - 1) * pow2 e <= inject_Z (Zpos p) * pow2 e).
        { apply Qmult_le_compat_r; [|apply Qlt_le_weak, pow2_pos].
          rewrite pow2_prec1_Z, <- Zle_Qle. exact M. }
        lra.
Qed.

Lemma mk_inf s m e :
  (0 <= m <= 2 ^ prec)%Z -> pow2 emax <= inject_Z m * pow2 e ->
  mk s m e = S754_infinity s.
Proof.
  intros Hm Hv. pose proof (pow2_pos emax) as Pm. pose proof (pow2_pos e) as Pe.
  unfold mk, IEEE.mk. destruct m as [|p|p]; [| |lia].
  - exfalso. change (inject_Z 0) with 0 in Hv. lra.
  - assert (U : inject_Z (Zpos p) * pow2 e <= pow2 (prec + e)).
    { rewrite pow2_add. apply Qmult_le_compat_r; [|lra].
      rewrite pow2_prec_Z, <- Zle_Qle. lia. }
    destruct (Z.eqb_spec (Zpos p) (2 ^ prec)) as [E | NE].
    + destruct (Z.leb_spec (e + 1) (emax - prec)) as [L | G]; [exfalso | reflexivity].
      assert (pow2 (prec + e) < pow2 emax) by (apply pow2_lt; lia). lra.
    + destruct (Z.leb_spec e (emax - prec)) as [L | G]; [exfalso | reflexivity].
      assert (S : inject_Z (Zpos p) * pow2 e < pow2 prec * pow2 e).
      { apply Qmult_lt_compat_r; [exact Pe|].
        rewrite pow2_prec_Z, <- Zlt_Qlt. lia. }
      rewrite <- pow2_add in S.
      assert (pow2 (prec + e) <= pow2 emax) by (apply pow2_le; lia). lra.
Qed.

Lemma round_pos_fin s q :
  0 < q -> uval q < pow2 emax ->
  fin (round_pos s q) /\ val (round_pos s q) == sgn s * uval q.
Proof.
  intros Hq Hu. unfold round_pos, IEEE.round_pos. apply mk_fin.
  - split; [apply mant_nonneg | apply mant_le]; exact Hq.
  - apply cexp_ge_emin.
  - apply mant_ge, Hq.
  - exact Hu.
Qed.

Lemma round_pos_inf s q :
  0 < q -> pow2 emax <= uval q -> round_pos s q = S754_infinity s.
Proof.
  intros Hq Hu. unfold round_pos, IEEE.round_pos. apply mk_inf.
  - split; [apply mant_nonneg | apply mant_le]; exact Hq.
  - exact Hu.
Qed.

Lemma xval_round_pos s q :
  0 < q -> xval (round_pos s q) == sgn s * Qmin (uval q) (pow2 emax).
Proof.
  intros Hq. destruct (Qlt_le_dec (uval q) (pow2 emax)) as [L | G].
  - destruct (round_pos_fin s q Hq L) as [F V].
    rewrite Q.min_l by (apply Qlt_le_weak; exact L). rewrite <- V.
    destruct (round_pos s q); simpl in *; try contradiction; reflexivity.
  - rewrite (round_pos_inf s q Hq G), Q.min_r by exact G. reflexivity.
Qed.

Lemma round_not_nan q sz : is_nan (round q sz) = false.
Proof.
  unfold round, IEEE.round, IEEE.round_pos, IEEE.mk.
  destruct (Qcompare q 0); [reflexivity | |].
  - destruct (rne _); [reflexivity | | reflexivity].
    destruct (_ =? _)%Z; destruct (_ <=? _)%Z; reflexivity.
  - destruct (rne _); [reflexivity | | reflexivity].
    destruct (_ =? _)%Z; destruct (_ <=? _)%Z; reflexivity.
Qed.

(** Rounding is monotone on the extended values. *)
Lemma round_mono p q sp sq : p <= q -> xval (round p sp) <= xval (round q sq).
Proof.
  intros Hpq. pose proof (pow2_pos emax) as Pm.
  assert (N : forall x, 0 < x -> 0 <= Qmin (uval x) (pow2 emax)).
  { intros x Hx. apply Q.min_glb; [apply uval_nonneg, Hx | lra]. }
  unfold round, IEEE.round.
  destruct (Qcompare p 0) eqn:Cp; destruct (Qcompare q 0) eqn:Cq;
    try apply (proj2 (Qeq_alt _ _)) in Cp; try apply (proj2 (Qlt_alt _ _)) in Cp;
    try apply (proj2 (Qgt_alt _ _)) in Cp;
    try apply (proj2 (Qeq_alt _ _)) in Cq; try apply (proj2 (Qlt_alt _ _)) in Cq;
    try apply (proj2 (Qgt_alt _ _)) in Cq;
    try (exfalso; lra);
    repeat rewrite xval_round_pos by lra; simpl.
  - lra.
  - pose proof (N q Cq). lra.
  - pose proof (N (- p)). lra.
  - assert (Qmin (uval (- q)) (pow2 emax) <= Qmin (uval (- p)) (pow2 emax)).
    { apply Q.min_le_compat_r. apply uval_mono; lra. }
    lra.
  - pose proof (N (- p)). pose proof (N q Cq). lra.
  - assert (Qmin (uval p) (pow2 emax) <= Qmin (uval q) (pow2 emax)).
    { apply Q.min_le_compat_r. apply uval_mono; lra. }
    lra.
Qed.

Lemma round_cases q sz : fin (round q sz) \/ exists s, round q sz = S754_infinity s.
Proof.
  unfold round, IEEE.round.
  destruct (Qcompare q 0) eqn:C;
    try apply (proj2 (Qlt_alt _ _)) in C; try apply (proj2 (Qgt_alt _ _)) in C.
  - left. exact I.
  - destruct (Qlt_le_dec (uval (- q)) (pow2 emax)) as [L | G].
    + left. apply round_pos_fin; [lra | exact L].
    + right. exists true. apply round_pos_inf; [lra | exact G].
  - destruct (Qlt_le_dec (uval q) (pow2 emax)) as [L | G].
    + left. apply round_pos_fin; [lra | exact L].
    + right. exists false. apply round_pos_inf; [lra | exact G].
Qed.

Lemma fin_xval x : fin x -> xval x = val x.
Proof. destruct x; simpl; intros; try contradiction; reflexivity. Qed.

Lemma fin_num x : fin x -> is_num x = true.
Proof. destruct x; simpl; intros; try contradiction; reflexivity. Qed.

Lemma rep_comp q q' : q == q' -> rep q -> rep q'.
Proof.
  intros E (k & e & Hq & Hk & He & Hb1 & Hb2).
  rep_intro k e; rewrite <- ?E; assumption.
Qed.

Lemma rep_opp q : rep q -> rep (- q).
Proof.
  intros (k & e & Hq & Hk & He & Hb). rep_intro (- k)%Z e.
  - rewrite Hq, inject_Z_opp. ring.
  - lia.
  - exact He.
  - lra.
  - lra.
Qed.

Lemma rep_0 : rep 0.
Proof.
  pose proof (pow2_pos emax).
  rep_intro 0%Z (IEEE.emin prec emax).
  - ring.
  - simpl. apply Z.pow_pos_nonneg; lia.
  - lia.
  - lra.
  - lra.
Qed.

Lemma rep_pow2 e : (emin <= e < emax)%Z -> rep (pow2 e).
Proof.
  intros He. pose proof (pow2_pos emax). pose proof (pow2_pos e).
  rep_intro 1%Z e.
  - ring.
  - simpl. apply Z.pow_gt_1; lia.
  - lia.
  - lra.
  - apply pow2_lt. lia.
Qed.

Lemma rep_Z z : (Z.abs z < 2 ^ prec)%Z -> rep (inject_Z z).
Proof.
  intros Hz.
  assert (T : pow2 prec < pow2 emax) by (apply pow2_lt; lia).
  rewrite pow2_prec_Z in T.
  assert (U : inject_Z z < inject_Z (2 ^ prec)) by (rewrite <- Zlt_Qlt; lia).
  assert (L : inject_Z (- 2 ^ prec) < inject_Z z) by (rewrite <- Zlt_Qlt; lia).
  rewrite inject_Z_opp in L.
  rep_intro z 0%Z.
  - unfold pow2. simpl. ring.
  - exact Hz.
  - unfold emin, IEEE.emin. lia.
  - lra.
  - lra.
Qed.

Lemma fin_rep x : fin x -> rep (val x).
Proof.
  destruct x as [s | s | | s m e]; simpl; intros F; try contradiction; try apply rep_0.
  destruct F as [Hm He].
  assert (B : inject_Z (Zpos m) * pow2 e < pow2 emax).
  { apply Qlt_le_trans with (pow2 prec * pow2 e).
    - apply Qmult_lt_compat_r; [apply pow2_pos|]. rewrite pow2_prec_Z, <- Zlt_Qlt. exact Hm.
    - rewrite <- pow2_add. apply pow2_le. lia. }
  assert (P : 0 <= inject_Z (Zpos m) * pow2 e).
  { apply Qmult_le_0_compat; [rewrite <- (Zle_Qle 0); lia | apply Qlt_le_weak, pow2_pos]. }
  destruct s; simpl.
  - rep_intro (Zneg m) e; [|lia|lia|lra|lra].
    change (Zneg m) with (- Zpos m)%Z. rewrite inject_Z_opp. ring.
  - rep_intro (Zpos m) e; [|lia|lia|lra|lra]. ring.
Qed.

(** A representable rational rounds to itself. *)
Lemma round_exact q sz : rep q -> fin (round q sz) /\ val (round q sz) == q.
Proof.
  intros (k & e & Hq & Hk & He & Hb). unfold round, IEEE.round.
  destruct (Qcompare q 0) eqn:C;
    try apply (proj2 (Qeq_alt _ _)) in C;
    try apply (proj2 (Qlt_alt _ _)) in C; try apply (proj2 (Qgt_alt _ _)) in C.
  - split; [exact I | simpl; symmetry; exact C].
  - assert (Hn : 0 < - q) by lra.
    assert (E : uval (- q) == - q).
    { apply (uval_exact (- q) (- k) e Hn); [rewrite Hq, inject_Z_opp; ring | lia | exact He]. }
    assert (L : uval (- q) < pow2 emax) by (rewrite E; lra).
    destruct (round_pos_fin true (- q) Hn L) as [F V].
    split; [exact F | rewrite V, E; simpl; ring].
  - assert (E : uval q == q).
    { apply (uval_exact q k e C); [exact Hq | lia | exact He]. }
    assert (L : uval q < pow2 emax) by (rewrite E; lra).
    destruct (round_pos_fin false q C L) as [F V].
    split; [exact F | rewrite V, E; simpl; ring].
Qed.

(** The workhorse: rounding stays between representable bounds. *)
Lemma round_between q sz lo hi :
  rep lo -> rep hi -> lo <= q <= hi ->
  fin (round q sz) /\ lo <= val (round q sz) <= hi.
Proof.
  intros Rl Rh [Hl Hh].
  destruct (round_exact lo false Rl) as [Fl Vl].
  destruct (round_exact hi false Rh) as [Fh Vh].
  pose proof (round_mono lo q false sz Hl) as M1.
  pose proof (round_mono q hi sz false Hh) as M2.
  rewrite (fin_xval _ Fl), Vl in M1. rewrite (fin_xval _ Fh), Vh in M2.
  destruct (round_cases q sz) as [F | [s E]].
  - rewrite (fin_xval _ F) in M1, M2. auto.
  - exfalso. rewrite E in M1, M2. simpl in M1, M2.
    destruct Rl as (_ & _ & _ & _ & _ & Bl). destruct Rh as (_ & _ & _ & _ & _ & Bh).
    destruct s; simpl in M1, M2; lra.
Qed.

Lemma round_fin_is_fin q sz : is_num (round q sz) = true -> fin (round q sz).
Proof.
  intros H. destruct (round_cases q sz) as [F | [s E]]; [exact F|].
  rewrite E in H. discriminate.
Qed.

(** **** The operations on finite operands are correctly rounded. *)

Local Abbreviation fadd := (fadd prec emax).
Local Abbreviation fsub := (fsub prec emax).
Local Abbreviation fmul := (fmul prec emax).
Local Abbreviation fdiv := (fdiv prec emax).
Local Abbreviation fround := (fround prec emax).
Local Abbreviation of_Z := (of_Z prec emax).
Local Abbreviation of_float := (of_float prec emax).
Local Abbreviation flt := (flt emax).
Local Abbreviation fle := (fle emax).
Local Abbreviation fgt := (fgt emax).

Lemma round_zero q sz : q == 0 -> round q sz = S754_zero sz.
Proof.
  intros E. unfold round, IEEE.round.
  rewrite (proj1 (Qeq_alt _ _) E). reflexivity.
Qed.

Lemma fadd_round x y :
  is_num x = true -> is_num y = true -> exists sz, fadd x y = round (val x + val y) sz.
Proof.
  destruct x as [sx | sx | | sx mx ex], y as [sy | sy | | sy my ey];
    simpl; try discriminate; intros _ _.
  - exists (sx && sy). rewrite round_zero by ring. reflexivity.
  - exists false. reflexivity.
  - exists false. reflexivity.
  - exists false. reflexivity.
Qed.

Lemma fsub_round x y :
  is_num x = true -> is_num y = true -> exists sz, fsub x y = round (val x - val y) sz.
Proof.
  destruct x as [sx | sx | | sx mx ex], y as [sy | sy | | sy my ey];
    simpl; try discriminate; intros _ _.
  - exists (sx && negb sy). rewrite round_zero by ring. reflexivity.
  - exists false. reflexivity.
  - exists false. reflexivity.
  - exists false. reflexivity.
Qed.

Lemma fmul_round x y :
  is_num x = true -> is_num y = true -> exists sz, fmul x y = round (val x * val y) sz.
Proof.
  destruct x as [sx | sx | | sx mx ex], y as [sy | sy | | sy my ey];
    simpl; try discriminate; intros _ _; eexists; reflexivity.
Qed.

Lemma fdiv_round x y :
  is_num x = true -> is_num y = true -> ~ val y == 0 ->
  exists sz, fdiv x y = round (val x / val y) sz.
Proof.
  destruct x as [sx | sx | | sx mx ex], y as [sy | sy | | sy my ey];
    simpl; try discriminate; intros _ _ N;
    try (exfalso; apply N; reflexivity); eexists; reflexivity.
Qed.

Lemma fadd_between x y lo hi :
  fin x -> fin y -> rep lo -> rep hi -> lo <= val x + val y <= hi ->
  fin (fadd x y) /\ lo <= val (fadd x y) <= hi.
Proof.
  intros Fx Fy Rl Rh B.
  destruct (fadd_round x y (fin_num _ Fx) (fin_num _ Fy)) as [sz E].
  rewrite E. apply round_between; assumption.
Qed.

Lemma fsub_between x y lo hi :
  fin x -> fin y -> rep lo -> rep hi -> lo <= val x - val y <= hi ->
  fin (fsub x y) /\ lo <= val (fsub x y) <= hi.
Proof.
  intros Fx Fy Rl Rh B.
  destruct (fsub_round x y (fin_num _ Fx) (fin_num _ Fy)) as [sz E].
  rewrite E. apply round_between; assumption.
Qed.

Lemma fmul_between x y lo hi :
  fin x -> fin y -> rep lo -> rep hi -> lo <= val x * val y <= hi ->
  fin (fmul x y) /\ lo <= val (fmul x y) <= hi.
Proof.
  intros Fx Fy Rl Rh B.
  destruct (fmul_round x y (fin_num _ Fx) (fin_num _ Fy)) as [sz E].
  rewrite E. apply round_between; assumption.
Qed.

Lemma fdiv_between x y lo hi :
  fin x -> fin y -> ~ val y == 0 -> rep lo -> rep hi -> lo <= val x / val y <= hi ->
  fin (fdiv x y) /\ lo <= val (fdiv x y) <= hi.
Proof.
  intros Fx Fy N Rl Rh B.
  destruct (fdiv_round x y (fin_num _ Fx) (fin_num _ Fy) N) as [sz E].
  rewrite E. apply round_between; assumption.
Qed.

Lemma of_Z_between z lo hi :
  rep lo -> rep hi -> lo <= inject_Z z <= hi ->
  fin (of_Z z) /\ lo <= val (of_Z z) <= hi.
Proof. intros. apply round_between; assumption. Qed.

Lemma of_Z_0 : of_Z 0 = S754_zero false.
Proof. reflexivity. Qed.

(** Conversion of a number of any format. *)
Lemma of_float_between x lo hi :
  is_num x = true -> rep lo -> rep hi -> lo <= val x <= hi ->
  fin (of_float x) /\ lo <= val (of_float x) <= hi.
Proof.
  intros Nx Rl Rh B. destruct x as [s | s | | s m e]; try discriminate.
  - simpl in *. split; [exact I | exact B].
  - unfold of_float, IEEE.of_float. apply round_between; assumption.
Qed.

(** Comparisons of finite numbers are comparisons of their values. *)
Lemma flt_fin x y : fin x -> fin y -> (flt x y = true <-> val x < val y).
Proof.
  intros Fx Fy. unfold flt, IEEE.flt, fcompare.
  rewrite (fin_xval _ Fx), (fin_xval _ Fy).
  assert (is_nan x = false) by (destruct x; simpl in *; try contradiction; reflexivity).
  assert (is_nan y = false) by (destruct y; simpl in *; try contradiction; reflexivity).
  rewrite H, H0. simpl. rewrite Qlt_alt.
  destruct (Qcompare (val x) (val y)); split; intros; congruence.
Qed.

Lemma fle_fin x y : fin x -> fin y -> (fle x y = true <-> val x <= val y).
Proof.
  intros Fx Fy. unfold fle, IEEE.fle, fcompare.
  rewrite (fin_xval _ Fx), (fin_xval _ Fy).
  assert (is_nan x = false) by (destruct x; simpl in *; try contradiction; reflexivity).
  assert (is_nan y = false) by (destruct y; simpl in *; try contradiction; reflexivity).
  rewrite H, H0. simpl. rewrite Qle_alt.
  destruct (Qcompare (val x) (val y)); split; intros; congruence.
Qed.

(** The sign of a converted integer. *)
Lemma of_Z_gt_0 z : fgt (of_Z z) (S754_zero false) = true <-> (0 < z)%Z.
Proof.
  unfold fgt, IEEE.fgt, flt, IEEE.flt, fcompare.
  unfold of_Z, IEEE.of_Z. rewrite round_not_nan. simpl.
  destruct (Z_lt_le_dec 0 z) as [P | N].
  - assert (R1 : rep 1) by (apply (rep_Z 1); simpl; apply Z.pow_gt_1; lia).
    assert (M : xval (round 1 false) <= xval (round (inject_Z z) false)).
    { apply round_mono. change (inject_Z 1 <= inject_Z z). rewrite <- Zle_Qle. lia. }
    destruct (round_exact 1 false R1) as [F V].
    rewrite (fin_xval _ F), V in M.
    assert (C : Qcompare 0 (xval (round (inject_Z z) false)) = Lt)
      by (apply (proj1 (Qlt_alt _ _)); lra).
    rewrite C. split; intros; [exact P | reflexivity].
  - assert (M : xval (round (inject_Z z) false) <= xval (round 0 false)).
    { apply round_mono. change (inject_Z z <= inject_Z 0). rewrite <- Zle_Qle. exact N. }
    simpl in M.
    destruct (Qcompare 0 (xval (round (inject_Z z) false))) eqn:C.
    + split; intros; [discriminate | lia].
    + apply (proj2 (Qlt_alt _ _)) in C. lra.
    + split; intros; [discriminate | lia].
Qed.

(** **** Monotonicity of  round(x / y)  in an integer numerator *)

Lemma round_pos_sign q sz : 0 < q -> sign_of (round q sz) = false.
Proof.
  intros Hq. unfold round, IEEE.round.
  rewrite (proj1 (Qgt_alt _ _) Hq).
  unfold round_pos, IEEE.round_pos, mk, IEEE.mk.
  destruct (rne _); [reflexivity | | reflexivity].
  destruct (_ =? _)%Z; destruct (_ <=? _)%Z; reflexivity.
Qed.

Lemma round_nonneg q sz : 0 <= q -> 0 <= xval (round q sz).
Proof.
  intros Hq. pose proof (round_mono 0 q false sz Hq) as M. simpl in M. exact M.
Qed.

Lemma fin_lt_top x : fin x -> xval x < pow2 emax.
Proof.
  intros F. rewrite (fin_xval _ F).
  destruct (fin_rep x F) as (_ & _ & _ & _ & _ & _ & U). exact U.
Qed.

(** A rounded value between 0 and a finite number is finite. *)
Lemma round_fin_below q sz y :
  0 <= q -> fin y -> xval (round q sz) <= xval y -> fin (round q sz).
Proof.
  intros Hq Fy Hle. pose proof (round_nonneg q sz Hq) as Nn.
  pose proof (fin_lt_top y Fy) as Ty. pose proof (pow2_pos emax) as P.
  destruct (round_cases q sz) as [F | [s E]]; [exact F | exfalso].
  rewrite E in Hle, Nn. simpl in Hle, Nn. destruct s; simpl in *; lra.
Qed.

Lemma fround_round x : fin x -> exists sz, fround x = round (inject_Z (rha (val x))) sz.
Proof.
  destruct x as [s | s | | s m e]; simpl; intros F; try contradiction.
  - exists s. reflexivity.
  - exists s. reflexivity.
Qed.

Lemma fround_mono_fin x y :
  fin x -> fin y -> 0 <= val x <= val y -> is_num (fround y) = true ->
  fin (fround x) /\ fin (fround y) /\ 0 <= val (fround x) <= val (fround y).
Proof.
  intros Fx Fy [Lx Lxy] Ny.
  destruct (fround_round x Fx) as [sx Ex]. destruct (fround_round y Fy) as [sy Ey].
  rewrite Ex, Ey in *.
  assert (Fy' : fin (round (inject_Z (rha (val y))) sy)) by (apply round_fin_is_fin; exact Ny).
  assert (R0 : (0 <= rha (val x))%Z) by (rewrite <- (rha_Z 0); apply rha_mono; exact Lx).
  assert (Q0 : 0 <= inject_Z (rha (val x))) by (rewrite <- (Zle_Qle 0); exact R0).
  assert (M : xval (round (inject_Z (rha (val x))) sx) <= xval (round (inject_Z (rha (val y))) sy)).
  { apply round_mono. rewrite <- Zle_Qle. apply rha_mono. exact Lxy. }
  assert (Fx' : fin (round (inject_Z (rha (val x))) sx))
    by (apply (round_fin_below _ _ _ Q0 Fy' M)).
  pose proof (round_nonneg _ sx Q0) as Nn.
  rewrite (fin_xval _ Fx') in M, Nn. rewrite (fin_xval _ Fy') in M. auto.
Qed.

(** The quotient of a non-negative integer by a float that is not negative,
    rounded to an integer: when it is a number for [b], it is a number for
    every [a] below [b], and not larger. *)
Lemma fround_fdiv_of_Z_mono (a b : Z) (y : spec_float) :
  (0 <= a <= b)%Z ->
  (forall m e, y <> S754_finite true m e) ->
  is_num (fround (fdiv (of_Z b) y)) = true ->
  fin (fround (fdiv (of_Z a) y)) /\ fin (fround (fdiv (of_Z b) y)) /\
  0 <= val (fround (fdiv (of_Z a) y)) <= val (fround (fdiv (of_Z b) y)).
Proof.
  intros [Ha Hab] Hy Nb.
  assert (Qa : 0 <= inject_Z a) by (rewrite <- (Zle_Qle 0); exact Ha).
  assert (Qab : inject_Z a <= inject_Z b) by (rewrite <- Zle_Qle; exact Hab).
  pose proof (round_mono _ _ false false Qab) as Mab. fold (of_Z a) (of_Z b) in Mab.
  pose proof (round_nonneg _ false Qa) as Na. fold (of_Z a) in Na.
  (* the numerator of [b] is a number, hence so is that of [a] *)
  assert (Fb : fin (of_Z b)).
  { destruct (round_cases (inject_Z b) false) as [F | [s E]]; [exact F | exfalso].
    fold (of_Z b) in E. rewrite E in Nb.
    destruct y as [sy | sy | | sy my ey]; simpl in Nb; discriminate. }
  assert (Fa : fin (of_Z a)) by (apply (round_fin_below _ _ _ Qa Fb Mab)).
  rewrite (fin_xval _ Fa) in Mab, Na. rewrite (fin_xval _ Fb) in Mab.
  pose proof (fin_num _ Fa) as NumA. pose proof (fin_num _ Fb) as NumB.
  destruct y as [sy | sy | | sy my ey].
  - (* division by zero is not a number *)
    exfalso. destruct (of_Z b); simpl in *; try discriminate; contradiction.
  - (* division by an infinity is zero *)
    destruct (of_Z a), (of_Z b); simpl in *; try discriminate; try contradiction;
      repeat split; try exact I; apply Qle_refl.
  - exfalso. destruct (of_Z b); simpl in Nb; discriminate.
  - destruct sy; [exfalso; apply (Hy my ey); reflexivity|].
    set (y := S754_finite false my ey) in *.
    assert (Py : 0 < val y).
    { simpl. apply Qmult_lt_0_compat; [reflexivity|].
      apply Qmult_lt_0_compat; [rewrite <- (Zlt_Qlt 0); lia | apply pow2_pos]. }
    assert (NZ : ~ val y == 0) by (intro C; lra).
    destruct (fdiv_round (of_Z a) y NumA eq_refl NZ) as [sa Ea].
    destruct (fdiv_round (of_Z b) y NumB eq_refl NZ) as [sb Eb].
    rewrite Ea, Eb in *.
    assert (Qq : 0 <= val (of_Z a) / val y) by (apply Qle_shift_div_l; lra).
    assert (Mq : val (of_Z a) / val y <= val (of_Z b) / val y).
    { apply Qle_shift_div_l; [exact Py|].
      setoid_replace (val (of_Z a) / val y * val y) with (val (of_Z a)) by (field; exact NZ).
      exact Mab. }
    pose proof (round_mono _ _ sa sb Mq) as M.
    pose proof (round_nonneg _ sa Qq) as Nq.
    assert (FY : fin (round (val (of_Z b) / val y) sb)).
    { destruct (round_cases (val (of_Z b) / val y) sb) as [F | [s E]]; [exact F | exfalso].
      rewrite E in Nb. simpl in Nb. discriminate. }
    assert (FX : fin (round (val (of_Z a) / val y) sa))
      by (apply (round_fin_below _ _ _ Qq FY M)).
    rewrite (fin_xval _ FX) in M, Nq. rewrite (fin_xval _ FY) in M.
    apply fround_mono_fin; auto.
Qed.

End FormatFacts.

Lemma truncQ_mono (u v : Q) : 0 <= u <= v -> (0 <= truncQ u <= truncQ v)%Z.
Proof.
  intros [Hu Huv]. unfold truncQ.
  assert (Bu : Qle_bool 0 u = true) by (apply Qle_bool_iff; exact Hu).
  assert (Bv : Qle_bool 0 v = true) by (apply Qle_bool_iff; lra).
  rewrite Bu, Bv. split; [apply Qfloor_nonneg; exact Hu | apply Qfloor_resp_le; exact Huv].
Qed.

Lemma to_int_mono (lo hi : Z) (x y : spec_float) (py : Z) :
  (lo <= 0)%Z -> is_num x = true -> 0 <= val x <= val y ->
  to_int lo hi y = Some py ->
  exists px, to_int lo hi x = Some px /\ (0 <= px <= py)%Z.
Proof.
  intros Hlo Nx Hxy Hy. unfold to_int in *. rewrite Nx.
  destruct (is_num y); [|discriminate].
  destruct (truncQ_mono _ _ Hxy) as [T0 T1].
  destruct ((lo <=? truncQ (val y))%Z && (truncQ (val y) <=? hi)%Z) eqn:By; [|discriminate].
  injection Hy as <-. apply andb_prop in By. destruct By as [B1 B2].
  apply Z.leb_le in B1, B2.
  exists (truncQ (val x)). split; [|lia].
  destruct (Z.leb_spec lo (truncQ (val x))); [|lia].
  destruct (Z.leb_spec (truncQ (val x)) hi); [reflexivity | lia].
Qed.

Lemma to_int_is_num (lo hi : Z) (x : spec_float) (p : Z) :
  to_int lo hi x = Some p -> is_num x = true.
Proof. unfold to_int. destruct (is_num x); [reflexivity | discriminate]. Qed.

End IEEE.

(** *** The two formats of the program *)

(** C++ [double]: IEEE 754 binary64. *)
Module F64.
Definition prec : Z := 53.
Definition emax : Z := 1024.
Lemma prec64_gt_1 : 1 < prec. Proof. reflexivity. Qed.
Lemma prec64_lt_emax : prec < emax. Proof. reflexivity. Qed.
Definition zero : spec_float := S754_zero false.
Definition of_Z := IEEE.of_Z prec emax.
Definition of_float := IEEE.of_float prec emax.
Definition add := IEEE.fadd prec emax.
Definition sub := IEEE.fsub prec emax.
Definition mul := IEEE.fmul prec emax.
Definition div := IEEE.fdiv prec emax.
Definition round := IEEE.fround prec emax.
Definition lt := IEEE.flt emax.
Definition le := IEEE.fle emax.
Definition gt := IEEE.fgt emax.
Definition fin := IEEE.fin prec emax.
Definition rep := IEEE.rep prec emax.
End F64.

(** C++ [float]: IEEE 754 binary32. *)
Module F32.
Definition prec : Z := 24.
Definition emax : Z := 128.
Lemma prec32_gt_1 : 1 < prec. Proof. reflexivity. Qed.
Lemma prec32_lt_emax : prec < emax. Proof. reflexivity. Qed.
Definition zero : spec_float := S754_zero false.
Definition of_Z := IEEE.of_Z prec emax.
Definition of_float := IEEE.of_float prec emax.
Definition opp := IEEE.fopp.
Definition add := IEEE.fadd prec emax.
Definition sub := IEEE.fsub prec emax.
Definition mul := IEEE.fmul prec emax.
Definition div := IEEE.fdiv prec emax.
Definition round := IEEE.fround prec emax.
Definition lt := IEEE.flt emax.
Definition le := IEEE.fle emax.
Definition gt := IEEE.fgt emax.
Definition fin := IEEE.fin prec emax.
Definition rep := IEEE.rep prec emax.
End F32.

(** [static_cast<int>] and [static_cast<int64_t>] of a floating-point value. *)
Definition to_int32 : spec_float -> option Z := IEEE.to_int INT_MIN INT_MAX.
Definition to_int64 : spec_float -> option Z := IEEE.to_int INT64_MIN INT64_MAX.

(** ** VirtualFileSystemImpl_MCRAW.cpp: helpers of the anonymous namespace *)

(** [Timestamp] is [int64_t] nanoseconds. *)
Definition Timestamp : Type := Z.

(** The body of the loop [for (i = 1; i < frames.size(); ++i)] of
    [calculateFrameRate]; [prev] is [frames[i-1]]. *)
Fixpoint frameRateLoop (prev : Timestamp) (rest : list Timestamp)
    (avgDuration : spec_float) (validFrames : Z) : spec_float * Z :=
  match rest with
  | [] => (avgDuration, validFrames)
  | cur :: rest' =>
      let duration := F64.of_Z (wrap64 (cur - prev)) in
      if F64.gt duration (F64.of_Z 0) then
        frameRateLoop cur rest'
          (F64.add avgDuration
             (F64.div (F64.sub duration avgDuration)
                      (F64.of_Z (wrap32 (validFrames + 1)))))
          (wrap32 (validFrames + 1))
      else frameRateLoop cur rest' avgDuration validFrames
  end.

Definition calculateFrameRate (frames : list Timestamp) : spec_float :=
  match frames with
  | [] | [_] => F32.zero
  | first :: rest =>
      let '(avgDuration, validFrames) := frameRateLoop first rest F64.zero 0 in
      if validFrames =? 0 then F32.zero
      else F32.of_float (F64.div (F64.of_Z 1000000000) avgDuration)
  end.

Definition getFrameNumberFromTimestamp
    (timestamp referenceTimestamp : Timestamp) (frameRate : spec_float) : option Z :=
  if F32.le frameRate (F32.of_Z 0) then Some (-1)
  else
    let timeDifference := wrap64 (timestamp - referenceTimestamp) in
    if timeDifference <? 0 then Some (-1)
    else
      let nanosecondsPerFrame :=
        F64.div (F64.of_Z 1000000000) (F64.of_float frameRate) in
      to_int64 (F64.round (F64.div (F64.of_Z timeDifference) nanosecondsPerFrame)).

(** [operator<<] of an [int]: decimal digits, with a leading '-' when negative. *)
Definition string_of_Z (n : Z) : string := NilZero.string_of_int (Z.to_int n).

Fixpoint fill (n : nat) (c : ascii) : string :=
  match n with
  | O => EmptyString
  | S n' => String c (fill n' c)
  end.

(** [setfill(c) << setw(width)]: right-adjusted, filled on the left. *)
Definition setw (width : nat) (c : ascii) (s : string) : string :=
  (fill (width - String.length s) c ++ s)%string.

Definition constructFrameFilename
    (baseName : string) (frameNumber : Z) (padding : nat) (extension : string) : string :=
  (baseName ++ setw padding "0" (string_of_Z frameNumber) ++
   match extension with
   | EmptyString => EmptyString
   | String c _ => (if Ascii.eqb c "." then EmptyString else ".") ++ extension
   end)%string.

(** Modelled from the spec: the [Entry] record and [EntryType] of the
    virtual file system header, which is not among the sources:
    [{ kind: FILE|DIR, name, size, user_data: FrameRef|None }]. *)
Inductive EntryType : Type := FILE_ENTRY | DIRECTORY_ENTRY.

Record Entry : Type := mkEntry {
  entry_type : EntryType;
  entry_size : Z;
  entry_name : string;
  entry_userData : option Timestamp
}.

(** The entry built in the body of [while(lastPts < pts)] in [init]. *)
Definition frameEntry (mTypicalDngSize : Z) (lastPts : Z) (x : Timestamp) : Entry :=
  {| entry_type := FILE_ENTRY;
     entry_size := mTypicalDngSize;
     entry_name := constructFrameFilename "frame-" lastPts 6 "dng";
     entry_userData := Some x |}.

(** [while(lastPts < pts) { emplace_back(entry); ++lastPts; }] runs
    [pts - lastPts] times when that is positive; [n] is that count. *)
Fixpoint duplicateFrames (n : nat) (mTypicalDngSize lastPts : Z) (x : Timestamp)
  : list Entry :=
  match n with
  | O => []
  | S n' => frameEntry mTypicalDngSize lastPts x
            :: duplicateFrames n' mTypicalDngSize (lastPts + 1) x
  end.

(** [for(auto& x : frames)] of [init]: the entries appended to [mFiles];
    [t0] is [frames[0]].  No result when a frame number is undefined. *)
Fixpoint addVideoFrames (frames : list Timestamp) (t0 : Timestamp) (mFps : spec_float)
    (mTypicalDngSize lastPts : Z) : option (list Entry) :=
  match frames with
  | [] => Some []
  | x :: rest =>
      match getFrameNumberFromTimestamp x t0 mFps with
      | None => None
      | Some n =>
          let pts := wrap32 n in
          match addVideoFrames rest t0 mFps mTypicalDngSize (Z.max lastPts pts) with
          | None => None
          | Some es =>
              Some (duplicateFrames (Z.to_nat (pts - lastPts)) mTypicalDngSize lastPts x
                    ++ es)
          end
      end
  end.

(** *** syncAudio *)

(** [AudioChunk] is [std::pair<Timestamp, std::vector<int16_t>>]. *)
Definition AudioChunk : Type := (Timestamp * list Z)%type.

(** The literal [1e-6f]: the decimal rounded to the nearest [float]. *)
Definition lit_1em6f : spec_float := IEEE.round F32.prec F32.emax (1 # 1000000) false.

(** [(audioChunks[0].first - videoTimestamp) * 1e-6f]: the [int64_t]
    difference is converted to [float] and multiplied in [float]. *)
Definition audioVideoDriftMs (videoTimestamp first : Timestamp) : spec_float :=
  F32.mul (F32.of_Z (wrap64 (first - videoTimestamp))) lit_1em6f.

(** [static_cast<int>(std::round(durationMs * sampleRate / 1000))]. *)
Definition framesOfDuration (durationMs : spec_float) (sampleRate : Z) : option Z :=
  to_int32
    (F32.round (F32.div (F32.mul durationMs (F32.of_Z sampleRate)) (F32.of_Z 1000))).

(** The [while] loop of the trim branch; the iterator is the list that
    remains, the chunks before it have been erased. *)
Fixpoint trimLoop (chunks : list AudioChunk) (sampleRate samplesToRemove samplesRemoved : Z)
  : option (list AudioChunk) :=
  match chunks with
  | [] => Some []
  | (first, samples) :: rest =>
      if samplesRemoved <? samplesToRemove then
        let remainingSamplesToRemove := wrap32 (samplesToRemove - samplesRemoved) in
        if Z.of_nat (List.length samples) <=? wrapU64 remainingSamplesToRemove then
          (* Remove entire chunk *)
          trimLoop rest sampleRate samplesToRemove
                   (wrap32 (samplesRemoved + Z.of_nat (List.length samples)))
        else if sampleRate =? 0 then None
        else
          (* Trim partial chunk from the beginning and update its timestamp *)
          Some ((wrap64 (first + Z.quot (wrap32 (remainingSamplesToRemove * 1000)) sampleRate),
                 skipn (Z.to_nat remainingSamplesToRemove) samples) :: rest)
      else Some chunks
  end.

(** [it->first += silenceDuration]: the [int64_t] is converted to [float],
    the sum is taken in [float] and converted back. *)
Definition shiftTimestamp (first : Timestamp) (silenceDuration : spec_float)
  : option Timestamp :=
  to_int64 (F32.add (F32.of_Z first) silenceDuration).

Fixpoint shiftTimestamps (chunks : list AudioChunk) (silenceDuration : spec_float)
  : option (list AudioChunk) :=
  match chunks with
  | [] => Some []
  | (first, samples) :: rest =>
      match shiftTimestamp first silenceDuration with
      | None => None
      | Some first' =>
          match shiftTimestamps rest silenceDuration with
          | None => None
          | Some rest' => Some ((first', samples) :: rest')
          end
      end
  end.

(** [syncAudio]; the vector is passed by reference, the result is its
    final content.  No result for an empty vector ([audioChunks[0]]), a
    frame count that does not fit [int], or a negative vector size. *)
Definition syncAudio (videoTimestamp : Timestamp) (audioChunks : list AudioChunk)
    (sampleRate numChannels : Z) : option (list AudioChunk) :=
  match audioChunks with
  | [] => None
  | (first, _) :: _ =>
      let drift := audioVideoDriftMs videoTimestamp first in
      if F32.gt drift (F32.of_Z 0) then
        match framesOfDuration drift sampleRate with
        | None => None
        | Some audioFramesToRemove =>
            let samplesToRemove := wrap32 (audioFramesToRemove * numChannels) in
            trimLoop audioChunks sampleRate samplesToRemove 0
        end
      else
        let silenceDuration := F32.opp drift in
        match framesOfDuration silenceDuration sampleRate with
        | None => None
        | Some silenceFrames =>
            let silenceSamples := wrap32 (silenceFrames * numChannels) in
            if silenceSamples <? 0 then None
            else
              match shiftTimestamps audioChunks silenceDuration with
              | None => None
              | Some shifted =>
                  Some ((videoTimestamp, repeat 0 (Z.to_nat silenceSamples)) :: shifted)
              end
        end
  end.

(** ** Exceptions *)

(** What a C++ call can do besides returning: throw a [std::runtime_error]
    (or a class derived from it), throw any other exception, or have no
    defined behaviour. *)
Inductive exn : Type :=
| runtime_error (what : string)
| other_exception (what : string).

Inductive outcome (A : Type) : Type :=
| Ok (a : A)
| Throws (e : exn)
| Undefined.

Arguments Ok {A} a.
Arguments Throws {A} e.
Arguments Undefined {A}.

Definition bind {A B} (x : outcome A) (f : A -> outcome B) : outcome B :=
  match x with
  | Ok a => f a
  | Throws e => Throws e
  | Undefined => Undefined
  end.

Notation "x <- e ;; k" := (bind e (fun x => k))
  (at level 61, e at next level, right associativity).
Notation "' p <- e ;; k" := (bind e (fun p => k))
  (at level 61, p pattern, e at next level, right associativity).

Definition of_option {A} (x : option A) : outcome A :=
  match x with Some a => Ok a | None => Undefined end.

(** ** VirtualFileSystemImpl_MCRAW: the object *)

(** [FileRenderOptions]: bit flags, declared in a header that is not among
    the sources. *)
Definition FileRenderOptions : Type := Z.

Section VFS.

(** The flag [RENDER_OPT_DRAFT] of the missing header. *)
Variable RENDER_OPT_DRAFT : Z.

Definition getScaleFromOptions (options : FileRenderOptions) (draftScale : Z) : Z :=
  if Z.eqb (Z.land options RENDER_OPT_DRAFT) 0 then 1 else draftScale.

(** The external collaborators: raw frame bytes and metadata are opaque. *)
Variables RawData Json CameraConfiguration CameraFrameMetadata : Type.

(** [motioncam::Decoder] opened on a capture file. *)
Record Decoder : Type := mkDecoder {
  getFrames : list Timestamp;
  loadFrame : Timestamp -> outcome (RawData * Json);
  getContainerMetadata : Json;
  loadAudio : outcome (list AudioChunk);
  audioSampleRateHz : Z;
  numAudioChannels : Z
}.

(** [Decoder(mSrcPath)]: opening the capture may throw. *)
Variable openDecoder : outcome Decoder.
Variable parseCameraConfiguration : Json -> outcome CameraConfiguration.
Variable parseCameraFrameMetadata : Json -> outcome CameraFrameMetadata.

(** [utils::generateDng]: the image encoder; it may throw and may return a
    null pointer ([None]). *)
Variable generateDng :
  RawData -> CameraFrameMetadata -> CameraConfiguration ->
  spec_float -> Z -> FileRenderOptions -> Z -> outcome (option (list Byte.byte)).

(** [AudioWriter] over [mAudioFile] followed by the writes of all chunks:
    the bytes of [mAudioFile] afterwards. *)
Variable writeAudio :
  list Byte.byte -> Z -> Z -> spec_float -> list AudioChunk -> outcome (list Byte.byte).

(** Bytes of the [desktop.ini] entry when built for Windows, else [None]. *)
Variable desktopIni : option (list Byte.byte).

Record VirtualFileSystemImpl_MCRAW : Type := mkVFS {
  mFiles : list Entry;
  mAudioFile : list Byte.byte;
  mTypicalDngSize : Z;
  mFps : spec_float;
  mDraftScale : Z
}.

(** [std::sort(frames.begin(), frames.end())]. *)
Fixpoint insertSorted (x : Timestamp) (l : list Timestamp) : list Timestamp :=
  match l with
  | [] => [x]
  | y :: l' => if x <=? y then x :: l else y :: insertSorted x l'
  end.

Definition sortFrames (frames : list Timestamp) : list Timestamp :=
  fold_right insertSorted [] frames.

Definition fileEntry (name : string) (size : Z) : Entry :=
  {| entry_type := FILE_ENTRY; entry_size := size; entry_name := name;
     entry_userData := None |}.

Definition init (options : FileRenderOptions) (this : VirtualFileSystemImpl_MCRAW)
  : outcome VirtualFileSystemImpl_MCRAW :=
  decoder <- openDecoder ;;
  let frames := sortFrames (getFrames decoder) in
  match frames with
  | [] => Ok this
  | first :: _ =>
      (* Clear everything *)
      let fps := calculateFrameRate frames in
      '(data, metadata) <- loadFrame decoder first ;;
      cameraConfig <- parseCameraConfiguration (getContainerMetadata decoder) ;;
      cameraFrameMetadata <- parseCameraFrameMetadata metadata ;;
      dngData <- generateDng data cameraFrameMetadata cameraConfig fps 0 options
                   (getScaleFromOptions options (mDraftScale this)) ;;
      match dngData with
      | None => Undefined
      | Some dng =>
          let typical := Z.of_nat (List.length dng) in
          let hidden :=
            match desktopIni with
            | Some ini => [fileEntry "desktop.ini" (Z.of_nat (List.length ini))]
            | None => []
            end in
          audioChunks <- loadAudio decoder ;;
          audioFile <-
            match audioChunks with
            | [] => Ok (mAudioFile this)
            | _ :: _ =>
                synced <- of_option (syncAudio first audioChunks
                                       (audioSampleRateHz decoder)
                                       (numAudioChannels decoder)) ;;
                writeAudio (mAudioFile this) (numAudioChannels decoder)
                           (audioSampleRateHz decoder) fps synced
            end ;;
          let audio :=
            match audioFile with
            | [] => []
            | _ :: _ => [fileEntry "audio.wav" (Z.of_nat (List.length audioFile))]
            end in
          images <- of_option (addVideoFrames frames first fps typical 0) ;;
          Ok {| mFiles := hidden ++ audio ++ images;
                mAudioFile := audioFile;
                mTypicalDngSize := typical;
                mFps := fps;
                mDraftScale := mDraftScale this |}
      end
  end.

(** The constructor: members initialised, then [init(options)]. *)
Definition construct (options : FileRenderOptions) (draftScale : Z)
  : outcome VirtualFileSystemImpl_MCRAW :=
  init options {| mFiles := []; mAudioFile := []; mTypicalDngSize := 0;
                  mFps := F32.zero; mDraftScale := draftScale |}.

Definition updateOptions (options : FileRenderOptions) (draftScale : Z)
    (this : VirtualFileSystemImpl_MCRAW) : outcome VirtualFileSystemImpl_MCRAW :=
  init options {| mFiles := mFiles this; mAudioFile := mAudioFile this;
                  mTypicalDngSize := mTypicalDngSize this;
                  mFps := mFps this; mDraftScale := draftScale |}.

(** *** generateFrame *)

(** [FrameData]: frame index, container metadata, frame metadata, raw bytes. *)
Definition FrameData : Type :=
  (Z * CameraConfiguration * CameraFrameMetadata * RawData)%type.

(** Position of the first element equal to [x]: [std::find] and
    [std::distance]. *)
Fixpoint findIndex (x : Timestamp) (l : list Timestamp) (i : Z) : option Z :=
  match l with
  | [] => None
  | y :: l' => if y =? x then Some i else findIndex x l' (i + 1)
  end.

(** Stage 1, on the I/O pool.  [decoders] is the worker's cached decoder
    for [mSrcPath], if any. *)
Definition decodeTask (decoders : option Decoder) (entry : Entry) : outcome FrameData :=
  timestamp <- match entry_userData entry with
               | Some t => Ok t
               | None => Throws (other_exception "bad_variant_access")
               end ;;
  decoder <- match decoders with
             | Some d => Ok d
             | None => openDecoder
             end ;;
  let allFrames := getFrames decoder in
  match findIndex timestamp allFrames 0 with
  | None => Throws (runtime_error "Failed to find frame")
  | Some frameIndex =>
      '(data, metadata) <- loadFrame decoder timestamp ;;
      config <- parseCameraConfiguration (getContainerMetadata decoder) ;;
      frameMetadata <- parseCameraFrameMetadata metadata ;;
      Ok (frameIndex, config, frameMetadata, data)
  end.

(** What the processing task hands to [result]: (readBytes, errorCode) and
    the bytes copied to [dst]. *)
Definition Completion : Type := (Z * Z * list Byte.byte)%type.

(** Stage 2, on the processing pool: the body of [generateTask].  [Ok c]
    means that [result] was invoked with [c]; an exception that is not a
    [std::runtime_error] leaves the task without invoking [result]. *)
Definition generateTask (decodedFrame : outcome FrameData) (fps : spec_float)
    (draftScale : Z) (options : FileRenderOptions) (pos len : Z) : outcome Completion :=
  let tried : outcome Completion :=
    '(frameIndex, containerMetadata, frameMetadata, frameData) <- decodedFrame ;;
    dngData <- generateDng frameData frameMetadata containerMetadata fps frameIndex
                 options (getScaleFromOptions options draftScale) ;;
    match dngData with
    | Some dng =>
        let size := Z.of_nat (List.length dng) in
        if pos <? size then
          let actualLen := Z.min len (size - pos) in
          Ok (actualLen, 0, firstn (Z.to_nat actualLen) (skipn (Z.to_nat pos) dng))
        else Ok (0, - 1, [])
    | None => Ok (0, - 1, [])
    end in
  match tried with
  | Throws (runtime_error _) => Ok (0, - 1, [])
  | other => other
  end.

(** [generateFrame]: the value returned to the caller and what the two
    tasks do afterwards. *)
Definition generateFrame (this : VirtualFileSystemImpl_MCRAW) (decoders : option Decoder)
    (entry : Entry) (options : FileRenderOptions) (pos len : Z)
  : Z * outcome Completion :=
  (0, generateTask (decodeTask decoders entry) (mFps this) (mDraftScale this)
        options pos len).

End VFS.

(** ** bw64: utils.hpp and parser.hpp *)

Module Bw64.

Definition byteZ (b : Byte.byte) : Z := Z.of_N (Byte.to_N b).

(** A [StreamWrapper] open for reading: the bytes not yet consumed. *)
Definition Stream : Type := list Byte.byte.

(** The integer that [sizeof(T)] bytes hold, little endian. *)
Fixpoint le_value (bs : list Byte.byte) : Z :=
  match bs with
  | [] => 0
  | b :: bs' => byteZ b + 256 * le_value bs'
  end.

(** [utils::fourCC]: [(p[3] << 24) | (p[2] << 16) | (p[1] << 8) | p[0]]. *)
Definition fourCC (p0 p1 p2 p3 : Byte.byte) : Z :=
  Z.lor (Z.lor (Z.lor (Z.shiftl (byteZ p3) 24) (Z.shiftl (byteZ p2) 16))
               (Z.shiftl (byteZ p1) 8))
        (byteZ p0).

(** "fmt " *)
Definition fourCC_fmt : Z := fourCC Byte.x66 Byte.x6d Byte.x74 Byte.x20.

(** [stream.read(dest, n)] followed by the end-of-file check of
    [utils::readValue]. *)
Definition readRaw (n : nat) (stream : Stream) : outcome (list Byte.byte * Stream) :=
  if (List.length stream <? n)%nat
  then Throws (runtime_error "file ended while reading value")
  else Ok (firstn n stream, skipn n stream).

(** [utils::readValue] of an unsigned integer of [n] bytes. *)
Definition readValue (n : nat) (stream : Stream) : outcome (Z * Stream) :=
  '(bs, rest) <- readRaw n stream ;; Ok (le_value bs, rest).

Record ExtraData : Type := mkExtraData {
  validBitsPerSample : Z;
  dwChannelMask : Z;
  subFormat : Z;
  subFormatString : list Byte.byte
}.

Definition parseExtraData (stream : Stream) : outcome (ExtraData * Stream) :=
  '(validBits, s1) <- readValue 2 stream ;;
  '(channelMask, s2) <- readValue 4 s1 ;;
  '(sub, s3) <- readValue 2 s2 ;;
  '(subString, s4) <- readRaw 14 s3 ;;
  Ok (mkExtraData validBits channelMask sub subString, s4).

(** The values that [parseFormatInfoChunk] reads from the stream. *)
Record FormatFields : Type := mkFormatFields {
  f_formatTag : Z;
  f_channelCount : Z;
  f_sampleRate : Z;
  f_bytesPerSecond : Z;
  f_blockAlignment : Z;
  f_bitsPerSample : Z;
  f_cbSize : Z;
  f_extraData : option ExtraData
}.

(** The reads of [parseFormatInfoChunk], in order. *)
Definition readFormatFields (stream : Stream) (size : Z) : outcome (FormatFields * Stream) :=
  '(formatTag, s1) <- readValue 2 stream ;;
  '(channelCount, s2) <- readValue 2 s1 ;;
  '(sampleRate, s3) <- readValue 4 s2 ;;
  '(bytesPerSecond, s4) <- readValue 4 s3 ;;
  '(blockAlignment, s5) <- readValue 2 s4 ;;
  '(bitsPerSample, s6) <- readValue 2 s5 ;;
  '(cbSize, s7) <- (if 16 <? size then readValue 2 s6 else Ok (0, s6)) ;;
  '(extraData, s8) <- (if (18 <? size) && (0 <? cbSize)
                       then '(e, s) <- parseExtraData s7 ;; Ok (Some e, s)
                       else Ok (None, s7)) ;;
  Ok (mkFormatFields formatTag channelCount sampleRate bytesPerSecond blockAlignment
                     bitsPerSample cbSize extraData, s8).

(** Modelled from the spec: [FormatInfoChunk] of the missing [chunks.hpp]:
    "block_alignment = channels * bits / 8, bytes_per_second = sample_rate *
    block_alignment". *)
Record FormatInfoChunk : Type := mkFormatInfoChunk {
  channelCount : Z;
  sampleRate : Z;
  bitsPerSample : Z;
  extraData : option ExtraData
}.

Definition blockAlignment (c : FormatInfoChunk) : Z :=
  channelCount c * bitsPerSample c / 8.

Definition bytesPerSecond (c : FormatInfoChunk) : Z :=
  sampleRate c * blockAlignment c.

Section Parser.

(** The constructor of [FormatInfoChunk] (missing [chunks.hpp]) may reject
    its arguments with an exception. *)
Variable constructorRejects : Z -> Z -> Z -> option ExtraData -> option exn.

(** The checks of [parseFormatInfoChunk] after the reads. *)
Definition checkFormatFields (f : FormatFields) : outcome FormatInfoChunk :=
  if negb (f_cbSize f =? 0) && negb (f_cbSize f =? 22)
  then Throws (runtime_error "unsupported cbSize")
  else if negb (f_formatTag f =? 1) && negb (f_formatTag f =? 65534)
  then Throws (runtime_error "format unsupported")
  else
    let extensible :=
      if f_formatTag f =? 65534 then
        match f_extraData f with
        | None => Throws (runtime_error "missing extra data for WAVE_FORMAT_EXTENSIBLE")
        | Some e => if subFormat e =? 1 then Ok tt
                    else Throws (runtime_error "subformat unsupported")
        end
      else Ok tt in
    _ <- extensible ;;
    match constructorRejects (f_channelCount f) (f_sampleRate f) (f_bitsPerSample f)
            (f_extraData f) with
    | Some e => Throws e
    | None =>
        let chunk := mkFormatInfoChunk (f_channelCount f) (f_sampleRate f)
                       (f_bitsPerSample f) (f_extraData f) in
        if negb (blockAlignment chunk =? f_blockAlignment f)
        then Throws (runtime_error "sanity check failed. 'blockAlignment'")
        else if negb (bytesPerSecond chunk =? f_bytesPerSecond f)
        then Throws (runtime_error "sanity check failed. 'bytesPerSecond'")
        else Ok chunk
    end.

Definition parseFormatInfoChunk (stream : Stream) (id size : Z)
  : outcome (FormatInfoChunk * Stream) :=
  if negb (id =? fourCC_fmt) then Throws (runtime_error "chunkId != 'fmt '")
  else if negb (size =? 16) && negb (size =? 18) && negb (size =? 40)
  then Throws (runtime_error "illegal 'fmt ' chunk size")
  else
    '(fields, rest) <- readFormatFields stream size ;;
    chunk <- checkFormatFields fields ;;
    Ok (chunk, rest).

End Parser.

(** *** reader.hpp: Bw64Reader::read *)

(** The members of [Bw64Reader] that [read] uses: the file and the read
    position of [fileStream_], the header of the 'data' chunk, and the
    format. *)
Record Bw64Reader : Type := mkReader {
  fileBytes : list Byte.byte;
  tellg : Z;
  dataPosition : Z;
  dataSize : Z;
  channels : Z;
  bitDepth : Z
}.

(** [utils::safeCast<uint16_t>(static_cast<uint32_t>(channels()) * bitDepth() / 8)]. *)
Definition readerBlockAlignment (r : Bw64Reader) : outcome Z :=
  let x := wrapU32 (channels r * bitDepth r) / 8 in
  if 65535 <? x then Throws (runtime_error "overflow") else Ok x.

(** An unsigned 64-bit division; no defined result for a zero divisor. *)
Definition divU64 (a b : Z) : outcome Z :=
  if b =? 0 then Undefined else Ok (a / b).

Definition numberOfFrames (r : Bw64Reader) : outcome Z :=
  ba <- readerBlockAlignment r ;; divU64 (dataSize r) ba.

(** [tell()]; the block alignment of the format chunk is the same
    [channels * bits / 8]. *)
Definition tell (r : Bw64Reader) : outcome Z :=
  ba <- readerBlockAlignment r ;;
  divU64 (wrapU64 (wrapU64 (tellg r - dataPosition r) - 8)) ba.

Definition wrapS16 : Z -> Z := wrapS 16.

(** One decoded sample of [utils::decodePcmSamples], from its bytes. *)
Definition decodeSample (bitsPerSample : Z) (bs : list Byte.byte) : spec_float :=
  if bitsPerSample =? 16 then
    F32.of_Z (wrapS16 (le_value bs))
  else if bitsPerSample =? 24 then
    F32.div (F32.of_Z (wrap32 (256 * le_value bs))) (F32.of_Z 2147483647)
  else
    F32.div (F32.of_Z (wrap32 (le_value bs))) (F32.of_Z 2147483647).

Fixpoint decodeLoop (n : nat) (bytesPerSample : nat) (bitsPerSample : Z)
    (inBuffer : list Byte.byte) : list spec_float :=
  match n with
  | O => []
  | S n' => decodeSample bitsPerSample (firstn bytesPerSample inBuffer)
            :: decodeLoop n' bytesPerSample bitsPerSample (skipn bytesPerSample inBuffer)
  end.

Definition decodePcmSamples (inBuffer : list Byte.byte) (numberOfSamples bitsPerSample : Z)
  : outcome (list spec_float) :=
  if (bitsPerSample =? 16) || (bitsPerSample =? 24) || (bitsPerSample =? 32) then
    Ok (decodeLoop (Z.to_nat numberOfSamples) (Z.to_nat (bitsPerSample / 8))
                   bitsPerSample inBuffer)
  else Throws (runtime_error "unsupported number of bits").

Section Reader.

(** [rawDataBuffer_.max_size()]: a [resize] beyond it throws
    [std::length_error]. *)
Variable max_size : Z.

(** [read(outBuffer, frames)]: the value returned, the reader afterwards
    and the content of the output buffer afterwards. *)
Definition read (r : Bw64Reader) (outBuffer : list spec_float) (frames : Z)
  : outcome (Z * Bw64Reader * list spec_float) :=
  t <- tell r ;;
  total <- numberOfFrames r ;;
  let frames := if total <? wrapU64 (t + frames) then wrapU64 (total - t) else frames in
  if frames =? 0 then Ok (0, r, outBuffer)
  else
    ba <- readerBlockAlignment r ;;
    let count := wrapU64 (frames * ba) in
    if max_size <? count then Throws (other_exception "length_error")
    else if Z.of_nat (List.length (fileBytes r)) <? tellg r + count
    then Throws (runtime_error "file ended while reading frames")
    else
      let raw := firstn (Z.to_nat count) (skipn (Z.to_nat (tellg r)) (fileBytes r)) in
      decoded <- decodePcmSamples raw (wrapU64 (frames * channels r)) (bitDepth r) ;;
      Ok (frames,
          mkReader (fileBytes r) (tellg r + count) (dataPosition r) (dataSize r)
                   (channels r) (bitDepth r),
          decoded ++ skipn (List.length decoded) outBuffer).

End Reader.

End Bw64.

(** ** Frame rate: the loop against the running mean of the specification *)

Module FrameRate.

(** Successive durations d_i = t_i - t_(i-1), computed in [int64_t]. *)
Fixpoint durationsFrom (prev : Timestamp) (rest : list Timestamp) : list Z :=
  match rest with
  | [] => []
  | cur :: rest' => wrap64 (cur - prev) :: durationsFrom cur rest'
  end.

Definition durations (frames : list Timestamp) : list Z :=
  match frames with
  | [] => []
  | first :: rest => durationsFrom first rest
  end.

Definition positive_durations (frames : list Timestamp) : list Z :=
  filter (fun d => 0 <? d) (durations frames).

(** One update of the mean: mu + (d - mu) / k, in [double]. *)
Definition mean_step (mu : spec_float) (d k : Z) : spec_float :=
  F64.add mu (F64.div (F64.sub (F64.of_Z d) mu) (F64.of_Z k)).

(** The running mean mu_k = mu_(k-1) + (d_k - mu_(k-1)) / k of the
    specification, started at [mu] with the next index [k]. *)
Fixpoint running_mean (mu : spec_float) (k : Z) (ds : list Z) : spec_float :=
  match ds with
  | [] => mu
  | d :: ds' => running_mean (mean_step mu d k) (k + 1) ds'
  end.

Lemma duration_positive (d : Z) : F64.gt (F64.of_Z d) (F64.of_Z 0) = (0 <? d).
Proof.
  pose proof (IEEE.of_Z_gt_0 F64.prec F64.emax F64.prec64_gt_1 F64.prec64_lt_emax d) as H.
  unfold F64.gt, F64.of_Z. change (IEEE.of_Z F64.prec F64.emax 0) with (S754_zero false).
  destruct (Z.ltb_spec 0 d) as [P | N].
  - apply H. exact P.
  - destruct (IEEE.fgt F64.emax (IEEE.of_Z F64.prec F64.emax d) (S754_zero false)) eqn:E;
      [|reflexivity].
    assert (0 < d) by (apply H; reflexivity). lia.
Qed.

Lemma length_filter_le {A} (f : A -> bool) (l : list A) :
  (List.length (filter f l) <= List.length l)%nat.
Proof. induction l as [|a l IH]; simpl; [|destruct (f a); simpl]; lia. Qed.

(** The loop computes the running mean over the positive durations and
    counts them. *)
Lemma frameRateLoop_spec (rest : list Timestamp) :
  forall prev avg v,
    0 <= v -> v + Z.of_nat (List.length rest) <= INT_MAX ->
    frameRateLoop prev rest avg v =
      (running_mean avg (v + 1) (filter (fun d => 0 <? d) (durationsFrom prev rest)),
       v + Z.of_nat (List.length (filter (fun d => 0 <? d) (durationsFrom prev rest)))).
Proof.
  induction rest as [|cur rest IH]; intros prev avg v Hv Hlen.
  - simpl. f_equal. lia.
  - simpl frameRateLoop. simpl durationsFrom. simpl filter.
    rewrite duration_positive.
    simpl List.length in Hlen.
    destruct (0 <? wrap64 (cur - prev)) eqn:P.
    + rewrite wrap32_id by (unfold in_int, INT_MIN, INT_MAX in *; lia).
      rewrite IH by lia. simpl running_mean. unfold mean_step. simpl List.length.
      f_equal. lia.
    + apply IH; lia.
Qed.

(** *** Sorted frames: durations are the plain differences *)

(** The mathematical differences of successive timestamps. *)
Fixpoint diffsFrom (prev : Timestamp) (rest : list Timestamp) : list Z :=
  match rest with
  | [] => []
  | cur :: rest' => (cur - prev) :: diffsFrom cur rest'
  end.

Definition diffs (frames : list Timestamp) : list Z :=
  match frames with
  | [] => []
  | first :: rest => diffsFrom first rest
  end.

Lemma durationsFrom_diffs (rest : list Timestamp) :
  forall prev, Forall in_int64 (diffsFrom prev rest) ->
               durationsFrom prev rest = diffsFrom prev rest.
Proof.
  induction rest as [|cur rest IH]; intros prev H; simpl; [reflexivity|].
  inversion H; subst. rewrite wrap64_id by assumption. f_equal. apply IH. assumption.
Qed.

Lemma sorted_diffs_nonneg (rest : list Timestamp) :
  forall prev, Sorted Z.le (prev :: rest) -> Forall (fun d => 0 <= d) (diffsFrom prev rest).
Proof.
  induction rest as [|cur rest IH]; intros prev S; simpl; [constructor|].
  inversion S as [|? ? S' Hd]; subst. inversion Hd; subst.
  constructor; [lia | apply IH; exact S'].
Qed.

Lemma no_positive_diff_all_equal (rest : list Timestamp) :
  forall prev, Forall (fun d => 0 <= d) (diffsFrom prev rest) ->
               filter (fun d => 0 <? d) (diffsFrom prev rest) = [] ->
               forall t, In t (prev :: rest) -> t = prev.
Proof.
  induction rest as [|cur rest IH]; intros prev N F t Ht.
  - destruct Ht as [E | []]. symmetry. exact E.
  - simpl in N, F. inversion N as [|? ? Hd N']; subst.
    destruct (Z.ltb_spec 0 (cur - prev)) as [P | Q]; [discriminate|].
    assert (cur = prev) by lia. subst cur.
    destruct Ht as [E | Ht]; [symmetry; exact E|].
    apply (IH prev N' F t Ht).
Qed.

Lemma all_equal_no_positive_diff (rest : list Timestamp) :
  forall prev, (forall t, In t (prev :: rest) -> t = prev) ->
               filter (fun d => 0 <? d) (diffsFrom prev rest) = [].
Proof.
  induction rest as [|cur rest IH]; intros prev H; simpl; [reflexivity|].
  assert (cur = prev) by (apply H; right; left; reflexivity). subst cur.
  rewrite Z.sub_diag. simpl. apply IH. intros t Ht. apply H. right. exact Ht.
Qed.

Lemma filter_Forall_both {A} (f : A -> bool) (P : A -> Prop) (l : list A) :
  Forall P l -> Forall (fun a => P a /\ f a = true) (filter f l).
Proof.
  induction 1 as [|a l Pa Pl IH]; simpl; [constructor|].
  destruct (f a) eqn:E; [constructor; auto | exact IH].
Qed.

(** *** The running mean of positive durations stays positive and bounded *)

Section MeanBounds.

Local Open Scope Q_scope.
Import IEEE.

Let two31 : Q := 2147483648.
Let two63 : Q := 9223372036854775808.
Let two64 : Q := 18446744073709551616.

Lemma rep64_pow2 (q : Q) (e : Z) : q == pow2 e -> (-1074 <= e < 1024)%Z -> F64.rep q.
Proof.
  intros E He. apply (rep_comp F64.prec F64.emax F64.prec64_gt_1 F64.prec64_lt_emax (pow2 e)); [symmetry; exact E|].
  apply (rep_pow2 F64.prec F64.emax F64.prec64_gt_1 F64.prec64_lt_emax). exact He.
Qed.

Lemma rep32_pow2 (q : Q) (e : Z) : q == pow2 e -> (-149 <= e < 128)%Z -> F32.rep q.
Proof.
  intros E He. apply (rep_comp F32.prec F32.emax F32.prec32_gt_1 F32.prec32_lt_emax (pow2 e)); [symmetry; exact E|].
  apply (rep_pow2 F32.prec F32.emax F32.prec32_gt_1 F32.prec32_lt_emax). exact He.
Qed.

Definition meanInv (avg : spec_float) : Prop :=
  F64.fin avg /\ (1 # 2) <= val avg <= two64.

Lemma duration_bounds (d : Z) :
  (1 <= d <= INT64_MAX)%Z ->
  F64.fin (F64.of_Z d) /\ 1 <= val (F64.of_Z d) <= two63.
Proof.
  intros [L U].
  apply (of_Z_between F64.prec F64.emax F64.prec64_gt_1 F64.prec64_lt_emax).
  - apply (rep64_pow2 1 0); [reflexivity | lia].
  - apply (rep64_pow2 two63 63); [reflexivity | lia].
  - split.
    + change (inject_Z 1 <= inject_Z d). rewrite <- Zle_Qle. exact L.
    + change (inject_Z d <= inject_Z 9223372036854775808). rewrite <- Zle_Qle.
      unfold INT64_MAX in U. lia.
Qed.

Lemma count_bounds (k : Z) :
  (1 <= k <= INT_MAX)%Z ->
  F64.fin (F64.of_Z k) /\ inject_Z k <= val (F64.of_Z k) <= two31.
Proof.
  intros [L U].
  apply (of_Z_between F64.prec F64.emax F64.prec64_gt_1 F64.prec64_lt_emax).
  - apply (rep_Z F64.prec F64.emax F64.prec64_gt_1 F64.prec64_lt_emax).
    unfold INT_MAX in U. change (2 ^ F64.prec)%Z with 9007199254740992%Z. lia.
  - apply (rep64_pow2 two31 31); [reflexivity | lia].
  - split; [apply Qle_refl|].
    change (inject_Z k <= inject_Z 2147483648). rewrite <- Zle_Qle.
    unfold INT_MAX in U. lia.
Qed.

Lemma rep64_neg_half (x : spec_float) :
  F64.fin x -> 1 <= val x -> F64.rep (- val x * (1 # 2)).
Proof.
  intros F Hx. pose proof (fin_rep F64.prec F64.emax F64.prec64_gt_1 F64.prec64_lt_emax x F) as R.
  destruct R as (_ & _ & _ & _ & _ & B1 & B2).
  destruct x as [s | s | | s m e]; simpl in *; try contradiction; try lra.
  destruct F as [Hm He].
  assert (P : 0 < inject_Z (Zpos m) * pow2 e).
  { apply Qmult_lt_0_compat; [rewrite <- (Zlt_Qlt 0); lia | apply pow2_pos]. }
  destruct s; simpl in *; [lra|].
  set (v := inject_Z (Zpos m) * pow2 e) in *.
  assert (He' : (- 53 < e)%Z).
  { destruct (Z_lt_le_dec (- 53) e) as [|G]; [assumption | exfalso].
    assert (T : v < pow2 53 * pow2 e).
    { apply Qmult_lt_compat_r; [apply pow2_pos|].
      rewrite (pow2_Z 53) by lia. rewrite <- Zlt_Qlt. exact Hm. }
    rewrite <- pow2_add in T.
    assert (pow2 (53 + e) <= pow2 0) by (apply pow2_le; lia).
    change (pow2 0) with 1 in *. lra. }
  rep_intro (Zneg m) (e - 1)%Z.
  - change (Zneg m) with (- Zpos m)%Z. rewrite inject_Z_opp.
    replace (e - 1)%Z with (e + - 1)%Z by lia. rewrite pow2_add.
    change (pow2 (- 1)) with (1 # 2). unfold v. ring.
  - exact Hm.
  - unfold emin, F64.emax, F64.prec. lia.
  - lra.
  - lra.
Qed.

Lemma mean_step_first (d : Z) :
  (1 <= d <= INT64_MAX)%Z -> meanInv (mean_step F64.zero d 1).
Proof.
  intros Hd. destruct (duration_bounds d Hd) as [FD [LD UD]].
  assert (R1 : F64.rep 1) by (apply (rep64_pow2 1 0); [reflexivity | lia]).
  assert (R63 : F64.rep two63) by (apply (rep64_pow2 two63 63); [reflexivity | lia]).
  assert (FK : F64.fin (F64.of_Z 1)) by (vm_compute; repeat split; discriminate).
  assert (VK : val (F64.of_Z 1) == 1) by (vm_compute; reflexivity).
  unfold mean_step.
  destruct (fsub_between F64.prec F64.emax F64.prec64_gt_1 F64.prec64_lt_emax
              (F64.of_Z d) F64.zero 1 two63 FD I R1 R63) as [FS [LS US]];
    [simpl; lra|].
  fold F64.sub in FS, LS, US.
  set (delta := F64.sub (F64.of_Z d) F64.zero) in *.
  destruct (fdiv_between F64.prec F64.emax F64.prec64_gt_1 F64.prec64_lt_emax
              delta (F64.of_Z 1) 1 two63 FS FK) as [FQ [LQ UQ]];
    [rewrite VK; discriminate | exact R1 | exact R63 | |].
  { rewrite VK. split; [apply Qle_shift_div_l | apply Qle_shift_div_r]; lra. }
  fold F64.div in FQ, LQ, UQ.
  set (q := F64.div delta (F64.of_Z 1)) in *.
  destruct (fadd_between F64.prec F64.emax F64.prec64_gt_1 F64.prec64_lt_emax
              F64.zero q 1 two63 I FQ R1 R63) as [FA [LA UA]];
    [simpl; lra|].
  split; [exact FA|]. fold F64.add in LA, UA. unfold two64, two63 in *. lra.
Qed.

Lemma mean_step_next (avg : spec_float) (d k : Z) :
  meanInv avg -> (1 <= d <= INT64_MAX)%Z -> (2 <= k <= INT_MAX)%Z ->
  meanInv (mean_step avg d k).
Proof.
  intros [FA [LA UA]] Hd Hk.
  destruct (duration_bounds d Hd) as [FD [LD UD]].
  destruct (count_bounds k) as [FK [LK UK]]; [lia|].
  assert (K2 : 2 <= val (F64.of_Z k)).
  { apply Qle_trans with (inject_Z k); [|exact LK].
    change (inject_Z 2 <= inject_Z k). rewrite <- Zle_Qle. lia. }
  assert (NK : ~ val (F64.of_Z k) == 0) by (intro C; lra).
  assert (R0 : F64.rep 0) by (apply (rep_0 F64.prec F64.emax F64.prec64_gt_1 F64.prec64_lt_emax)).
  assert (Rh : F64.rep (1 # 2)) by (apply (rep64_pow2 (1 # 2) (- 1)); [reflexivity | lia]).
  assert (R63 : F64.rep two63) by (apply (rep64_pow2 two63 63); [reflexivity | lia]).
  assert (R64 : F64.rep two64) by (apply (rep64_pow2 two64 64); [reflexivity | lia]).
  assert (RA : F64.rep (val avg)) by (apply (fin_rep F64.prec F64.emax F64.prec64_gt_1 F64.prec64_lt_emax); exact FA).
  unfold mean_step. unfold two63, two64 in *.
  set (D := F64.of_Z d) in *. set (K := F64.of_Z k) in *.
  destruct (Qlt_le_dec (val D) (val avg)) as [Lt | Le].
  - (* the mean decreases, by at most half *)
    assert (RN : F64.rep (- val avg))
      by (apply (rep_opp F64.prec F64.emax F64.prec64_gt_1 F64.prec64_lt_emax); exact RA).
    assert (RH : F64.rep (- val avg * (1 # 2))) by (apply rep64_neg_half; [exact FA | lra]).
    destruct (fsub_between F64.prec F64.emax F64.prec64_gt_1 F64.prec64_lt_emax
                D avg (- val avg) 0 FD FA RN R0) as [FS [LS US]]; [lra|].
    fold F64.sub in FS, LS, US. set (delta := F64.sub D avg) in *.
    destruct (fdiv_between F64.prec F64.emax F64.prec64_gt_1 F64.prec64_lt_emax
                delta K (- val avg * (1 # 2)) 0 FS FK NK RH R0) as [FQ [LQ UQ]].
    { split; [apply Qle_shift_div_l | apply Qle_shift_div_r]; try lra.
      apply Qle_trans with (- val avg); [|exact LS].
      setoid_replace (- val avg) with (- val avg * (1 # 2) * 2) by ring.
      setoid_replace (- val avg * (1 # 2) * 2 * (1 # 2) * val K)
        with (- (val avg * (1 # 2) * val K)) by ring.
      setoid_replace (- val avg * (1 # 2) * 2) with (- (val avg * (1 # 2) * 2)) by ring.
      apply Qopp_le_compat. apply Qmult_le_l; lra. }
    fold F64.div in FQ, LQ, UQ. set (q := F64.div delta K) in *.
    destruct (fadd_between F64.prec F64.emax F64.prec64_gt_1 F64.prec64_lt_emax
                avg q (1 # 2) (val avg) FA FQ Rh RA) as [FR [LR UR]]; [lra|].
    split; [exact FR | unfold F64.add, two64; lra].
  - (* the mean increases, up to the new duration *)
    destruct (fsub_between F64.prec F64.emax F64.prec64_gt_1 F64.prec64_lt_emax
                D avg 0 9223372036854775808 FD FA R0 R63) as [FS [LS US]]; [lra|].
    fold F64.sub in FS, LS, US. set (delta := F64.sub D avg) in *.
    destruct (fdiv_between F64.prec F64.emax F64.prec64_gt_1 F64.prec64_lt_emax
                delta K 0 9223372036854775808 FS FK NK R0 R63) as [FQ [LQ UQ]].
    { split; [apply Qle_shift_div_l | apply Qle_shift_div_r]; lra. }
    fold F64.div in FQ, LQ, UQ. set (q := F64.div delta K) in *.
    destruct (fadd_between F64.prec F64.emax F64.prec64_gt_1 F64.prec64_lt_emax
                avg q (val avg) 18446744073709551616 FA FQ RA R64) as [FR [LR UR]]; [lra|].
    split; [exact FR | unfold F64.add, two64; lra].
Qed.

Lemma running_mean_inv (ds : list Z) :
  forall avg k,
    Forall (fun d => (1 <= d <= INT64_MAX)%Z) ds ->
    meanInv avg -> (2 <= k)%Z -> (k + Z.of_nat (List.length ds) <= INT_MAX + 1)%Z ->
    meanInv (running_mean avg k ds).
Proof.
  induction ds as [|d ds IH]; intros avg k Hds Hi Hk Hlen; simpl.
  - exact Hi.
  - inversion Hds as [|? ? Hd Hds']; subst. simpl List.length in Hlen.
    apply IH; [exact Hds' | | lia | lia].
    apply mean_step_next; [exact Hi | exact Hd | lia].
Qed.

Lemma running_mean_inv0 (ds : list Z) :
  ds <> [] -> Forall (fun d => (1 <= d <= INT64_MAX)%Z) ds ->
  (Z.of_nat (List.length ds) <= INT_MAX)%Z ->
  meanInv (running_mean F64.zero 1 ds).
Proof.
  destruct ds as [|d ds]; [congruence|]. intros _ Hds Hlen. simpl.
  inversion Hds as [|? ? Hd Hds']; subst. simpl List.length in Hlen.
  apply running_mean_inv; [exact Hds' | | lia | lia].
  apply mean_step_first. exact Hd.
Qed.

(** 1e9 / mean is a positive [float] for every mean within the bounds. *)
Lemma frame_rate_positive (avg : spec_float) :
  meanInv avg ->
  let fps := F32.of_float (F64.div (F64.of_Z 1000000000) avg) in
  F32.fin fps /\ F32.gt fps F32.zero = true /\ pow2 (- 35) <= val fps <= two31.
Proof.
  intros [FA [LA UA]]. unfold two64 in UA.
  assert (FN : F64.fin (F64.of_Z 1000000000)) by (vm_compute; repeat split; discriminate).
  assert (VN : val (F64.of_Z 1000000000) == 1000000000) by (vm_compute; reflexivity).
  assert (Rl : F64.rep (pow2 (- 35))) by (apply (rep64_pow2 _ (- 35)); [reflexivity | lia]).
  assert (Rh : F64.rep two31) by (apply (rep64_pow2 two31 31); [reflexivity | lia]).
  assert (Rl' : F32.rep (pow2 (- 35))) by (apply (rep32_pow2 _ (- 35)); [reflexivity | lia]).
  assert (Rh' : F32.rep two31) by (apply (rep32_pow2 two31 31); [reflexivity | lia]).
  assert (NA : ~ val avg == 0) by (intro C; lra).
  assert (P35 : pow2 (- 35) == 1 # 34359738368) by reflexivity.
  destruct (fdiv_between F64.prec F64.emax F64.prec64_gt_1 F64.prec64_lt_emax
              (F64.of_Z 1000000000) avg (pow2 (- 35)) two31 FN FA NA Rl Rh) as [FQ [LQ UQ]].
  { rewrite VN, P35. unfold two31.
    split; [apply Qle_shift_div_l | apply Qle_shift_div_r]; lra. }
  fold F64.div in FQ, LQ, UQ. set (q := F64.div (F64.of_Z 1000000000) avg) in *.
  destruct (of_float_between F32.prec F32.emax F32.prec32_gt_1 F32.prec32_lt_emax
              q (pow2 (- 35)) two31) as [FF [LF UF]];
    [apply (fin_num F64.prec F64.emax F64.prec64_gt_1 F64.prec64_lt_emax); exact FQ
    | exact Rl' | exact Rh' | split; assumption |].
  fold F32.of_float in FF, LF, UF. cbv zeta.
  split; [exact FF | split; [|split; assumption]].
  unfold F32.gt, fgt.
  apply (flt_fin F32.prec F32.emax F32.prec32_gt_1 F32.prec32_lt_emax); [exact I | exact FF |].
  change (val F32.zero) with 0. rewrite P35 in LF. lra.
Qed.

End MeanBounds.

End FrameRate.

(** ** Directory synthesis: the frame loop in closed form *)

Module Directory.

(** The [int] frame number of a frame, as [init] computes it. *)
Definition ptsOf (t0 : Timestamp) (mFps : spec_float) (x : Timestamp) : Z :=
  match getFrameNumberFromTimestamp x t0 mFps with
  | Some n => wrap32 n
  | None => 0
  end.

(** The [n] slots lo, lo+1, ... *)
Fixpoint slotsN (n : nat) (lo : Z) : list Z :=
  match n with
  | O => []
  | S n' => lo :: slotsN n' (lo + 1)
  end.

(** The slots lo, lo+1, ..., hi-1. *)
Definition slots (lo hi : Z) : list Z := slotsN (Z.to_nat (hi - lo)) lo.

Section Emit.

Variable pts : Timestamp -> Z.
Variable size : Z.

(** The loop of [init] over a total frame-number function. *)
Fixpoint emit (frames : list Timestamp) (lastPts : Z) : list Entry :=
  match frames with
  | [] => []
  | x :: rest =>
      duplicateFrames (Z.to_nat (pts x - lastPts)) size lastPts x
      ++ emit rest (Z.max lastPts (pts x))
  end.

(** The cursor [lastPts] when the loop ends. *)
Fixpoint cursorAfter (frames : list Timestamp) (lastPts : Z) : Z :=
  match frames with
  | [] => lastPts
  | x :: rest => cursorAfter rest (Z.max lastPts (pts x))
  end.

(** The source frame that fills slot [i]: the first one whose frame number
    is beyond [i]. *)
Definition owner (frames : list Timestamp) (i : Z) : Timestamp :=
  match find (fun x => i <? pts x) frames with
  | Some x => x
  | None => 0
  end.

Lemma In_slotsN n : forall lo i, In i (slotsN n lo) <-> lo <= i < lo + Z.of_nat n.
Proof.
  induction n as [|n IH]; intros lo i; simpl; [lia|].
  rewrite IH. lia.
Qed.

Lemma slotsN_app n m : forall lo,
  slotsN (n + m) lo = slotsN n lo ++ slotsN m (lo + Z.of_nat n).
Proof.
  induction n as [|n IH]; intros lo; simpl.
  - f_equal. lia.
  - f_equal. rewrite IH. do 2 f_equal. lia.
Qed.

Lemma In_slots lo hi i : In i (slots lo hi) <-> lo <= i < hi.
Proof. unfold slots. rewrite In_slotsN. lia. Qed.

Lemma slots_app lo mid hi :
  lo <= mid <= hi -> slots lo hi = slots lo mid ++ slots mid hi.
Proof.
  intros H. unfold slots.
  replace (Z.to_nat (hi - lo)) with (Z.to_nat (mid - lo) + Z.to_nat (hi - mid))%nat by lia.
  rewrite slotsN_app. do 2 f_equal. lia.
Qed.

Lemma duplicateFrames_slots n : forall lastPts x,
  duplicateFrames n size lastPts x = map (fun i => frameEntry size i x) (slotsN n lastPts).
Proof. induction n as [|n IH]; intros; simpl; [reflexivity | f_equal; apply IH]. Qed.

Lemma cursorAfter_ge frames : forall c, c <= cursorAfter frames c.
Proof.
  induction frames as [|x rest IH]; intros c; simpl; [lia|].
  pose proof (IH (Z.max c (pts x))). lia.
Qed.

Lemma cursorAfter_le frames p : forall c,
  Forall (fun x => pts x <= p) frames -> cursorAfter frames c <= Z.max c p.
Proof.
  induction frames as [|x rest IH]; intros c H; simpl; [lia|].
  inversion H; subst. pose proof (IH (Z.max c (pts x)) ltac:(assumption)). lia.
Qed.

(** Every slot below the final cursor is emitted once, in order, and is
    filled by the first frame whose number lies beyond it. *)
Lemma emit_closed_form frames : forall c,
  emit frames c =
  map (fun i => frameEntry size i (owner frames i)) (slots c (cursorAfter frames c)).
Proof.
  induction frames as [|x rest IH]; intros c; simpl.
  - unfold slots. replace (Z.to_nat (c - c)) with O by lia. reflexivity.
  - pose proof (cursorAfter_ge rest (Z.max c (pts x))) as G.
    rewrite (slots_app c (Z.max c (pts x))) by lia.
    rewrite map_app, IH. f_equal.
    + rewrite duplicateFrames_slots.
      replace (slotsN (Z.to_nat (pts x - c)) c) with (slots c (Z.max c (pts x))).
      * apply map_ext_in. intros i Hi. apply In_slots in Hi.
        unfold owner. simpl.
        destruct (Z.ltb_spec i (pts x)); [reflexivity | lia].
      * unfold slots. f_equal. lia.
    + apply map_ext_in. intros i Hi. apply In_slots in Hi.
      unfold owner. simpl.
      destruct (Z.ltb_spec i (pts x)); [lia | reflexivity].
Qed.

End Emit.

(** *** File names identify their slot *)

Local Open Scope string_scope.

Lemma length_append (s t : string) :
  String.length (s ++ t) = (String.length s + String.length t)%nat.
Proof. induction s as [|c s IH]; simpl; [reflexivity | rewrite IH; reflexivity]. Qed.

Lemma append_cancel_r (t : string) : forall s s' : string, s ++ t = s' ++ t -> s = s'.
Proof.
  induction s as [|c s IH]; intros [|c' s'] E; simpl in E.
  - reflexivity.
  - exfalso. apply (f_equal String.length) in E. simpl in E.
    rewrite length_append in E. lia.
  - exfalso. apply (f_equal String.length) in E. simpl in E.
    rewrite length_append in E. lia.
  - injection E as -> E. f_equal. apply IH. exact E.
Qed.

(** The number that a run of decimal digits denotes. *)
Definition digits_value (s : string) : option Z :=
  option_map Z.of_uint (NilEmpty.uint_of_string s).

Lemma digits_value_fill n s :
  digits_value (fill n "0" ++ s) = digits_value s.
Proof.
  induction n as [|n IH]; simpl; [reflexivity|].
  unfold digits_value in *. simpl. rewrite <- IH.
  destruct (NilEmpty.uint_of_string (fill n "0" ++ s)) as [d|]; reflexivity.
Qed.

Lemma digits_value_string_of_Z n : 0 <= n -> digits_value (string_of_Z n) = Some n.
Proof.
  intros Hn. unfold digits_value, string_of_Z.
  destruct n as [|p|p]; [reflexivity | | lia].
  simpl. unfold NilZero.string_of_uint.
  pose proof (DecimalPos.Unsigned.to_uint_nonnil p) as NN.
  destruct (Pos.to_uint p) eqn:E; try congruence;
    rewrite <- E, NilEmpty.usu; simpl; unfold Z.of_uint;
    rewrite DecimalPos.Unsigned.of_to; reflexivity.
Qed.

Lemma frame_name_inj (i j : Z) :
  0 <= i -> 0 <= j ->
  constructFrameFilename "frame-" i 6 "dng" = constructFrameFilename "frame-" j 6 "dng" ->
  i = j.
Proof.
  intros Hi Hj E. unfold constructFrameFilename in E.
  simpl in E. injection E as E.
  apply append_cancel_r in E.
  apply (f_equal digits_value) in E. unfold setw in E.
  rewrite !digits_value_fill, !digits_value_string_of_Z in E by assumption.
  congruence.
Qed.

(** *** Frame numbers grow with the timestamp *)

Local Open Scope Z_scope.

Lemma nanosecondsPerFrame_not_negative (frameRate : spec_float) :
  F32.le frameRate (F32.of_Z 0) = false ->
  forall m e,
    F64.div (F64.of_Z 1000000000) (F64.of_float frameRate) <> S754_finite true m e.
Proof.
  intros Hle m e.
  destruct frameRate as [s | s | | s mf ef].
  - destruct s; vm_compute in Hle; discriminate Hle.
  - destruct s; [vm_compute in Hle; discriminate Hle | vm_compute; intros E; discriminate E].
  - vm_compute. intros E; discriminate E.
  - assert (Pv : (0 < IEEE.val (S754_finite s mf ef))%Q).
    { unfold F32.le, IEEE.fle, IEEE.fcompare in Hle. simpl in Hle.
      destruct (Qcompare _ _) eqn:C in Hle; try discriminate Hle.
      apply (proj2 (Qgt_alt _ _)) in C. exact C. }
    unfold F64.of_float, IEEE.of_float.
    pose proof (IEEE.round_pos_sign F64.prec F64.emax F64.prec64_gt_1 F64.prec64_lt_emax _ s Pv) as Sg.
    pose proof (IEEE.round_not_nan F64.prec F64.emax F64.prec64_gt_1 F64.prec64_lt_emax
                  (IEEE.val (S754_finite s mf ef)) s) as Nn.
    destruct (IEEE.round F64.prec F64.emax (IEEE.val (S754_finite s mf ef)) s)
      as [sf | sf | | sf mf' ef'] eqn:Ef; simpl in Sg; subst.
    + vm_compute. intros E; discriminate E.
    + vm_compute. intros E; discriminate E.
    + discriminate Nn.
    + assert (Pf : (0 < IEEE.val (S754_finite false mf' ef'))%Q).
      { simpl. apply Qmult_lt_0_compat; [reflexivity|].
        apply Qmult_lt_0_compat; [rewrite <- (Zlt_Qlt 0); lia | apply IEEE.pow2_pos]. }
      assert (Pc : (0 < IEEE.val (F64.of_Z 1000000000))%Q) by (vm_compute; reflexivity).
      intros E.
      assert (Sq : IEEE.sign_of (F64.div (F64.of_Z 1000000000) (S754_finite false mf' ef')) = false).
      { change (F64.of_Z 1000000000) with (S754_finite false 8388608000000000 (- 23)) in *.
        unfold F64.div, IEEE.fdiv.
        apply (IEEE.round_pos_sign F64.prec F64.emax F64.prec64_gt_1 F64.prec64_lt_emax).
        apply Qlt_shift_div_l; [exact Pf | lra]. }
      rewrite E in Sq. discriminate.
Qed.

(** For timestamps not before the reference, a later timestamp has a
    frame number, and not a smaller one, whenever this one has. *)
Lemma getFrameNumber_mono (a b t0 : Timestamp) (frameRate : spec_float) (pb : Z) :
  0 <= a - t0 <= b - t0 -> b - t0 <= INT64_MAX ->
  getFrameNumberFromTimestamp b t0 frameRate = Some pb ->
  exists pa, getFrameNumberFromTimestamp a t0 frameRate = Some pa /\ - 1 <= pa <= pb.
Proof.
  intros Hab Hb. unfold getFrameNumberFromTimestamp.
  destruct (F32.le frameRate (F32.of_Z 0)) eqn:Hle.
  - intros [= <-]. exists (- 1). split; [reflexivity | lia].
  - rewrite !wrap64_id by (unfold in_int64, INT64_MIN, INT64_MAX in *; lia).
    destruct (Z.ltb_spec (b - t0) 0); [lia|].
    destruct (Z.ltb_spec (a - t0) 0); [lia|].
    intros Eb. set (npf := F64.div (F64.of_Z 1000000000) (F64.of_float frameRate)) in *.
    pose proof (nanosecondsPerFrame_not_negative frameRate Hle) as Hn. fold npf in Hn.
    pose proof (IEEE.to_int_is_num _ _ _ _ Eb) as Nb.
    destruct (IEEE.fround_fdiv_of_Z_mono F64.prec F64.emax F64.prec64_gt_1 F64.prec64_lt_emax
                (a - t0) (b - t0) npf Hab Hn Nb) as (Fa & Fb & Hv).
    destruct (IEEE.to_int_mono INT64_MIN INT64_MAX _ _ pb ltac:(unfold INT64_MIN; lia)
                (IEEE.fin_num F64.prec F64.emax F64.prec64_gt_1 F64.prec64_lt_emax _ Fa) Hv Eb)
      as (pa & Ea & Hpa).
    exists pa. split; [exact Ea | lia].
Qed.

Lemma cursorAfter_ge_pts (pts : Timestamp -> Z) frames x : forall c,
  In x frames -> pts x <= cursorAfter pts frames c.
Proof.
  induction frames as [|y rest IH]; intros c H; simpl; [destruct H|].
  destruct H as [-> | H].
  - pose proof (cursorAfter_ge pts rest (Z.max c (pts x))). lia.
  - apply IH. exact H.
Qed.

Lemma addVideoFrames_emit frames t0 mFps size : forall c,
  Forall (fun x => getFrameNumberFromTimestamp x t0 mFps <> None) frames ->
  addVideoFrames frames t0 mFps size c = Some (emit (ptsOf t0 mFps) size frames c).
Proof.
  induction frames as [|x rest IH]; intros c H; simpl; [reflexivity|].
  inversion H as [|? ? Hx Hrest]; subst.
  destruct (getFrameNumberFromTimestamp x t0 mFps) as [n|] eqn:En; [|congruence].
  assert (P : ptsOf t0 mFps x = wrap32 n) by (unfold ptsOf; rewrite En; reflexivity).
  rewrite P, (IH _ Hrest). reflexivity.
Qed.

Lemma last_default {A} (d d' : A) l : l <> [] -> last l d = last l d'.
Proof.
  induction l as [|a l IH]; intros N; [congruence|].
  destruct l as [|b l]; [reflexivity|].
  change (last (b :: l) d = last (b :: l) d'). apply IH. discriminate.
Qed.

Lemma last_cons_nonempty {A} (a b d d' : A) l : last (a :: b :: l) d = last (b :: l) d'.
Proof. change (last (b :: l) d = last (b :: l) d'). apply last_default. discriminate. Qed.

(** In a sorted list every element lies between the first and the last. *)
Lemma sorted_between_ends (rest : list Timestamp) : forall t0 x,
  Sorted Z.le (t0 :: rest) -> In x (t0 :: rest) -> t0 <= x <= last (t0 :: rest) t0.
Proof.
  induction rest as [|y rest IH]; intros t0 x S H.
  - destruct H as [<- | []]. simpl. lia.
  - inversion S as [|? ? S' Hd]; subst. inversion Hd; subst.
    rewrite (last_cons_nonempty t0 y t0 y rest).
    assert (Hy : y <= last (y :: rest) y) by (apply (IH y y S'); left; reflexivity).
    destruct H as [<- | H]; [lia|].
    pose proof (IH y x S' H). lia.
Qed.

Lemma last_In {A} (a : A) l : In (last (a :: l) a) (a :: l).
Proof.
  revert a. induction l as [|b l IH]; intros a; [left; reflexivity|].
  right. rewrite (last_cons_nonempty a b a b l). apply IH.
Qed.

End Directory.

(** ** Audio synchronisation: what the trim loop removes *)

Module Sync.

(** The interleaved samples of all chunks, in order. *)
Definition flat (chunks : list AudioChunk) : list Z := List.concat (map snd chunks).

(** The trim of the specification, as a relation: with [k] samples still
    to remove, whole chunks of at most [k] samples are erased; the first
    longer chunk loses a prefix of [k] samples and its timestamp advances
    by [k * 1000 / sampleRate] (computed in [int]); then the walk stops. *)
Inductive Trimmed (sampleRate : Z) : Z -> list AudioChunk -> list AudioChunk -> Prop :=
| trim_nothing k chunks :
    k <= 0 -> Trimmed sampleRate k chunks chunks
| trim_exhausted k :
    Trimmed sampleRate k [] []
| trim_whole k first samples rest out :
    0 < k -> Z.of_nat (List.length samples) <= k ->
    Trimmed sampleRate (k - Z.of_nat (List.length samples)) rest out ->
    Trimmed sampleRate k ((first, samples) :: rest) out
| trim_prefix k first samples rest :
    0 < k < Z.of_nat (List.length samples) ->
    Trimmed sampleRate k ((first, samples) :: rest)
      ((wrap64 (first + Z.quot (wrap32 (k * 1000)) sampleRate),
        skipn (Z.to_nat k) samples) :: rest).

Lemma wrap32_range x : in_int (wrap32 x).
Proof.
  unfold wrap32, wrapS, in_int, INT_MIN, INT_MAX.
  pose proof (Z.mod_pos_bound x (2 ^ 32) ltac:(lia)) as B.
  change (2 ^ (32 - 1)) with 2147483648. change (2 ^ 32) with 4294967296 in *.
  change (2 ^ 31) with 2147483648.
  destruct (Z.ltb_spec (x mod 4294967296) 2147483648); lia.
Qed.

Lemma wrapU64_small x : 0 <= x <= INT_MAX -> wrapU64 x = x.
Proof. unfold wrapU64, INT_MAX. intros. apply Z.mod_small. lia. Qed.

Lemma trimLoop_Trimmed (sampleRate samplesToRemove : Z) :
  sampleRate <> 0 -> samplesToRemove <= INT_MAX ->
  forall chunks samplesRemoved,
    0 <= samplesRemoved ->
    exists out,
      trimLoop chunks sampleRate samplesToRemove samplesRemoved = Some out /\
      Trimmed sampleRate (samplesToRemove - samplesRemoved) chunks out.
Proof.
  intros Hsr Hmax. induction chunks as [|[first samples] rest IH]; intros removed Hrem.
  - exists []. split; [reflexivity | apply trim_exhausted].
  - simpl. destruct (Z.ltb_spec removed samplesToRemove) as [Lt | Ge].
    + rewrite wrap32_id by (unfold in_int, INT_MIN, INT_MAX in *; lia).
      rewrite wrapU64_small by lia.
      destruct (Z.leb_spec (Z.of_nat (List.length samples)) (samplesToRemove - removed)) as [Le | Gt].
      * rewrite wrap32_id by (unfold in_int, INT_MIN, INT_MAX in *; lia).
        destruct (IH (removed + Z.of_nat (List.length samples)) ltac:(lia)) as (out & E & T).
        exists out. split; [exact E|].
        apply trim_whole; [lia | exact Le |].
        replace (samplesToRemove - removed - Z.of_nat (List.length samples))
          with (samplesToRemove - (removed + Z.of_nat (List.length samples))) by lia.
        exact T.
      * destruct (Z.eqb_spec sampleRate 0); [contradiction|].
        eexists. split; [reflexivity|]. apply trim_prefix. lia.
    + eexists. split; [reflexivity|]. apply trim_nothing. lia.
Qed.

(** What is left is the sample stream without its first [k] samples. *)
Lemma Trimmed_flat sampleRate k chunks out :
  Trimmed sampleRate k chunks out -> flat out = skipn (Z.to_nat k) (flat chunks).
Proof.
  induction 1 as [k chunks Hk | k | k first samples rest out Hk Hle T IH
                 | k first samples rest Hk].
  - replace (Z.to_nat k) with O by lia. reflexivity.
  - rewrite skipn_nil. reflexivity.
  - rewrite IH. unfold flat. simpl.
    rewrite skipn_app.
    rewrite (skipn_all2 samples) by lia. simpl. f_equal. lia.
  - unfold flat. simpl. rewrite skipn_app.
    replace (Z.to_nat k - List.length samples)%nat with O by lia. reflexivity.
Qed.

(** The chunks that remain are a suffix of the original chunks, the first
    of them possibly shortened. *)
Lemma Trimmed_shape sampleRate k chunks out :
  Trimmed sampleRate k chunks out ->
  out = [] \/
  exists erased first samples rest j,
    chunks = erased ++ (first, samples) :: rest /\
    ((j = 0 /\ out = (first, samples) :: rest) \/
     (0 < j < Z.of_nat (List.length samples) /\
      out = (wrap64 (first + Z.quot (wrap32 (j * 1000)) sampleRate),
             skipn (Z.to_nat j) samples) :: rest)).
Proof.
  induction 1 as [k chunks Hk | k | k first samples rest out Hk Hle T IH
                 | k first samples rest Hk].
  - destruct chunks as [|[first samples] rest]; [left; reflexivity | right].
    exists [], first, samples, rest, 0. split; [reflexivity | left; auto].
  - left. reflexivity.
  - destruct IH as [-> | (erased & f & sm & r & j & E & H)]; [left; reflexivity | right].
    exists ((first, samples) :: erased), f, sm, r, j. split; [rewrite E; reflexivity | exact H].
  - right. exists [], first, samples, rest, k. split; [reflexivity | right; auto].
Qed.

Lemma shiftTimestamps_samples chunks d shifted :
  shiftTimestamps chunks d = Some shifted -> map snd shifted = map snd chunks.
Proof.
  revert shifted. induction chunks as [|[first samples] rest IH]; intros shifted; simpl.
  - intros [= <-]. reflexivity.
  - destruct (shiftTimestamp first d) as [first'|]; [|discriminate].
    destruct (shiftTimestamps rest d) as [rest'|]; [|discriminate].
    intros [= <-]. simpl. f_equal. apply IH. reflexivity.
Qed.

Lemma shiftTimestamps_defined chunks d :
  Forall (fun c => shiftTimestamp (fst c) d <> None) chunks ->
  exists shifted, shiftTimestamps chunks d = Some shifted.
Proof.
  induction 1 as [|[first samples] rest Hc Hrest IH]; simpl.
  - exists []. reflexivity.
  - simpl in Hc. destruct (shiftTimestamp first d) as [first'|]; [|congruence].
    destruct IH as [rest' ->]. eexists. reflexivity.
Qed.

(** The capture of the specification's scenario 4: stereo chunks of 1000
    samples at 48 kHz, the first one 100 ms after the video. *)
Definition scenario4_chunks : list AudioChunk :=
  map (fun i => (100000000 + Z.of_nat i * 10416666, repeat 0 1000)) (seq 0 12).

End Sync.

(** ** The arithmetic against the Standard Library's [SpecFloat]

    The operations of [IEEE] are stated on exact rational results.  On the
    numbers below - integers that are and are not representable, the
    literal [1e-6f], subnormal and largest numbers, zeros, infinities and
    NaN - they give the floats that the bit-level operations of [SpecFloat]
    give. *)

Module SpecFloatAgreement.

Definition sf_eqb (x y : spec_float) : bool :=
  match x, y with
  | S754_zero a, S754_zero b => Bool.eqb a b
  | S754_infinity a, S754_infinity b => Bool.eqb a b
  | S754_nan, S754_nan => true
  | S754_finite a m e, S754_finite b n f => Bool.eqb a b && Pos.eqb m n && Z.eqb e f
  | _, _ => false
  end.

Definition integers : list Z :=
  [0; 1; - 3; 48000; 16777217; 33333333; - 50000000; 1000000001; 9007199254740993].

Definition specials (prec emax : Z) : list spec_float :=
  [S754_zero true; S754_infinity true; S754_nan;
   S754_finite true 5 (3 - emax - prec);
   S754_finite false (Z.to_pos (2 ^ prec - 1)) (emax - prec)].

Definition samples32 : list spec_float :=
  map F32.of_Z integers ++ lit_1em6f :: specials F32.prec F32.emax.

Definition samples64 : list spec_float :=
  map F64.of_Z integers ++ F64.of_float lit_1em6f :: specials F64.prec F64.emax.

Definition agree (f g : spec_float -> spec_float -> spec_float) (l : list spec_float)
  : bool :=
  forallb (fun x => forallb (fun y => sf_eqb (f x y) (g x y)) l) l.

Example of_Z_agrees :
  forallb (fun z => sf_eqb (F32.of_Z z) (binary_normalize 24 128 z 0 false)
                    && sf_eqb (F64.of_Z z) (binary_normalize 53 1024 z 0 false))
          integers = true.
Proof. vm_compute. reflexivity. Qed.

Example add_agrees :
  agree F32.add (SFadd 24 128) samples32 && agree F64.add (SFadd 53 1024) samples64 = true.
Proof. vm_compute. reflexivity. Qed.

Example sub_agrees :
  agree F32.sub (SFsub 24 128) samples32 && agree F64.sub (SFsub 53 1024) samples64 = true.
Proof. vm_compute. reflexivity. Qed.

Example mul_agrees :
  agree F32.mul (SFmul 24 128) samples32 && agree F64.mul (SFmul 53 1024) samples64 = true.
Proof. vm_compute. reflexivity. Qed.

Example div_agrees :
  agree F32.div (SFdiv 24 128) samples32 && agree F64.div (SFdiv 53 1024) samples64 = true.
Proof. vm_compute. reflexivity. Qed.

End SpecFloatAgreement.

(** * Claims *)

(** ** C4: calculateFrameRate *)

(** C4 (as stated, refuted): "it returns 0 with fewer than two positive
    durations".  Two frames 33 333 333 ns apart have exactly one positive
    duration, and the result is 30.0f, not 0. *)
Lemma C4_one_positive_duration_is_not_zero :
  ~ (forall frames : list Timestamp,
       (List.length (FrameRate.positive_durations frames) < 2)%nat ->
       calculateFrameRate frames = F32.zero).
Proof.
  intros H. specialize (H [0; 33333333]).
  assert (L : (List.length (FrameRate.positive_durations [0; 33333333]%Z) < 2)%nat)
    by (vm_compute; lia).
  specialize (H L). vm_compute in H. discriminate.
Qed.

(** C4 (amended): [calculateFrameRate] returns 0 for fewer than two frames
    and when no successive duration is strictly positive; otherwise it is
    1e9 / mu converted to [float], mu being the running mean
    mu_k = mu_(k-1) + (d_k - mu_(k-1)) / k over the strictly positive
    durations only.  For sorted frames whose successive differences fit
    [int64_t], the result is > 0 as soon as two frames differ, and 0 when
    all frames are equal. *)
Theorem C4_calculateFrameRate_running_mean (frames : list Timestamp) :
  Z.of_nat (List.length frames) <= INT_MAX ->
  ((List.length frames < 2)%nat -> calculateFrameRate frames = F32.zero) /\
  (FrameRate.positive_durations frames = [] -> calculateFrameRate frames = F32.zero) /\
  (FrameRate.positive_durations frames <> [] ->
     calculateFrameRate frames =
       F32.of_float
         (F64.div (F64.of_Z 1000000000)
            (FrameRate.running_mean F64.zero 1 (FrameRate.positive_durations frames)))) /\
  (Sorted Z.le frames -> Forall in_int64 (FrameRate.diffs frames) ->
     ((exists a b, In a frames /\ In b frames /\ a < b) ->
        F32.gt (calculateFrameRate frames) F32.zero = true) /\
     ((forall a b, In a frames -> In b frames -> a = b) ->
        calculateFrameRate frames = F32.zero)).
Proof.
  intros Hlen.
  assert (Short : (List.length frames < 2)%nat -> calculateFrameRate frames = F32.zero).
  { destruct frames as [|a [|b l]]; intros H; try reflexivity.
    simpl List.length in H. lia. }
  assert (Long : forall first second rest, frames = first :: second :: rest ->
            calculateFrameRate frames =
              if Z.of_nat (List.length (FrameRate.positive_durations frames)) =? 0
              then F32.zero
              else F32.of_float (F64.div (F64.of_Z 1000000000)
                     (FrameRate.running_mean F64.zero 1
                        (FrameRate.positive_durations frames)))).
  { intros first second rest E. subst frames. unfold calculateFrameRate.
    rewrite FrameRate.frameRateLoop_spec; [| lia | simpl List.length in *; lia].
    unfold FrameRate.positive_durations, FrameRate.durations.
    rewrite Z.add_0_l. change (0 + 1) with 1. reflexivity. }
  assert (Empty : FrameRate.positive_durations frames = [] ->
                  calculateFrameRate frames = F32.zero).
  { intros E. destruct frames as [|a [|b l]]; try reflexivity.
    rewrite (Long a b l eq_refl), E. reflexivity. }
  assert (Mean : FrameRate.positive_durations frames <> [] ->
            calculateFrameRate frames =
              F32.of_float (F64.div (F64.of_Z 1000000000)
                (FrameRate.running_mean F64.zero 1 (FrameRate.positive_durations frames)))).
  { intros NE. destruct frames as [|a [|b l]]; try (exfalso; apply NE; reflexivity).
    rewrite (Long a b l eq_refl).
    destruct (FrameRate.positive_durations (a :: b :: l)); [congruence | reflexivity]. }
  split; [exact Short | split; [exact Empty | split; [exact Mean|]]].
  intros Hs Hd.
  destruct frames as [|first rest].
  { split; [intros (a & b & [] & _) | reflexivity]. }
  assert (Dur : FrameRate.positive_durations (first :: rest) =
                filter (fun d => 0 <? d) (FrameRate.diffsFrom first rest)).
  { unfold FrameRate.positive_durations. simpl.
    rewrite FrameRate.durationsFrom_diffs by exact Hd. reflexivity. }
  pose proof (FrameRate.sorted_diffs_nonneg rest first Hs) as Nn.
  split.
  - intros (a & b & Ha & Hb & Hab).
    assert (NE : FrameRate.positive_durations (first :: rest) <> []).
    { rewrite Dur. intros E.
      pose proof (FrameRate.no_positive_diff_all_equal rest first Nn E) as Q.
      rewrite (Q a Ha), (Q b Hb) in Hab. lia. }
    rewrite (Mean NE).
    apply FrameRate.frame_rate_positive.
    apply FrameRate.running_mean_inv0; [exact NE | |].
    + rewrite Dur.
      assert (B : Forall (fun d => 0 <= d /\ in_int64 d) (FrameRate.diffsFrom first rest)).
      { simpl in Hd. clear - Nn Hd. induction Nn; inversion Hd; subst; constructor; auto. }
      pose proof (FrameRate.filter_Forall_both (fun d => 0 <? d) _ _ B) as B'.
      eapply Forall_impl; [|exact B']. simpl. intros d [[_ [_ U]] P].
      apply Z.ltb_lt in P. lia.
    + pose proof (FrameRate.length_filter_le (fun d => 0 <? d) (FrameRate.durations (first :: rest))) as L1.
      assert (L2 : List.length (FrameRate.durations (first :: rest)) = List.length rest).
      { simpl. clear. revert first. induction rest; intros; simpl; [reflexivity | f_equal; auto]. }
      unfold FrameRate.positive_durations. simpl List.length in Hlen. lia.
  - intros Heq. apply Empty. rewrite Dur.
    apply FrameRate.all_equal_no_positive_diff.
    intros t Ht. apply Heq; [exact Ht | left; reflexivity].
Qed.

(** Witness for C4: three frames of a 30 fps capture. *)
Lemma C4_witness :
  F32.gt (calculateFrameRate [0; 33333333; 66666666]) F32.zero = true.
Proof.
  refine (proj1 (proj2 (proj2 (proj2
    (C4_calculateFrameRate_running_mean [0; 33333333; 66666666] _))) _ _) _).
  - vm_compute. discriminate.
  - repeat constructor; lia.
  - repeat constructor; vm_compute; discriminate.
  - exists 0, 33333333. simpl. repeat split; auto; lia.
Defined.

(** ** C1: the frame entries of the directory *)

(** The frame number in the words of the specification,
    [pts = round((t - t0) * fps / 1e9)], on the exact value of the float
    [fps]; a tie is rounded away from zero, as [std::round] does. *)
Definition spec_pts (t0 : Timestamp) (fps : spec_float) (t : Timestamp) : Z :=
  IEEE.rha (inject_Z (t - t0) * IEEE.val fps / inject_Z 1000000000).

(** The image entry of slot [i] that carries frame [t]: a file named
    frame-{i:06d}.dng of the typical image size. *)
Definition imageEntry (size i : Z) (t : Timestamp) : Entry :=
  {| entry_type := FILE_ENTRY;
     entry_size := size;
     entry_name := ("frame-" ++ setw 6 "0" (string_of_Z i) ++ ".dng")%string;
     entry_userData := Some t |}.

(** The synthesizer in the words of the specification, over a frame-number
    function [pts]: for each source frame [t], while [next_pts < pts t] it
    emits the entry of slot [next_pts] with [user_data = t] and increments
    [next_pts]. *)
Fixpoint spec_entries (pts : Timestamp -> Z) (size : Z) (frames : list Timestamp)
    (next_pts : Z) : list Entry :=
  match frames with
  | [] => []
  | t :: rest =>
      map (fun i => imageEntry size i t) (Directory.slots next_pts (pts t))
      ++ spec_entries pts size rest (Z.max next_pts (pts t))
  end.

(** A capture of 33 frames, sorted: frames 0 .. 30 are 142 857 143 ns apart
    (7 fps), frame 31 comes late, at 4.5 s instead of 4.428 s, and frame 32
    is on the grid again. *)
Definition late_frame_capture : list Timestamp :=
  map (fun k => Z.of_nat k * 142857143) (seq 0 31) ++ [4500000000; 4571428576].

Lemma find_prefix {A} (f : A -> bool) (l : list A) (x : A) :
  find f l = Some x ->
  exists before after,
    l = before ++ x :: after /\ Forall (fun y => f y = false) before /\ f x = true.
Proof.
  induction l as [|y l IH]; intros H; simpl in H; [discriminate H|].
  destruct (f y) eqn:Fy.
  - assert (E : y = x) by congruence. subst y.
    exists [], l. split; [reflexivity|]. split; [constructor | exact Fy].
  - destruct (IH H) as (before & after & E & Hb & Fx).
    exists (y :: before), after.
    split; [rewrite E; reflexivity|]. split; [constructor; assumption | exact Fx].
Qed.

(** C1 (as stated, refuted): the frame number is not
    [round((t - t0) * fps / 1e9)].  The code divides by [1e9 / fps], and the
    two differ when the product lies on a half.  In the sorted capture above
    the frame rate is 7.0f; for the late frame the product is exactly 31.5,
    also when it is computed in [double], which rounds to 32, but
    [1e9 / 7.0] is rounded up to a [double], the quotient falls just below
    31.5, and the code gives 31.  So the code fills frame-000031.dng with
    the last frame, where the specification's formula fills it with the
    late frame. *)
Lemma C1_product_formula_is_not_the_frame_number :
  Sorted Z.le late_frame_capture /\
  calculateFrameRate late_frame_capture = F32.of_Z 7 /\
  getFrameNumberFromTimestamp 4500000000 0 (F32.of_Z 7) = Some 31 /\
  spec_pts 0 (F32.of_Z 7) 4500000000 = 32 /\
  to_int64 (F64.round (F64.div (F64.mul (F64.of_Z 4500000000) (F64.of_float (F32.of_Z 7)))
                         (F64.of_Z 1000000000))) = Some 32 /\
  (exists entries,
     addVideoFrames late_frame_capture 0 (calculateFrameRate late_frame_capture) 4096 0
     = Some entries /\
     nth_error entries 31
     = Some {| entry_type := FILE_ENTRY; entry_size := 4096;
               entry_name := "frame-000031.dng"; entry_userData := Some 4571428576 |}) /\
  nth_error (spec_entries (spec_pts 0 (calculateFrameRate late_frame_capture)) 4096
               late_frame_capture 0) 31
  = Some {| entry_type := FILE_ENTRY; entry_size := 4096;
            entry_name := "frame-000031.dng"; entry_userData := Some 4500000000 |} /\
  ~ (forall (t0 : Timestamp) (rest : list Timestamp) (size : Z),
       Sorted Z.le (t0 :: rest) ->
       let fps := calculateFrameRate (t0 :: rest) in
       addVideoFrames (t0 :: rest) t0 fps size 0
       = Some (spec_entries (spec_pts t0 fps) size (t0 :: rest) 0)).
Proof.
  assert (S : Sorted Z.le late_frame_capture).
  { unfold late_frame_capture. cbn [seq map app].
    repeat (apply Sorted_cons; [|first [apply HdRel_nil | apply HdRel_cons; lia]]).
    apply Sorted_nil. }
  split; [exact S|].
  split; [vm_compute; reflexivity|].
  split; [vm_compute; reflexivity|].
  split; [vm_compute; reflexivity|].
  split; [vm_compute; reflexivity|].
  split; [eexists; split; vm_compute; reflexivity|].
  split; [vm_compute; reflexivity|].
  intros H.
  specialize (H 0 (tl late_frame_capture) 4096 S).
  cbv zeta in H.
  apply (f_equal (fun o => match o with
                           | Some l => option_map entry_userData (nth_error l 31)
                           | None => None
                           end)) in H.
  vm_compute in H. discriminate H.
Qed.

Lemma length_slotsN (n : nat) : forall lo, List.length (Directory.slotsN n lo) = n.
Proof. induction n as [|n IH]; intros lo; simpl; [reflexivity | rewrite IH; reflexivity]. Qed.

Lemma nth_error_slotsN (n : nat) : forall lo k,
  (k < n)%nat -> nth_error (Directory.slotsN n lo) k = Some (lo + Z.of_nat k).
Proof.
  induction n as [|n IH]; intros lo k Hk; [lia|].
  destruct k as [|k]; simpl.
  - f_equal. lia.
  - rewrite IH by lia. f_equal. lia.
Qed.

(** C1 (amended): for a sorted frame list (whose span fits [int64_t] and
    whose last frame number p fits [int]) the frame number of a source frame
    t is [round((t - t0) / (1e9 / fps))], both divisions rounded to
    [double], or -1 when the frame rate is not positive.  With a cursor
    starting at 0, the loop of [init] emits exactly the slots 0 .. p-1 in
    order; slot i is a file named frame-{i:06d}.dng, has the typical image
    size, and carries the timestamp of the source frame that was current
    when the cursor passed it: the first frame of the list whose number
    exceeds i.  The slot p of the last source frame is never emitted.  A
    capture of exactly one frame has frame rate 0 and yields no image
    entry. *)
Theorem C1_frame_entries_fill_gaps_below_last_slot :
  (forall (t0 : Timestamp) (rest : list Timestamp) (mFps : spec_float) (size p : Z),
     Sorted Z.le (t0 :: rest) ->
     last (t0 :: rest) t0 - t0 <= INT64_MAX ->
     getFrameNumberFromTimestamp (last (t0 :: rest) t0) t0 mFps = Some p ->
     p <= INT_MAX ->
     let frames := t0 :: rest in
     let pts := Directory.ptsOf t0 mFps in
     let owner := Directory.owner pts frames in
     let entry := fun i =>
       {| entry_type := FILE_ENTRY;
          entry_size := size;
          entry_name := ("frame-" ++ setw 6 "0" (string_of_Z i) ++ ".dng")%string;
          entry_userData := Some (owner i) |} in
     (forall x, In x frames ->
        - 1 <= pts x <= p /\
        (F32.le mFps (F32.of_Z 0) = true -> pts x = - 1) /\
        (F32.le mFps (F32.of_Z 0) = false ->
         to_int64 (F64.round (F64.div (F64.of_Z (x - t0))
                                (F64.div (F64.of_Z 1000000000) (F64.of_float mFps))))
         = Some (pts x))) /\
     pts (last frames t0) = p /\
     (forall i, 0 <= i < p ->
        exists before after,
          frames = before ++ owner i :: after /\
          Forall (fun y => pts y <= i) before /\
          i < pts (owner i)) /\
     exists entries,
       addVideoFrames frames t0 mFps size 0 = Some entries /\
       List.length entries = Z.to_nat p /\
       (forall i, 0 <= i < p -> nth_error entries (Z.to_nat i) = Some (entry i)) /\
       (forall e, In e entries ->
          entry_name e <> ("frame-" ++ setw 6 "0" (string_of_Z p) ++ ".dng")%string)) /\
  (forall (t : Timestamp) (size : Z),
     calculateFrameRate [t] = F32.zero /\
     addVideoFrames [t] t (calculateFrameRate [t]) size 0 = Some []).
Proof.
  split.
  - intros t0 rest mFps size p Hs Hspan Hp Hfit frames pts owner entry.
    set (final := last (t0 :: rest) t0) in *.
    assert (Hall : forall x, In x frames ->
              exists n, getFrameNumberFromTimestamp x t0 mFps = Some n /\ - 1 <= n <= p).
    { intros x Hx. pose proof (Directory.sorted_between_ends rest t0 x Hs Hx) as B.
      fold final in B.
      apply (Directory.getFrameNumber_mono x final t0 mFps p); [lia | lia | exact Hp]. }
    assert (Hnum : forall x, In x frames ->
              getFrameNumberFromTimestamp x t0 mFps = Some (pts x) /\ - 1 <= pts x <= p).
    { intros x Hx. destruct (Hall x Hx) as (n & En & Hn).
      assert (P : pts x = n).
      { unfold pts, Directory.ptsOf. rewrite En.
        apply wrap32_id. unfold in_int, INT_MIN, INT_MAX in *. lia. }
      rewrite P. split; [exact En | exact Hn]. }
    assert (Hfinal : pts final = p).
    { destruct (Hnum final (Directory.last_In t0 rest)) as (En & _).
      rewrite Hp in En.
      apply (f_equal (fun o => match o with Some v => v | None => 0 end)) in En.
      symmetry. exact En. }
    assert (Hcur : Directory.cursorAfter pts frames 0 = Z.max 0 p).
    { apply Z.le_antisymm.
      - apply Directory.cursorAfter_le. apply Forall_forall. intros x Hx.
        apply (Hnum x Hx).
      - pose proof (Directory.cursorAfter_ge pts frames 0).
        pose proof (Directory.cursorAfter_ge_pts pts frames final 0 (Directory.last_In t0 rest)).
        lia. }
    split; [|split; [|split]].
    + intros x Hx. destruct (Hnum x Hx) as (En & Hn).
      pose proof (Directory.sorted_between_ends rest t0 x Hs Hx) as B. fold final in B.
      split; [exact Hn|].
      unfold getFrameNumberFromTimestamp in En.
      rewrite wrap64_id in En by (unfold in_int64, INT64_MIN, INT64_MAX in *; lia).
      split; intros Hle; rewrite Hle in En.
      * apply (f_equal (fun o => match o with Some v => v | None => 0 end)) in En.
        symmetry. exact En.
      * destruct (Z.ltb_spec (x - t0) 0) as [C | _]; [lia | exact En].
    + exact Hfinal.
    + intros i Hi. unfold owner, Directory.owner.
      destruct (find (fun x => i <? pts x) frames) as [x|] eqn:F.
      * destruct (find_prefix _ _ _ F) as (before & after & E & Hb & Fx).
        exists before, after. split; [exact E|]. split.
        -- eapply Forall_impl; [|exact Hb]. intros y Hy. apply Z.ltb_ge. exact Hy.
        -- apply Z.ltb_lt. exact Fx.
      * exfalso. pose proof (find_none _ _ F final (Directory.last_In t0 rest)) as N.
        simpl in N. apply Z.ltb_ge in N. lia.
    + exists (map entry (Directory.slots 0 p)).
      split; [|split; [|split]].
      * rewrite Directory.addVideoFrames_emit.
        -- rewrite Directory.emit_closed_form. fold pts. rewrite Hcur.
           f_equal. unfold Directory.slots.
           replace (Z.to_nat (Z.max 0 p - 0)) with (Z.to_nat (p - 0)) by lia.
           apply map_ext. intros i. reflexivity.
        -- apply Forall_forall. intros x Hx. destruct (Hnum x Hx) as (En & _).
           rewrite En. discriminate.
      * rewrite length_map. unfold Directory.slots. rewrite length_slotsN. f_equal. lia.
      * intros i Hi. rewrite nth_error_map. unfold Directory.slots.
        rewrite nth_error_slotsN by lia. cbn [option_map]. do 2 f_equal. lia.
      * intros e He. apply in_map_iff in He.
        destruct He as (i & <- & Hi). apply Directory.In_slots in Hi.
        cbn [entry_name entry]. intros E.
        apply (Directory.frame_name_inj i p) in E; [lia | lia | lia].
  - intros t size. split; reflexivity.
Qed.

(** A capture with a dropped frame: the frame rate is 20.0f, and the frame
    numbers are 0, 1, 1, 3 and 4. *)
Definition gap_capture : list Timestamp := [0; 33333333; 66666666; 166666666; 200000000].

(** Witness for C1: the capture with a dropped frame gives four entries.
    The third frame finds the cursor on its own number and fills no slot;
    the fourth fills slots 1 and 2; slot 4 of the last frame is not
    emitted. *)
Lemma C1_witness :
  addVideoFrames gap_capture 0 (calculateFrameRate gap_capture) 4096 0
  = Some [ {| entry_type := FILE_ENTRY; entry_size := 4096;
              entry_name := "frame-000000.dng"; entry_userData := Some 33333333 |};
           {| entry_type := FILE_ENTRY; entry_size := 4096;
              entry_name := "frame-000001.dng"; entry_userData := Some 166666666 |};
           {| entry_type := FILE_ENTRY; entry_size := 4096;
              entry_name := "frame-000002.dng"; entry_userData := Some 166666666 |};
           {| entry_type := FILE_ENTRY; entry_size := 4096;
              entry_name := "frame-000003.dng"; entry_userData := Some 200000000 |} ].
Proof.
  destruct (proj1 C1_frame_entries_fill_gaps_below_last_slot
              0 (tl gap_capture) (calculateFrameRate gap_capture) 4096 4)
    as (_ & _ & _ & entries & E & L & N & _).
  - unfold gap_capture. cbn [tl].
    repeat (apply Sorted_cons; [|first [apply HdRel_nil | apply HdRel_cons; lia]]).
    apply Sorted_nil.
  - vm_compute. discriminate.
  - vm_compute. reflexivity.
  - vm_compute. discriminate.
  - change (0 :: tl gap_capture) with gap_capture in E. rewrite E. f_equal.
    pose proof (N 0 ltac:(lia)) as N0. pose proof (N 1 ltac:(lia)) as N1.
    pose proof (N 2 ltac:(lia)) as N2. pose proof (N 3 ltac:(lia)) as N3.
    change (Z.to_nat 4) with 4%nat in L.
    destruct entries as [|e0 [|e1 [|e2 [|e3 [|e4 more]]]]]; try discriminate L.
    vm_compute in N0, N1, N2, N3.
    apply (f_equal (fun o => match o with Some v => v | None => e0 end)) in N0, N1, N2, N3.
    cbv beta iota in N0, N1, N2, N3. rewrite N0, N1, N2, N3. reflexivity.
Defined.

(** ** C2, C5, C6, C10: syncAudio *)

(** C2 (as stated, refuted): in the trim branch the first remaining chunk
    does not carry the video timestamp.  With the video at 0 and the audio
    starting 100 ms later (48 kHz stereo, chunks of 1000 samples), nine
    chunks are erased and the tenth is shortened; its timestamp stays on
    the audio time line (193 750 006), it is not 0. *)
Lemma C2_trim_branch_keeps_audio_timestamps :
  ~ (forall vt chunks sampleRate numChannels out,
       chunks <> [] ->
       syncAudio vt chunks sampleRate numChannels = Some out ->
       exists c rest, out = c :: rest /\ fst c = vt).
Proof.
  intros H.
  destruct (H 0 Sync.scenario4_chunks 48000 2
              ((193750006, repeat 0 400)
               :: skipn 10 Sync.scenario4_chunks))
    as (c & rest & E & Hc).
  - discriminate.
  - vm_compute. reflexivity.
  - injection E as <- _. simpl in Hc. discriminate Hc.
Qed.

(** C2 (amended): when [syncAudio] inserts silence (the first chunk is not
    later than the video) the first chunk of the result is the new silence
    chunk and its timestamp is exactly the video timestamp, the original
    chunks follow with their samples; when it trims (the first chunk is
    later) the result is empty or starts with an original chunk, whole or
    without a prefix of its samples, on its own time line.  Both results
    exist as soon as the frame count fits [int] (and, for the silence,
    the shifted timestamps fit [int64_t]). *)
Theorem C2_first_chunk_after_sync
    (vt first : Timestamp) (s0 : list Z) (tl : list AudioChunk)
    (sampleRate numChannels n : Z) :
  let chunks := (first, s0) :: tl in
  let drift := audioVideoDriftMs vt first in
  (F32.gt drift (F32.of_Z 0) = false ->
   framesOfDuration (F32.opp drift) sampleRate = Some n ->
   0 <= wrap32 (n * numChannels) ->
   Forall (fun c => shiftTimestamp (fst c) (F32.opp drift) <> None) chunks ->
   exists silence shifted,
     syncAudio vt chunks sampleRate numChannels = Some ((vt, silence) :: shifted) /\
     map snd shifted = map snd chunks) /\
  (F32.gt drift (F32.of_Z 0) = true ->
   framesOfDuration drift sampleRate = Some n ->
   sampleRate <> 0 ->
   exists out,
     syncAudio vt chunks sampleRate numChannels = Some out /\
     (out = [] \/
      exists erased ts samples rest j,
        chunks = erased ++ (ts, samples) :: rest /\
        ((j = 0 /\ out = (ts, samples) :: rest) \/
         (0 < j < Z.of_nat (List.length samples) /\
          out = (wrap64 (ts + Z.quot (wrap32 (j * 1000)) sampleRate),
                 skipn (Z.to_nat j) samples) :: rest)))).
Proof.
  intros chunks drift. split.
  - intros Hgt Hn Hpos Hshift.
    destruct (Sync.shiftTimestamps_defined chunks (F32.opp drift) Hshift) as [shifted E].
    exists (repeat 0 (Z.to_nat (wrap32 (n * numChannels)))), shifted.
    split; [|apply (Sync.shiftTimestamps_samples _ _ _ E)].
    unfold syncAudio, chunks. fold drift. rewrite Hgt, Hn.
    destruct (Z.ltb_spec (wrap32 (n * numChannels)) 0); [lia|].
    fold chunks. rewrite E. reflexivity.
  - intros Hgt Hn Hsr.
    destruct (Sync.trimLoop_Trimmed sampleRate (wrap32 (n * numChannels)) Hsr
                (proj2 (Sync.wrap32_range _)) chunks 0 (Z.le_refl 0)) as (out & E & T).
    exists out. split.
    + unfold syncAudio, chunks. fold drift. rewrite Hgt, Hn. exact E.
    + apply (Sync.Trimmed_shape _ _ _ _ T).
Qed.

(** Witness for C2: audio 50 ms before the video. *)
Lemma C2_witness :
  exists silence shifted,
    syncAudio 50000000 [(0, [1; 2]); (20000000, [3; 4])] 48000 2 =
      Some ((50000000, silence) :: shifted) /\
    map snd shifted = [[1; 2]; [3; 4]].
Proof.
  refine (proj1 (C2_first_chunk_after_sync 50000000 0 [1; 2] [(20000000, [3; 4])]
                   48000 2 2400) _ _ _ _).
  - vm_compute. reflexivity.
  - vm_compute. reflexivity.
  - vm_compute. discriminate.
  - repeat constructor; vm_compute; discriminate.
Defined.

(** C5 (as stated, refuted): the trim stops at the end of the audio.  Audio
    2 ms late at 1 kHz mono asks for 2 samples; a capture holding a single
    sample loses that one sample only. *)
Lemma C5_short_audio_loses_fewer_samples :
  ~ (forall vt first s0 tl sampleRate numChannels n out,
       F32.gt (audioVideoDriftMs vt first) (F32.of_Z 0) = true ->
       framesOfDuration (audioVideoDriftMs vt first) sampleRate = Some n ->
       syncAudio vt ((first, s0) :: tl) sampleRate numChannels = Some out ->
       Z.of_nat (List.length (Sync.flat out)) =
       Z.of_nat (List.length (Sync.flat ((first, s0) :: tl))) - n * numChannels).
Proof.
  intros H.
  specialize (H 0 2000000 [7] [] 1000 1 2 []).
  vm_compute in H.
  specialize (H eq_refl eq_refl eq_refl). discriminate H.
Qed.

(** C5 (amended): when the first audio chunk starts after the video and
    the frame count N = round(drift_ms * sample_rate / 1000) fits [int],
    [syncAudio] removes the first N * channels samples of the audio, or
    all of them when the audio holds fewer: whole chunks of at most the
    remaining trim are erased, then a prefix of the next chunk is erased
    and its timestamp advanced.  For audio 100 ms late at 48 kHz stereo,
    N * channels = 9600. *)
Theorem C5_trim_removes_leading_samples :
  (forall (vt first : Timestamp) (s0 : list Z) (tl : list AudioChunk)
          (sampleRate numChannels n : Z),
     let chunks := (first, s0) :: tl in
     let total := Z.of_nat (List.length (Sync.flat chunks)) in
     F32.gt (audioVideoDriftMs vt first) (F32.of_Z 0) = true ->
     framesOfDuration (audioVideoDriftMs vt first) sampleRate = Some n ->
     sampleRate <> 0 ->
     in_int (n * numChannels) ->
     exists out,
       syncAudio vt chunks sampleRate numChannels = Some out /\
       Sync.Trimmed sampleRate (n * numChannels) chunks out /\
       Sync.flat out = skipn (Z.to_nat (n * numChannels)) (Sync.flat chunks) /\
       Z.of_nat (List.length (Sync.flat out)) =
         total - Z.min (Z.max 0 (n * numChannels)) total) /\
  (forall vt : Timestamp,
     F32.gt (audioVideoDriftMs vt (vt + 100000000)) (F32.of_Z 0) = true /\
     framesOfDuration (audioVideoDriftMs vt (vt + 100000000)) 48000 = Some 4800 /\
     4800 * 2 = 9600).
Proof.
  split.
  - intros vt first s0 tl sampleRate numChannels n chunks total Hgt Hn Hsr Hfit.
    destruct (Sync.trimLoop_Trimmed sampleRate (n * numChannels) Hsr
                (proj2 Hfit) chunks 0 (Z.le_refl 0)) as (out & E & T).
    rewrite Z.sub_0_r in T.
    pose proof (Sync.Trimmed_flat _ _ _ _ T) as F.
    exists out. split; [|split; [exact T | split; [exact F|]]].
    + unfold syncAudio, chunks. rewrite Hgt, Hn, wrap32_id by exact Hfit. exact E.
    + rewrite F, length_skipn. unfold total. lia.
  - intros vt. unfold audioVideoDriftMs.
    replace (vt + 100000000 - vt) with 100000000 by lia.
    repeat split; vm_compute; reflexivity.
Qed.

(** Witness for C5: scenario 4 of the specification, twelve chunks of 1000
    samples; 9600 of the 12000 samples go. *)
Lemma C5_witness :
  exists out,
    syncAudio 0 Sync.scenario4_chunks 48000 2 = Some out /\
    Sync.Trimmed 48000 9600 Sync.scenario4_chunks out /\
    Sync.flat out = skipn 9600 (Sync.flat Sync.scenario4_chunks) /\
    Z.of_nat (List.length (Sync.flat out)) = 2400.
Proof.
  refine ((proj1 C5_trim_removes_leading_samples) 0 100000000 (repeat 0 1000)
            (skipn 1 Sync.scenario4_chunks) 48000 2 4800 _ _ _ _).
  - vm_compute. reflexivity.
  - vm_compute. reflexivity.
  - discriminate.
  - vm_compute. split; discriminate.
Defined.

(** C6 (code bug): with the audio 50 ms before the video the silence chunk
    is right (4800 zero samples at the video timestamp), but the original
    chunks are shifted by 50 - the duration in milliseconds - and not by
    50 000 000 ns: they end at 50 and 20 000 050. *)
Theorem C6_silence_shift_is_in_milliseconds :
  syncAudio 50000000 [(0, [1; 2]); (20000000, [3; 4])] 48000 2 =
    Some [(50000000, repeat 0 4800); (50, [1; 2]); (20000050, [3; 4])]
  /\ 0 + 50000000 <> 50 /\ 20000000 + 50000000 <> 20000050.
Proof. split; [vm_compute; reflexivity | split; discriminate]. Qed.

(** C10 (code bug): at zero drift the silence branch is taken and an empty
    chunk with the video timestamp is prepended, but the timestamps of the
    original chunks pass through [float]: 1 000 000 001 becomes
    1 000 000 000 and 1 020 833 334 becomes 1 020 833 344. *)
Theorem C10_zero_drift_rounds_timestamps :
  F32.gt (audioVideoDriftMs 1000000001 1000000001) (F32.of_Z 0) = false /\
  syncAudio 1000000001 [(1000000001, [1; 2]); (1020833334, [3; 4])] 48000 2 =
    Some [(1000000001, []); (1000000000, [1; 2]); (1020833344, [3; 4])].
Proof. split; vm_compute; reflexivity. Qed.

(** ** C3: asynchronous image reads *)

(** C3 (as stated, refuted): a read at or past the end of the encoded image
    is not completed as [result(0, 0)].  With an encoder that yields ten
    bytes, a read at [pos = 10] completes as [result(0, -1)]. *)
Lemma C3_read_at_end_is_not_a_success :
  ~ (forall (generateDng : unit -> unit -> unit -> spec_float -> Z ->
                           FileRenderOptions -> Z -> outcome (option (list Byte.byte)))
            (dng : list Byte.byte) (pos len : Z),
       generateDng tt tt tt F32.zero 0 0 1 = Ok (Some dng) ->
       Z.of_nat (List.length dng) <= pos ->
       generateTask 1 unit unit unit generateDng (Ok (0, tt, tt, tt)) F32.zero 1 0 pos len
       = Ok (0, 0, [])).
Proof.
  intros H.
  specialize (H (fun _ _ _ _ _ _ _ => Ok (Some (repeat Byte.x00 10)))
                (repeat Byte.x00 10) 10 5 eq_refl).
  vm_compute in H. specialize (H ltac:(discriminate)). discriminate H.
Qed.

Section RenderClaims.

Variable RENDER_OPT_DRAFT : Z.
Variables RawData Json CameraConfiguration CameraFrameMetadata : Type.

Variable openDecoder : outcome (Decoder RawData Json).
Variable parseCameraConfiguration : Json -> outcome CameraConfiguration.
Variable parseCameraFrameMetadata : Json -> outcome CameraFrameMetadata.
Variable generateDng :
  RawData -> CameraFrameMetadata -> CameraConfiguration ->
  spec_float -> Z -> FileRenderOptions -> Z -> outcome (option (list Byte.byte)).

Let decode := decodeTask RawData Json CameraConfiguration CameraFrameMetadata
                openDecoder parseCameraConfiguration parseCameraFrameMetadata.
Let task := generateTask RENDER_OPT_DRAFT RawData CameraConfiguration CameraFrameMetadata
              generateDng.
Let frame := generateFrame RENDER_OPT_DRAFT RawData Json CameraConfiguration
               CameraFrameMetadata openDecoder parseCameraConfiguration
               parseCameraFrameMetadata generateDng.

Lemma findIndex_not_In (t : Timestamp) (l : list Timestamp) : forall i,
  ~ In t l -> findIndex t l i = None.
Proof.
  induction l as [|y l IH]; intros i N; simpl; [reflexivity|].
  destruct (Z.eqb_spec y t) as [-> | _].
  - exfalso. apply N. left. reflexivity.
  - apply IH. intros C. apply N. right. exact C.
Qed.

(** C3 (amended): the dispatch returns 0 at once.  Every fault of stage 1
    or stage 2 that is raised as a [std::runtime_error] - in particular a
    frame that the decoder does not list, a decoder error, an encoder
    error - completes the read as [result(0, -1)].  A read at or past the
    end of the encoded image, and an encoder that returns no image, also
    complete as [result(0, -1)] with no byte copied; a read inside the
    image completes as [result(min(len, size - pos), 0)]. *)
Theorem C3_faults_complete_as_zero_bytes_status_minus_1
    (this : VirtualFileSystemImpl_MCRAW) (decoders : option (Decoder RawData Json)) (entry : Entry)
    (options : FileRenderOptions) (pos len : Z) :
  let completion := snd (frame this decoders entry options pos len) in
  fst (frame this decoders entry options pos len) = 0 /\
  (forall what, decode decoders entry = Throws (runtime_error what) ->
     completion = Ok (0, - 1, [])) /\
  (forall t d, entry_userData entry = Some t ->
     match decoders with Some c => Ok c | None => openDecoder end = Ok d ->
     ~ In t (getFrames RawData Json d) ->
     completion = Ok (0, - 1, [])) /\
  (forall index config meta raw,
     decode decoders entry = Ok (index, config, meta, raw) ->
     let encoded := generateDng raw meta config (mFps this) index options
                      (getScaleFromOptions RENDER_OPT_DRAFT options (mDraftScale this)) in
     (forall what, encoded = Throws (runtime_error what) -> completion = Ok (0, - 1, [])) /\
     (encoded = Ok None -> completion = Ok (0, - 1, [])) /\
     (forall dng, encoded = Ok (Some dng) ->
        (Z.of_nat (List.length dng) <= pos -> completion = Ok (0, - 1, [])) /\
        (pos < Z.of_nat (List.length dng) ->
         completion =
           Ok (Z.min len (Z.of_nat (List.length dng) - pos), 0,
               firstn (Z.to_nat (Z.min len (Z.of_nat (List.length dng) - pos)))
                      (skipn (Z.to_nat pos) dng))))).
Proof.
  intros completion. unfold completion, frame, generateFrame. simpl fst. simpl snd.
  fold decode.
  split; [reflexivity|]. split; [|split].
  - intros what E. unfold generateTask. rewrite E. reflexivity.
  - intros t d Ht Hd Hn. unfold generateTask.
    assert (E : decode decoders entry = Throws (runtime_error "Failed to find frame")).
    { unfold decode, decodeTask. rewrite Ht. simpl. rewrite Hd. simpl.
      rewrite (findIndex_not_In t _ 0 Hn). reflexivity. }
    rewrite E. reflexivity.
  - intros index config meta raw E. cbv zeta. unfold generateTask. rewrite E. simpl.
    split; [|split].
    + intros what Ee. rewrite Ee. reflexivity.
    + intros Ee. rewrite Ee. reflexivity.
    + intros dng Ee. rewrite Ee. simpl. split; intros Hp.
      * destruct (Z.ltb_spec pos (Z.of_nat (List.length dng))); [lia | reflexivity].
      * destruct (Z.ltb_spec pos (Z.of_nat (List.length dng))); [reflexivity | lia].
Qed.

End RenderClaims.

(** Witness for C3: a decoder listing frames 0 and 33 333 333, and an entry
    that points at frame 5. *)
Lemma C3_witness :
  snd (generateFrame 1 unit unit unit unit
         (Ok (mkDecoder unit unit [0; 33333333] (fun _ => Ok (tt, tt)) tt (Ok []) 48000 2))
         (fun _ => Ok tt) (fun _ => Ok tt)
         (fun _ _ _ _ _ _ _ => Ok (Some [Byte.x00]))
         (mkVFS [] [] 0 F32.zero 1) None (frameEntry 4096 0 5) 0 0 16)
  = Ok (0, - 1, []).
Proof.
  refine (proj1 (proj2 (proj2
    (C3_faults_complete_as_zero_bytes_status_minus_1 1 unit unit unit unit
       (Ok (mkDecoder unit unit [0; 33333333] (fun _ => Ok (tt, tt)) tt (Ok []) 48000 2))
       (fun _ => Ok tt) (fun _ => Ok tt)
       (fun _ _ _ _ _ _ _ => Ok (Some [Byte.x00]))
       (mkVFS [] [] 0 F32.zero 1) None (frameEntry 4096 0 5) 0 0 16)))
    5 _ _ _ _).
  - reflexivity.
  - reflexivity.
  - simpl. intros [H | [H | []]]; discriminate H.
Defined.

(** ** C7: an empty frame list *)

Section InitClaims.

Variable RENDER_OPT_DRAFT : Z.
Variables RawData Json CameraConfiguration CameraFrameMetadata : Type.
Variable parseCameraConfiguration : Json -> outcome CameraConfiguration.
Variable parseCameraFrameMetadata : Json -> outcome CameraFrameMetadata.
Variable generateDng :
  RawData -> CameraFrameMetadata -> CameraConfiguration ->
  spec_float -> Z -> FileRenderOptions -> Z -> outcome (option (list Byte.byte)).
Variable writeAudio :
  list Byte.byte -> Z -> Z -> spec_float -> list AudioChunk -> outcome (list Byte.byte).
Variable desktopIni : option (list Byte.byte).

(** C7 (code bug): when the decoder yields no frame, [init] returns before
    it clears anything.  A freshly constructed object has an empty
    directory and fps 0; but [updateOptions] on a populated object returns
    normally and leaves the previous directory and the previous fps in
    place - only [mDraftScale] changes. *)
Theorem C7_empty_frame_list_keeps_previous_directory
    (decoder : Decoder RawData Json) (options : FileRenderOptions) (draftScale : Z)
    (this : VirtualFileSystemImpl_MCRAW) :
  getFrames RawData Json decoder = [] ->
  construct RENDER_OPT_DRAFT RawData Json CameraConfiguration CameraFrameMetadata
    (Ok decoder) parseCameraConfiguration parseCameraFrameMetadata generateDng
    writeAudio desktopIni options draftScale
  = Ok (mkVFS [] [] 0 F32.zero draftScale) /\
  updateOptions RENDER_OPT_DRAFT RawData Json CameraConfiguration CameraFrameMetadata
    (Ok decoder) parseCameraConfiguration parseCameraFrameMetadata generateDng
    writeAudio desktopIni options draftScale this
  = Ok (mkVFS (mFiles this) (mAudioFile this) (mTypicalDngSize this) (mFps this) draftScale).
Proof.
  intros E. unfold construct, updateOptions, init. simpl. rewrite E. simpl.
  split; reflexivity.
Qed.

End InitClaims.

(** Witness for C7, the failing input: an object that holds the two image
    entries of a 30 fps capture keeps them, and its fps of 30, when the
    options are updated while the decoder yields no frame. *)
Lemma C7_witness :
  let populated :=
    mkVFS [frameEntry 4096 0 33333333; frameEntry 4096 1 66666666] [] 4096
          (calculateFrameRate [0; 33333333; 66666666]) 1 in
  let empty := mkDecoder unit unit [] (fun _ => Ok (tt, tt)) tt (Ok []) 48000 2 in
  exists after,
    updateOptions 1 unit unit unit unit (Ok empty) (fun _ => Ok tt) (fun _ => Ok tt)
      (fun _ _ _ _ _ _ _ => Ok (Some [Byte.x00])) (fun a _ _ _ _ => Ok a) None
      0 2 populated = Ok after /\
    mFiles after = [frameEntry 4096 0 33333333; frameEntry 4096 1 66666666] /\
    mFiles after <> [] /\
    F32.gt (mFps after) F32.zero = true.
Proof.
  intros populated empty.
  eexists. split; [|split; [|split]].
  - refine (proj2 (C7_empty_frame_list_keeps_previous_directory 1 unit unit unit unit
                     (fun _ => Ok tt) (fun _ => Ok tt)
                     (fun _ _ _ _ _ _ _ => Ok (Some [Byte.x00])) (fun a _ _ _ _ => Ok a) None
                     empty 0 2 populated _)).
    reflexivity.
  - reflexivity.
  - discriminate.
  - vm_compute. reflexivity.
Defined.

(** ** C8: the fmt chunk parser *)

(** The legal formats: plain PCM, or extensible with extra data whose
    subformat is 1. *)
Definition legalFormat (f : Bw64.FormatFields) : Prop :=
  Bw64.f_formatTag f = 1 \/
  (Bw64.f_formatTag f = 65534 /\
   exists e, Bw64.f_extraData f = Some e /\ Bw64.subFormat e = 1).

Lemma legalFormat_dec (f : Bw64.FormatFields) : {legalFormat f} + {~ legalFormat f}.
Proof.
  unfold legalFormat.
  destruct (Z.eq_dec (Bw64.f_formatTag f) 1) as [T1 | T1]; [left; left; exact T1|].
  destruct (Z.eq_dec (Bw64.f_formatTag f) 65534) as [TE | TE].
  - destruct (Bw64.f_extraData f) as [e|].
    + destruct (Z.eq_dec (Bw64.subFormat e) 1) as [S1 | S1].
      * left. right. split; [exact TE | exists e; auto].
      * right. intros [H | (_ & e' & [= <-] & H)]; contradiction.
    + right. intros [H | (_ & e' & H & _)]; [contradiction | discriminate H].
  - right. intros [H | (H & _)]; contradiction.
Qed.

(** An illegal format is refused, whatever the other fields hold. *)
Lemma checkFormatFields_illegal constructorRejects (f : Bw64.FormatFields) :
  ~ legalFormat f ->
  exists what, Bw64.checkFormatFields constructorRejects f = Throws (runtime_error what).
Proof.
  intros N. unfold Bw64.checkFormatFields.
  destruct (negb (Bw64.f_cbSize f =? 0) && negb (Bw64.f_cbSize f =? 22));
    [eexists; reflexivity|].
  destruct (Z.eqb_spec (Bw64.f_formatTag f) 1) as [T1 | T1].
  { exfalso. apply N. left. exact T1. }
  destruct (Z.eqb_spec (Bw64.f_formatTag f) 65534) as [TE | TE]; simpl;
    [|eexists; reflexivity].
  destruct (Bw64.f_extraData f) as [e|] eqn:Ee; [|eexists; reflexivity].
  destruct (Z.eqb_spec (Bw64.subFormat e) 1) as [S1 | S1]; [|eexists; reflexivity].
  exfalso. apply N. right. split; [exact TE | exists e; auto].
Qed.

(** A legal format passes the tag checks; the result is decided by the
    remaining checks. *)
Lemma checkFormatFields_legal constructorRejects (f : Bw64.FormatFields) :
  legalFormat f ->
  Bw64.checkFormatFields constructorRejects f =
  let chunk := Bw64.mkFormatInfoChunk (Bw64.f_channelCount f) (Bw64.f_sampleRate f)
                 (Bw64.f_bitsPerSample f) (Bw64.f_extraData f) in
  if negb (Bw64.f_cbSize f =? 0) && negb (Bw64.f_cbSize f =? 22)
  then Throws (runtime_error "unsupported cbSize")
  else match constructorRejects (Bw64.f_channelCount f) (Bw64.f_sampleRate f)
               (Bw64.f_bitsPerSample f) (Bw64.f_extraData f) with
       | Some e => Throws e
       | None =>
           if negb (Bw64.blockAlignment chunk =? Bw64.f_blockAlignment f)
           then Throws (runtime_error "sanity check failed. 'blockAlignment'")
           else if negb (Bw64.bytesPerSecond chunk =? Bw64.f_bytesPerSecond f)
           then Throws (runtime_error "sanity check failed. 'bytesPerSecond'")
           else Ok chunk
       end.
Proof.
  intros L. unfold Bw64.checkFormatFields. cbv zeta.
  destruct (negb (Bw64.f_cbSize f =? 0) && negb (Bw64.f_cbSize f =? 22)); [reflexivity|].
  destruct L as [T1 | (TE & e & Ee & S1)].
  - rewrite T1. reflexivity.
  - rewrite TE, Ee, S1. reflexivity.
Qed.

(** C8: for a 'fmt ' chunk of a legal size whose fields can be read, the
    parser succeeds only for format tag 1 and for format tag 0xFFFE with
    extra data of subformat 1; every other tag, and tag 0xFFFE without
    extra data or with another subformat, fails with an error.  A legal
    format is accepted exactly when the remaining checks (cbSize, the
    chunk constructor, block alignment, bytes per second) pass. *)
Theorem C8_only_pcm_and_extensible_pcm_are_accepted
    (constructorRejects : Z -> Z -> Z -> option Bw64.ExtraData -> option exn)
    (stream rest : Bw64.Stream) (size : Z) (f : Bw64.FormatFields) :
  size = 16 \/ size = 18 \/ size = 40 ->
  Bw64.readFormatFields stream size = Ok (f, rest) ->
  let parsed := Bw64.parseFormatInfoChunk constructorRejects stream Bw64.fourCC_fmt size in
  let chunk := Bw64.mkFormatInfoChunk (Bw64.f_channelCount f) (Bw64.f_sampleRate f)
                 (Bw64.f_bitsPerSample f) (Bw64.f_extraData f) in
  (forall c r, parsed = Ok (c, r) -> legalFormat f /\ c = chunk /\ r = rest) /\
  (~ legalFormat f -> exists what, parsed = Throws (runtime_error what)) /\
  (legalFormat f ->
   Bw64.f_cbSize f = 0 \/ Bw64.f_cbSize f = 22 ->
   constructorRejects (Bw64.f_channelCount f) (Bw64.f_sampleRate f)
     (Bw64.f_bitsPerSample f) (Bw64.f_extraData f) = None ->
   Bw64.blockAlignment chunk = Bw64.f_blockAlignment f ->
   Bw64.bytesPerSecond chunk = Bw64.f_bytesPerSecond f ->
   parsed = Ok (chunk, rest)).
Proof.
  intros Hsize Hread parsed chunk.
  assert (P : parsed = (c <- Bw64.checkFormatFields constructorRejects f ;; Ok (c, rest))).
  { unfold parsed, Bw64.parseFormatInfoChunk. rewrite Z.eqb_refl. simpl negb.
    replace (negb (size =? 16) && negb (size =? 18) && negb (size =? 40)) with false
      by (destruct Hsize as [-> | [-> | ->]]; reflexivity).
    cbv iota. rewrite Hread. reflexivity. }
  rewrite P. clear P parsed Hread Hsize.
  split; [|split].
  - intros c r E.
    destruct (legalFormat_dec f) as [L | N].
    + split; [exact L|].
      rewrite (checkFormatFields_legal _ _ L) in E. cbv zeta in E. fold chunk in E.
      destruct (negb (Bw64.f_cbSize f =? 0) && negb (Bw64.f_cbSize f =? 22));
        [discriminate E|].
      destruct (constructorRejects _ _ _ _); [discriminate E|].
      destruct (negb (Bw64.blockAlignment chunk =? Bw64.f_blockAlignment f));
        [discriminate E|].
      destruct (negb (Bw64.bytesPerSecond chunk =? Bw64.f_bytesPerSecond f));
        [discriminate E|].
      simpl in E. injection E as <- <-. split; reflexivity.
    + destruct (checkFormatFields_illegal constructorRejects f N) as [what W].
      rewrite W in E. discriminate E.
  - intros N. destruct (checkFormatFields_illegal constructorRejects f N) as [what W].
    exists what. rewrite W. reflexivity.
  - intros L Hc Hr Hb Hs.
    rewrite (checkFormatFields_legal _ _ L). cbv zeta. fold chunk.
    rewrite Hr, Hb, Hs, !Z.eqb_refl.
    destruct Hc as [-> | ->]; reflexivity.
Qed.

(** Witness for C8: a 16-byte PCM chunk, stereo 16 bit at 48 kHz. *)
Lemma C8_witness :
  let pcm := [Byte.x01; Byte.x00; Byte.x02; Byte.x00; Byte.x80; Byte.xbb; Byte.x00;
              Byte.x00; Byte.x00; Byte.xee; Byte.x02; Byte.x00; Byte.x04; Byte.x00;
              Byte.x10; Byte.x00] in
  Bw64.parseFormatInfoChunk (fun _ _ _ _ => None) pcm Bw64.fourCC_fmt 16
  = Ok (Bw64.mkFormatInfoChunk 2 48000 16 None, []).
Proof.
  intros pcm.
  refine (proj2 (proj2 (C8_only_pcm_and_extensible_pcm_are_accepted
            (fun _ _ _ _ => None) pcm [] 16
            (Bw64.mkFormatFields 1 2 48000 192000 4 16 0 None) _ _)) _ _ _ _ _).
  - left. reflexivity.
  - reflexivity.
  - left. reflexivity.
  - left. reflexivity.
  - reflexivity.
  - reflexivity.
  - reflexivity.
Defined.

(** ** Bw64Reader::read *)

Lemma length_decodeLoop (n bytesPerSample : nat) (bitsPerSample : Z)
    (inBuffer : list Byte.byte) :
  List.length (Bw64.decodeLoop n bytesPerSample bitsPerSample inBuffer) = n.
Proof.
  revert inBuffer. induction n as [|n IH]; intros inBuffer; simpl.
  - reflexivity.
  - rewrite IH. reflexivity.
Qed.

Lemma wrapU64_id (x : Z) : 0 <= x < 2 ^ 64 -> wrapU64 x = x.
Proof. intros H. unfold wrapU64. apply Z.mod_small. exact H. Qed.

(** The reader of the failing input of C9: a data chunk of two stereo
    16-bit frames whose header is at offset 0, positioned on frame 1. *)
Definition two_frame_reader : Bw64.Bw64Reader :=
  Bw64.mkReader
    [Byte.x00; Byte.x00; Byte.x00; Byte.x00; Byte.x00; Byte.x00; Byte.x00; Byte.x00;
     Byte.x01; Byte.x00; Byte.xff; Byte.xff; Byte.x00; Byte.x80; Byte.xff; Byte.x7f]
    12 0 8 2 16.

(** C9: [read(outBuffer, n)] clamps [n] to the frames left only while
    [tell() + n] does not wrap around in [uint64_t].  On a reader with two
    frames, positioned on frame 1, a request for 5 frames returns 1 and
    decodes one stereo frame over the head of the buffer, but a request for
    2^64 - 1 frames is not clamped and ends in an exception, whatever the
    largest buffer size is.  Without the wrap-around, on a frame boundary
    inside the data chunk, [read] returns [min n (numberOfFrames - tell)],
    decodes that many frames, stays inside the data chunk, and at the end
    returns 0 and leaves the buffer untouched. *)
Theorem C9_read_clamps_unless_the_sum_wraps :
  (Bw64.tell two_frame_reader = Ok 1 /\
   Bw64.numberOfFrames two_frame_reader = Ok 2 /\
   (forall max_size buf,
      4 <= max_size ->
      exists r' l r,
        Bw64.read max_size two_frame_reader buf 5
        = Ok (1, r', [l; r] ++ skipn 2 buf) /\ Bw64.tell r' = Ok 2) /\
   (forall max_size buf,
      exists e, Bw64.read max_size two_frame_reader buf (2 ^ 64 - 1) = Throws e)) /\
  (forall max_size r buf n t ba,
     0 < Bw64.channels r <= 65535 ->
     Bw64.bitDepth r = 16 \/ Bw64.bitDepth r = 24 \/ Bw64.bitDepth r = 32 ->
     ba = Bw64.channels r * (Bw64.bitDepth r / 8) ->
     ba <= 65535 ->
     0 <= Bw64.dataSize r < 2 ^ 64 ->
     0 <= Bw64.dataPosition r ->
     0 <= t <= Bw64.dataSize r / ba ->
     Bw64.tellg r = Bw64.dataPosition r + 8 + t * ba ->
     Bw64.tellg r < 2 ^ 64 ->
     0 <= n ->
     t + n < 2 ^ 64 ->
     let total := Bw64.dataSize r / ba in
     let ret := Z.min n (total - t) in
     Bw64.tell r = Ok t /\
     Bw64.numberOfFrames r = Ok total /\
     (ret = 0 -> Bw64.read max_size r buf n = Ok (0, r, buf)) /\
     (ret <> 0 ->
      ret * ba <= max_size ->
      Bw64.tellg r + ret * ba <= Z.of_nat (List.length (Bw64.fileBytes r)) ->
      exists decoded,
        Bw64.read max_size r buf n
        = Ok (ret,
              Bw64.mkReader (Bw64.fileBytes r) (Bw64.tellg r + ret * ba)
                (Bw64.dataPosition r) (Bw64.dataSize r) (Bw64.channels r) (Bw64.bitDepth r),
              decoded ++ skipn (List.length decoded) buf) /\
        Z.of_nat (List.length decoded) = ret * Bw64.channels r /\
        Bw64.tellg r + ret * ba <= Bw64.dataPosition r + 8 + Bw64.dataSize r)).
Proof.
  split.
  - split; [reflexivity|]. split; [reflexivity|]. split.
    + intros max_size buf Hmax.
      unfold Bw64.read. change (Bw64.tell two_frame_reader) with (@Ok Z 1).
      change (Bw64.numberOfFrames two_frame_reader) with (@Ok Z 2).
      change (Bw64.readerBlockAlignment two_frame_reader) with (@Ok Z 4).
      cbn [bind]. change (2 <? wrapU64 (1 + 5)) with true. cbv iota.
      change (wrapU64 (2 - 1)) with 1. change (1 =? 0) with false. cbv iota.
      change (wrapU64 (1 * 4)) with 4.
      destruct (Z.ltb_spec max_size 4) as [C | _]; [lia|].
      eexists _, _, _. split; reflexivity.
    + intros max_size buf.
      unfold Bw64.read. change (Bw64.tell two_frame_reader) with (@Ok Z 1).
      change (Bw64.numberOfFrames two_frame_reader) with (@Ok Z 2).
      change (Bw64.readerBlockAlignment two_frame_reader) with (@Ok Z 4).
      cbn [bind]. change (2 <? wrapU64 (1 + (2 ^ 64 - 1))) with false. cbv iota.
      change (2 ^ 64 - 1 =? 0) with false. cbv iota.
      change (wrapU64 ((2 ^ 64 - 1) * 4)) with 18446744073709551612.
      destruct (max_size <? 18446744073709551612); [eexists; reflexivity|].
      change (Z.of_nat (List.length (Bw64.fileBytes two_frame_reader))
              <? Bw64.tellg two_frame_reader + 18446744073709551612) with true.
      eexists; reflexivity.
  - intros max_size r buf n t ba Hch Hbits Hba Hba16 Hsize Hpos Ht Htellg Htop Hn Hsum
           total ret.
    assert (Hb8 : 2 <= Bw64.bitDepth r / 8 <= 4)
      by (destruct Hbits as [-> | [-> | ->]]; cbv; split; discriminate).
    assert (Hba0 : 2 * Bw64.channels r <= ba) by nia.
    assert (Hmul : Bw64.channels r * Bw64.bitDepth r / 8 = ba).
    { subst ba. destruct Hbits as [-> | [-> | ->]].
      - replace (Bw64.channels r * 16) with (Bw64.channels r * 2 * 8) by ring.
        rewrite Z.div_mul by discriminate. reflexivity.
      - replace (Bw64.channels r * 24) with (Bw64.channels r * 3 * 8) by ring.
        rewrite Z.div_mul by discriminate. reflexivity.
      - replace (Bw64.channels r * 32) with (Bw64.channels r * 4 * 8) by ring.
        rewrite Z.div_mul by discriminate. reflexivity. }
    assert (HBA : Bw64.readerBlockAlignment r = Ok ba).
    { unfold Bw64.readerBlockAlignment, wrapU32.
      rewrite Z.mod_small
        by (destruct Hbits as [-> | [-> | ->]]; lia).
      rewrite Hmul. destruct (Z.ltb_spec 65535 ba) as [C | _]; [lia | reflexivity]. }
    assert (Htot : total * ba <= Bw64.dataSize r).
    { unfold total. rewrite Z.mul_comm. apply Z.mul_div_le. lia. }
    assert (Htot0 : 0 <= total) by (unfold total; apply Z.div_pos; lia).
    assert (Htb : 0 <= t * ba) by (apply Z.mul_nonneg_nonneg; lia).
    assert (HT : Bw64.tell r = Ok t).
    { unfold Bw64.tell. rewrite HBA. cbn [bind]. unfold Bw64.divU64.
      destruct (Z.eqb_spec ba 0) as [C | _]; [lia|].
      rewrite Htellg.
      replace (Bw64.dataPosition r + 8 + t * ba - Bw64.dataPosition r) with (8 + t * ba)
        by ring.
      rewrite (wrapU64_id (8 + t * ba)) by lia.
      replace (8 + t * ba - 8) with (t * ba) by ring.
      rewrite wrapU64_id by lia.
      rewrite Z.div_mul by lia. reflexivity. }
    assert (HN : Bw64.numberOfFrames r = Ok total).
    { unfold Bw64.numberOfFrames. rewrite HBA. cbn [bind]. unfold Bw64.divU64.
      destruct (Z.eqb_spec ba 0) as [C | _]; [lia | reflexivity]. }
    assert (Hclamp : (if total <? wrapU64 (t + n) then wrapU64 (total - t) else n) = ret).
    { rewrite (wrapU64_id (t + n)) by lia.
      rewrite (wrapU64_id (total - t)) by (unfold total in *; nia).
      unfold ret. destruct (Z.ltb_spec total (t + n)); lia. }
    assert (Hret : 0 <= ret <= total - t) by (unfold ret, total in *; lia).
    assert (Hrb0 : 0 <= ret * ba) by (apply Z.mul_nonneg_nonneg; lia).
    assert (Hrb : (t + ret) * ba <= total * ba) by (apply Z.mul_le_mono_nonneg_r; lia).
    assert (Hrc0 : 0 <= ret * Bw64.channels r) by (apply Z.mul_nonneg_nonneg; lia).
    assert (Hrc : ret * Bw64.channels r <= ret * ba)
      by (apply Z.mul_le_mono_nonneg_l; lia).
    split; [exact HT|]. split; [exact HN|].
    unfold Bw64.read. rewrite HT, HN. cbn [bind]. cbv zeta. rewrite Hclamp.
    split.
    + intros ->. reflexivity.
    + intros Hnz Hmax Hfile.
      destruct (Z.eqb_spec ret 0) as [C | _]; [contradiction|].
      rewrite HBA. cbn [bind].
      rewrite (wrapU64_id (ret * ba)) by lia.
      destruct (Z.ltb_spec max_size (ret * ba)) as [C | _]; [lia|].
      destruct (Z.ltb_spec (Z.of_nat (List.length (Bw64.fileBytes r)))
                  (Bw64.tellg r + ret * ba)) as [C | _]; [lia|].
      rewrite (wrapU64_id (ret * Bw64.channels r)) by lia.
      unfold Bw64.decodePcmSamples.
      replace ((Bw64.bitDepth r =? 16) || (Bw64.bitDepth r =? 24) || (Bw64.bitDepth r =? 32))
        with true by (destruct Hbits as [-> | [-> | ->]]; reflexivity).
      cbn [bind].
      eexists. split; [reflexivity|]. split.
      * rewrite length_decodeLoop. apply Z2Nat.id. exact Hrc0.
      * lia.
Qed.

(** Witness for C9: the two-frame reader, asked for five frames from
    frame 1. *)
Lemma C9_witness :
  Bw64.tell two_frame_reader = Ok 1 /\
  Bw64.numberOfFrames two_frame_reader = Ok 2 /\
  exists decoded,
    Bw64.read 1024 two_frame_reader [] 5
    = Ok (1, Bw64.mkReader (Bw64.fileBytes two_frame_reader) 16 0 8 2 16,
          decoded ++ skipn (List.length decoded) []) /\
    Z.of_nat (List.length decoded) = 2.
Proof.
  pose proof (proj2 C9_read_clamps_unless_the_sum_wraps 1024 two_frame_reader [] 5 1 4)
    as H.
  cbv zeta in H.
  destruct H as (HT & HN & _ & H).
  - simpl. lia.
  - left. reflexivity.
  - reflexivity.
  - lia.
  - simpl. lia.
  - simpl. lia.
  - simpl. split; [lia | discriminate].
  - reflexivity.
  - simpl. lia.
  - lia.
  - lia.
  - split; [exact HT|]. split; [exact HN|].
    destruct H as (decoded & E & L & _).
    + discriminate.
    + simpl. lia.
    + simpl. lia.
    + exists decoded. split; [exact E | exact L].
Defined.

(** * Further properties of the code *)

(** ** VirtualFileSystemImpl_MCRAW.cpp: serving reads *)

(** [boost::ends_with(input, test)]. *)
Definition ends_with (input test : string) : bool :=
  (String.length test <=? String.length input)%nat &&
  String.eqb (substring (String.length input - String.length test) (String.length test) input)
             test.

(** What a call of [readFile] does: the value it returns, the bytes it has
    copied to [dst] when it returns, and the completion handed to [result]
    by the tasks it started, if it started any. *)
Record Served : Type := mkServed {
  returned : Z;
  copied : list Byte.byte;
  completed : option (outcome Completion)
}.

(** [generateAudio]: the value returned and the bytes copied to [dst];
    [result] is not used. *)
Definition generateAudio (this : VirtualFileSystemImpl_MCRAW) (pos len : Z)
  : Z * list Byte.byte :=
  let size := Z.of_nat (List.length (mAudioFile this)) in
  if pos <? size then
    let actualLen := Z.min len (size - pos) in
    (actualLen, firstn (Z.to_nat actualLen) (skipn (Z.to_nat pos) (mAudioFile this)))
  else (0, []).

Section Serving.

Variable RENDER_OPT_DRAFT : Z.
Variables RawData Json CameraConfiguration CameraFrameMetadata : Type.
Variable openDecoder : outcome (Decoder RawData Json).
Variable parseCameraConfiguration : Json -> outcome CameraConfiguration.
Variable parseCameraFrameMetadata : Json -> outcome CameraFrameMetadata.
Variable generateDng :
  RawData -> CameraFrameMetadata -> CameraConfiguration ->
  spec_float -> Z -> FileRenderOptions -> Z -> outcome (option (list Byte.byte)).

(** [DESKTOP_INI] when built for Windows, else [None]. *)
Variable desktopIni : option (list Byte.byte).

(** [readFile].  In the [desktop.ini] branch the length is computed in
    [size_t] and nothing keeps the copy inside the constant. *)
Definition readFile (this : VirtualFileSystemImpl_MCRAW)
    (decoders : option (Decoder RawData Json)) (entry : Entry)
    (options : FileRenderOptions) (pos len : Z) : outcome Served :=
  match (if String.eqb (entry_name entry) "desktop.ini" then desktopIni else None) with
  | Some ini =>
      let size := Z.of_nat (List.length ini) in
      let actualLen := Z.min len (wrapU64 (size - pos)) in
      if pos + actualLen <=? size
      then Ok (mkServed actualLen (firstn (Z.to_nat actualLen) (skipn (Z.to_nat pos) ini)) None)
      else Undefined
  | None =>
      if ends_with (entry_name entry) "wav" then
        let '(readBytes, bytes) := generateAudio this pos len in
        Ok (mkServed readBytes bytes None)
      else if ends_with (entry_name entry) "dng" then
        let '(ret, completion) :=
          generateFrame RENDER_OPT_DRAFT RawData Json CameraConfiguration CameraFrameMetadata
            openDecoder parseCameraConfiguration parseCameraFrameMetadata generateDng
            this decoders entry options pos len in
        Ok (mkServed ret [] (Some completion))
      else Ok (mkServed 0 [] (Some (Ok (0, - 1, []))))
  end.

End Serving.

(** *** Lists and strings *)

Lemma Ok_inj {A} (a b : A) : Ok a = Ok b -> a = b.
Proof.
  intros E.
  exact (f_equal (fun o => match o with Ok x => x | _ => a end) E).
Qed.

Lemma firstn_add {A} (n m : nat) (l : list A) :
  firstn (n + m) l = firstn n l ++ firstn m (skipn n l).
Proof.
  revert l. induction n as [|n IH]; intros l; simpl; [reflexivity|].
  destruct l as [|x l]; simpl.
  - rewrite firstn_nil. reflexivity.
  - rewrite IH. reflexivity.
Qed.

Lemma substring_all (s : string) : substring 0 (String.length s) s = s.
Proof. induction s as [|c s IH]; simpl; [reflexivity | rewrite IH; reflexivity]. Qed.

Lemma substring_append (s t : string) :
  substring (String.length s) (String.length t) (s ++ t) = t.
Proof. induction s as [|c s IH]; simpl; [apply substring_all | exact IH]. Qed.

(** Whether a string ends with [test] is decided by any of its suffixes
    that is at least as long as [test]. *)
Lemma ends_with_append (s t test : string) :
  (String.length test <= String.length t)%nat ->
  ends_with (s ++ t) test = ends_with t test.
Proof.
  intros H. unfold ends_with.
  rewrite Directory.length_append.
  replace (String.length test <=? String.length s + String.length t)%nat with true
    by (symmetry; apply Nat.leb_le; lia).
  replace (String.length test <=? String.length t)%nat with true
    by (symmetry; apply Nat.leb_le; lia).
  f_equal.
  replace (String.length s + String.length t - String.length test)%nat
    with (String.length s + (String.length t - String.length test))%nat by lia.
  generalize (String.length t - String.length test)%nat as k.
  generalize (String.length test) as m.
  induction s as [|c s IH]; intros m k; simpl; [reflexivity | apply IH].
Qed.

(** The name of an image entry: "frame-", digits, ".dng". *)
Lemma frame_name_shape (i : Z) :
  constructFrameFilename "frame-" i 6 "dng"
  = ("frame-" ++ (setw 6 "0" (string_of_Z i) ++ ".dng"))%string.
Proof. reflexivity. Qed.

Lemma frame_name_ends_with_dng (i : Z) :
  ends_with (constructFrameFilename "frame-" i 6 "dng") "dng" = true /\
  ends_with (constructFrameFilename "frame-" i 6 "dng") "wav" = false /\
  String.eqb (constructFrameFilename "frame-" i 6 "dng") "desktop.ini" = false /\
  constructFrameFilename "frame-" i 6 "dng" <> "audio.wav"%string.
Proof.
  rewrite frame_name_shape.
  split; [|split; [|split]].
  - rewrite ends_with_append by (rewrite Directory.length_append; simpl; lia).
    rewrite ends_with_append by (simpl; lia). reflexivity.
  - rewrite ends_with_append by (rewrite Directory.length_append; simpl; lia).
    rewrite ends_with_append by (simpl; lia). reflexivity.
  - reflexivity.
  - simpl. intros E. discriminate E.
Qed.

(** *** What the frame loop appends *)

Lemma In_duplicateFrames (n : nat) (size : Z) : forall lastPts x e,
  In e (duplicateFrames n size lastPts x) ->
  exists i, lastPts <= i < lastPts + Z.of_nat n /\ e = frameEntry size i x.
Proof.
  induction n as [|n IH]; intros lastPts x e H; simpl in H; [destruct H|].
  destruct H as [<- | H].
  - exists lastPts. split; [lia | reflexivity].
  - destruct (IH _ _ _ H) as (i & Hi & ->). exists i. split; [lia | reflexivity].
Qed.

(** The entries appended by the frame loop are named after the consecutive
    slots from the cursor on, and each carries one of the frames. *)
Lemma addVideoFrames_slots (t0 : Timestamp) (mFps : spec_float) (size : Z)
    (frames : list Timestamp) : forall lastPts es,
  addVideoFrames frames t0 mFps size lastPts = Some es ->
  exists hi,
    lastPts <= hi /\
    map entry_name es
    = map (fun i => constructFrameFilename "frame-" i 6 "dng") (Directory.slots lastPts hi) /\
    Forall (fun e => exists i x, lastPts <= i < hi /\ In x frames /\ e = frameEntry size i x) es.
Proof.
  induction frames as [|x rest IH]; intros lastPts es H; simpl in H.
  - injection H as <-. exists lastPts. split; [lia|]. split; [|constructor].
    unfold Directory.slots. replace (Z.to_nat (lastPts - lastPts)) with O by lia. reflexivity.
  - destruct (getFrameNumberFromTimestamp x t0 mFps) as [n|]; [|discriminate H].
    destruct (addVideoFrames rest t0 mFps size (Z.max lastPts (wrap32 n))) as [es'|] eqn:E;
      [|discriminate H].
    injection H as <-.
    destruct (IH _ _ E) as (hi & Hhi & Hnames & Hall).
    exists hi. split; [lia|]. split.
    + rewrite (Directory.slots_app lastPts (Z.max lastPts (wrap32 n)) hi) by lia.
      rewrite !map_app, Hnames. f_equal.
      rewrite Directory.duplicateFrames_slots, map_map. unfold Directory.slots.
      replace (Z.to_nat (Z.max lastPts (wrap32 n) - lastPts))
        with (Z.to_nat (wrap32 n - lastPts)) by lia.
      reflexivity.
    + apply Forall_app. split.
      * apply Forall_forall. intros e He.
        destruct (In_duplicateFrames _ _ _ _ _ He) as (i & Hi & ->).
        exists i, x. split; [lia|]. split; [left; reflexivity | reflexivity].
      * eapply Forall_impl; [|exact Hall].
        intros e (i & y & Hi & Hy & ->). exists i, y.
        split; [lia|]. split; [right; exact Hy | reflexivity].
Qed.

Lemma NoDup_slotsN (n : nat) : forall lo, NoDup (Directory.slotsN n lo).
Proof.
  induction n as [|n IH]; intros lo; simpl; constructor.
  - rewrite Directory.In_slotsN. lia.
  - apply IH.
Qed.

Lemma NoDup_map_inj {A B} (f : A -> B) (l : list A) :
  (forall a b, In a l -> In b l -> f a = f b -> a = b) -> NoDup l -> NoDup (map f l).
Proof.
  intros Inj N. induction N as [|x l Hx N IH]; simpl; constructor.
  - intros H. apply in_map_iff in H. destruct H as (y & E & Hy).
    assert (y = x) by (apply Inj; [right; exact Hy | left; reflexivity | exact E]).
    subst y. contradiction.
  - apply IH. intros a b Ha Hb. apply Inj; right; assumption.
Qed.

Lemma In_insertSorted (x y : Timestamp) (l : list Timestamp) :
  In y (insertSorted x l) <-> y = x \/ In y l.
Proof.
  induction l as [|z l IH]; simpl.
  - intuition.
  - destruct (x <=? z); simpl; [intuition | rewrite IH; intuition].
Qed.

Lemma In_sortFrames (y : Timestamp) (frames : list Timestamp) :
  In y (sortFrames frames) <-> In y frames.
Proof.
  induction frames as [|x l IH]; simpl; [reflexivity|].
  unfold sortFrames in *. simpl. rewrite In_insertSorted, IH. intuition.
Qed.

Lemma findIndex_In (x : Timestamp) (l : list Timestamp) : forall i,
  In x l -> exists k, findIndex x l i = Some k /\ i <= k < i + Z.of_nat (List.length l).
Proof.
  induction l as [|y l IH]; intros i H; [destruct H|]. simpl.
  destruct (Z.eqb_spec y x) as [E | N].
  - exists i. split; [reflexivity | lia].
  - destruct H as [E | H]; [contradiction|].
    destruct (IH (i + 1) H) as (k & Ek & Hk). exists k. split; [exact Ek | lia].
Qed.

(** *** Properties of the directory and of its reads *)

(** X1: reading the audio file in two consecutive calls gives the bytes of
    one call for the sum of the lengths.  The value returned is the number
    of bytes copied; it never exceeds [len], and a read at or past the end
    of the file returns nothing. *)
Theorem generateAudio_sequential_reads (this : VirtualFileSystemImpl_MCRAW) (pos a b : Z) :
  0 <= pos -> 0 <= a -> 0 <= b ->
  let first := generateAudio this pos a in
  let second := generateAudio this (pos + fst first) b in
  let whole := generateAudio this pos (a + b) in
  fst first = Z.of_nat (List.length (snd first)) /\
  fst first <= a /\
  (Z.of_nat (List.length (mAudioFile this)) <= pos -> first = (0, [])) /\
  fst first + fst second = fst whole /\
  snd first ++ snd second = snd whole.
Proof.
  intros Hpos Ha Hb. cbv zeta. unfold generateAudio.
  set (file := mAudioFile this). set (size := Z.of_nat (List.length file)).
  destruct (Z.ltb_spec pos size) as [In1 | Out1]; cbn [fst snd].
  - assert (Hl : List.length (skipn (Z.to_nat pos) file) = Z.to_nat (size - pos))
      by (rewrite length_skipn; unfold size; lia).
    split; [rewrite length_firstn, Hl; lia|].
    split; [lia|]. split; [lia|].
    destruct (Z.ltb_spec (pos + Z.min a (size - pos)) size) as [In2 | Out2]; cbn [fst snd].
    + split; [lia|].
      replace (Z.to_nat (Z.min (a + b) (size - pos)))
        with (Z.to_nat (Z.min a (size - pos))
              + Z.to_nat (Z.min b (size - (pos + Z.min a (size - pos)))))%nat by lia.
      rewrite firstn_add, skipn_skipn. do 3 f_equal. lia.
    + split; [lia|]. rewrite app_nil_r. f_equal. lia.
  - split; [reflexivity|]. split; [lia|]. split; [reflexivity|].
    rewrite Z.add_0_r.
    destruct (Z.ltb_spec pos size); [lia|]. split; reflexivity.
Qed.

(** Witness for X1: an audio file of five bytes read as 2 + 4 from offset 1. *)
Lemma generateAudio_sequential_reads_witness :
  let this := mkVFS [] [Byte.x01; Byte.x02; Byte.x03; Byte.x04; Byte.x05] 0 F32.zero 1 in
  snd (generateAudio this 1 2) ++ snd (generateAudio this 3 4)
  = [Byte.x02; Byte.x03; Byte.x04; Byte.x05].
Proof.
  intros this.
  pose proof (generateAudio_sequential_reads this 1 2 4) as H.
  cbv zeta in H.
  destruct H as (_ & _ & _ & _ & H); [lia | lia | lia |].
  exact H.
Defined.

Section DirectoryFacts.

Variable RENDER_OPT_DRAFT : Z.
Variables RawData Json CameraConfiguration CameraFrameMetadata : Type.
Variable openDecoder : outcome (Decoder RawData Json).
Variable parseCameraConfiguration : Json -> outcome CameraConfiguration.
Variable parseCameraFrameMetadata : Json -> outcome CameraFrameMetadata.
Variable generateDng :
  RawData -> CameraFrameMetadata -> CameraConfiguration ->
  spec_float -> Z -> FileRenderOptions -> Z -> outcome (option (list Byte.byte)).
Variable writeAudio :
  list Byte.byte -> Z -> Z -> spec_float -> list AudioChunk -> outcome (list Byte.byte).
Variable desktopIni : option (list Byte.byte).

Let vfs_init := init RENDER_OPT_DRAFT RawData Json CameraConfiguration CameraFrameMetadata
                  openDecoder parseCameraConfiguration parseCameraFrameMetadata generateDng
                  writeAudio desktopIni.

(** The directory that a successful [init] leaves for a capture with
    frames: the hidden entry (Windows), the audio entry when there is
    audio, and the image entries. *)
Lemma init_directory_shape (options : FileRenderOptions)
    (this0 this : VirtualFileSystemImpl_MCRAW) (d : Decoder RawData Json) :
  openDecoder = Ok d ->
  getFrames RawData Json d <> [] ->
  vfs_init options this0 = Ok this ->
  exists hidden audio images hi,
    mFiles this = hidden ++ audio ++ images /\
    hidden = match desktopIni with
             | Some ini => [fileEntry "desktop.ini" (Z.of_nat (List.length ini))]
             | None => []
             end /\
    audio = match mAudioFile this with
            | [] => []
            | _ :: _ => [fileEntry "audio.wav" (Z.of_nat (List.length (mAudioFile this)))]
            end /\
    0 <= hi /\
    map entry_name images
    = map (fun i => constructFrameFilename "frame-" i 6 "dng") (Directory.slots 0 hi) /\
    Forall (fun e => exists i x, 0 <= i < hi /\ In x (getFrames RawData Json d) /\
                                 e = frameEntry (mTypicalDngSize this) i x) images.
Proof.
  intros Hd Hne. unfold vfs_init, init. rewrite Hd. cbn [bind].
  destruct (sortFrames (getFrames RawData Json d)) as [|first rest] eqn:Es.
  { exfalso. destruct (getFrames RawData Json d) as [|x l]; [congruence|].
    assert (H : In x (sortFrames (x :: l))) by (apply In_sortFrames; left; reflexivity).
    rewrite Es in H. destruct H. }
  destruct (loadFrame RawData Json d first) as [[data metadata] | |]; cbn [bind];
    try discriminate.
  destruct (parseCameraConfiguration _) as [config | |]; cbn [bind]; try discriminate.
  destruct (parseCameraFrameMetadata _) as [fm | |]; cbn [bind]; try discriminate.
  destruct (generateDng _ _ _ _ _ _ _) as [[dng|] | |]; cbn [bind]; try discriminate.
  destruct (loadAudio RawData Json d) as [chunks | |]; cbn [bind]; try discriminate.
  match goal with
  | |- bind ?a _ = _ -> _ => destruct a as [audioFile | |]; cbn [bind]; try discriminate
  end.
  destruct (addVideoFrames (first :: rest) first _ _ 0) as [images|] eqn:Ei;
    cbn [of_option bind]; try discriminate.
  intros E. apply Ok_inj in E. subst this. cbn [mFiles mAudioFile mTypicalDngSize].
  destruct (addVideoFrames_slots _ _ _ _ _ _ Ei) as (hi & Hhi & Hn & Hall).
  eexists _, _, images, hi.
  split; [reflexivity|]. split; [reflexivity|]. split; [reflexivity|].
  split; [exact Hhi|]. split; [exact Hn|].
  eapply Forall_impl; [|exact Hall].
  intros e (i & x & Hi & Hx & ->). exists i, x.
  split; [exact Hi|]. split; [|reflexivity].
  apply In_sortFrames. rewrite Es. exact Hx.
Qed.

(** X2: after a successful [init] on a capture with frames, no two entries
    of the directory have the same name, and the image entries are named
    frame-000000.dng, frame-000001.dng, ... without a gap, after the
    optional desktop.ini and audio.wav. *)
Theorem init_directory_names_are_distinct (options : FileRenderOptions)
    (this0 this : VirtualFileSystemImpl_MCRAW) (d : Decoder RawData Json) :
  openDecoder = Ok d ->
  getFrames RawData Json d <> [] ->
  vfs_init options this0 = Ok this ->
  NoDup (map entry_name (mFiles this)) /\
  exists hi,
    0 <= hi /\
    map entry_name (mFiles this)
    = (match desktopIni with Some _ => ["desktop.ini"%string] | None => [] end)
      ++ (match mAudioFile this with [] => [] | _ :: _ => ["audio.wav"%string] end)
      ++ map (fun i => constructFrameFilename "frame-" i 6 "dng") (Directory.slots 0 hi).
Proof.
  intros Hd Hne Hi.
  destruct (init_directory_shape options this0 this d Hd Hne Hi)
    as (hidden & audio & images & hi & Ef & Eh & Ea & Hhi & Hn & _).
  assert (En : map entry_name (mFiles this)
               = (match desktopIni with Some _ => ["desktop.ini"%string] | None => [] end)
                 ++ (match mAudioFile this with [] => [] | _ :: _ => ["audio.wav"%string] end)
                 ++ map (fun i => constructFrameFilename "frame-" i 6 "dng")
                        (Directory.slots 0 hi)).
  { rewrite Ef, !map_app, Hn, Eh, Ea.
    destruct desktopIni; destruct (mAudioFile this); reflexivity. }
  split; [|exists hi; split; [exact Hhi | exact En]].
  rewrite En.
  assert (Nimg : NoDup (map (fun i => constructFrameFilename "frame-" i 6 "dng")
                            (Directory.slots 0 hi))).
  { apply NoDup_map_inj; [|apply NoDup_slotsN].
    intros a b Ha Hb. apply Directory.In_slots in Ha, Hb.
    apply Directory.frame_name_inj; lia. }
  assert (Nini : ~ In "desktop.ini"%string
                   (map (fun i => constructFrameFilename "frame-" i 6 "dng")
                        (Directory.slots 0 hi))).
  { intros H. apply in_map_iff in H. destruct H as (i & E & _).
    destruct (frame_name_ends_with_dng i) as (_ & _ & N & _).
    rewrite E in N. discriminate N. }
  assert (Nwav : ~ In "audio.wav"%string
                   (map (fun i => constructFrameFilename "frame-" i 6 "dng")
                        (Directory.slots 0 hi))).
  { intros H. apply in_map_iff in H. destruct H as (i & E & _).
    destruct (frame_name_ends_with_dng i) as (_ & _ & _ & N). contradiction. }
  destruct desktopIni; destruct (mAudioFile this); simpl.
  - exact (NoDup_cons _ Nini Nimg).
  - constructor.
    + intros [E | H]; [discriminate E | contradiction].
    + exact (NoDup_cons _ Nwav Nimg).
  - exact Nimg.
  - exact (NoDup_cons _ Nwav Nimg).
Qed.

(** X4: every image entry that [init] lists points at a frame of the
    capture: stage 1 of a read of that entry, on a decoder of the same
    capture, finds the frame and goes on to load it; it does not fail with
    "Failed to find frame". *)
Theorem init_entries_are_found_by_decodeTask (options : FileRenderOptions)
    (this0 this : VirtualFileSystemImpl_MCRAW) (d : Decoder RawData Json) (e : Entry) :
  openDecoder = Ok d ->
  getFrames RawData Json d <> [] ->
  vfs_init options this0 = Ok this ->
  In e (mFiles this) ->
  entry_userData e <> None ->
  exists x k,
    entry_userData e = Some x /\ In x (getFrames RawData Json d) /\
    0 <= k < Z.of_nat (List.length (getFrames RawData Json d)) /\
    decodeTask RawData Json CameraConfiguration CameraFrameMetadata openDecoder
      parseCameraConfiguration parseCameraFrameMetadata (Some d) e
    = ('(data, metadata) <- loadFrame RawData Json d x ;;
       config <- parseCameraConfiguration (getContainerMetadata RawData Json d) ;;
       frameMetadata <- parseCameraFrameMetadata metadata ;;
       Ok (k, config, frameMetadata, data)).
Proof.
  intros Hd Hne Hi He Hu.
  destruct (init_directory_shape options this0 this d Hd Hne Hi)
    as (hidden & audio & images & hi & Ef & Eh & Ea & Hhi & _ & Hall).
  rewrite Ef in He. apply in_app_or in He. destruct He as [He | He].
  { exfalso. subst hidden. destruct desktopIni; [|destruct He].
    destruct He as [<- | []]. apply Hu. reflexivity. }
  apply in_app_or in He. destruct He as [He | He].
  { exfalso. subst audio. destruct (mAudioFile this); [destruct He|].
    destruct He as [<- | []]. apply Hu. reflexivity. }
  rewrite Forall_forall in Hall. destruct (Hall e He) as (i & x & _ & Hx & ->).
  destruct (findIndex_In x _ 0 Hx) as (k & Ek & Hk).
  exists x, k. split; [reflexivity|]. split; [exact Hx|]. split; [lia|].
  unfold decodeTask. cbn [entry_userData frameEntry bind]. rewrite Ek. reflexivity.
Qed.

End DirectoryFacts.

(** Witness for X2: a capture of three frames at 30 fps, no audio. *)
Lemma init_directory_names_are_distinct_witness :
  let d := mkDecoder unit unit [0; 33333333; 66666666] (fun _ => Ok (tt, tt)) tt (Ok [])
             48000 2 in
  let this := mkVFS [frameEntry 1 0 33333333; frameEntry 1 1 66666666] [] 1
                (calculateFrameRate [0; 33333333; 66666666]) 1 in
  NoDup (map entry_name (mFiles this)).
Proof.
  intros d this.
  refine (proj1 (init_directory_names_are_distinct 1 unit unit unit unit (Ok d)
                   (fun _ => Ok tt) (fun _ => Ok tt)
                   (fun _ _ _ _ _ _ _ => Ok (Some [Byte.x00])) (fun a _ _ _ _ => Ok a) None
                   0 (mkVFS [] [] 0 F32.zero 1) this d _ _ _)).
  - reflexivity.
  - discriminate.
  - vm_compute. reflexivity.
Defined.

(** Witness for X4: the second image entry of the same capture. *)
Lemma init_entries_are_found_by_decodeTask_witness :
  let d := mkDecoder unit unit [0; 33333333; 66666666] (fun _ => Ok (tt, tt)) tt (Ok [])
             48000 2 in
  exists x k,
    Some 66666666 = Some x /\ In x [0; 33333333; 66666666] /\ 0 <= k < 3 /\
    decodeTask unit unit unit unit (Ok d) (fun _ => Ok tt) (fun _ => Ok tt) (Some d)
      (frameEntry 1 1 66666666)
    = Ok (k, tt, tt, tt).
Proof.
  intros d.
  refine (init_entries_are_found_by_decodeTask 1 unit unit unit unit (Ok d)
            (fun _ => Ok tt) (fun _ => Ok tt)
            (fun _ _ _ _ _ _ _ => Ok (Some [Byte.x00])) (fun a _ _ _ _ => Ok a) None
            0 (mkVFS [] [] 0 F32.zero 1)
            (mkVFS [frameEntry 1 0 33333333; frameEntry 1 1 66666666] [] 1
               (calculateFrameRate [0; 33333333; 66666666]) 1)
            d (frameEntry 1 1 66666666) _ _ _ _ _).
  - reflexivity.
  - discriminate.
  - vm_compute. reflexivity.
  - right. left. reflexivity.
  - discriminate.
Defined.

Section ServingFacts.

Variable RENDER_OPT_DRAFT : Z.
Variables RawData Json CameraConfiguration CameraFrameMetadata : Type.
Variable openDecoder : outcome (Decoder RawData Json).
Variable parseCameraConfiguration : Json -> outcome CameraConfiguration.
Variable parseCameraFrameMetadata : Json -> outcome CameraFrameMetadata.
Variable generateDng :
  RawData -> CameraFrameMetadata -> CameraConfiguration ->
  spec_float -> Z -> FileRenderOptions -> Z -> outcome (option (list Byte.byte)).
Variable desktopIni : option (list Byte.byte).

Let vfs_readFile := readFile RENDER_OPT_DRAFT RawData Json CameraConfiguration
                      CameraFrameMetadata openDecoder parseCameraConfiguration
                      parseCameraFrameMetadata generateDng desktopIni.
Let vfs_generateFrame := generateFrame RENDER_OPT_DRAFT RawData Json CameraConfiguration
                           CameraFrameMetadata openDecoder parseCameraConfiguration
                           parseCameraFrameMetadata generateDng.

(** X3: [readFile] serves the entries that [init] creates by their names.
    An image entry goes to [generateFrame]: the call returns 0, copies
    nothing itself, and the read completes through [result].  The audio
    entry is served at once from [mAudioFile], and [result] is never
    invoked for it.  The hidden entry (Windows) is served at once from the
    constant when [pos] lies inside it.  An entry with any other name
    completes as [result(0, -1)]. *)
Theorem readFile_routes_entries_by_name (this : VirtualFileSystemImpl_MCRAW)
    (decoders : option (Decoder RawData Json)) (options : FileRenderOptions) (pos len : Z) :
  (forall size i x,
     vfs_readFile this decoders (frameEntry size i x) options pos len
     = Ok (mkServed 0 []
             (Some (snd (vfs_generateFrame this decoders (frameEntry size i x) options
                           pos len))))) /\
  (forall size,
     vfs_readFile this decoders (fileEntry "audio.wav" size) options pos len
     = Ok (mkServed (fst (generateAudio this pos len)) (snd (generateAudio this pos len))
             None)) /\
  (forall ini size,
     desktopIni = Some ini -> 0 <= len -> 0 <= pos <= Z.of_nat (List.length ini) ->
     Z.of_nat (List.length ini) < 2 ^ 64 ->
     let n := Z.min len (Z.of_nat (List.length ini) - pos) in
     vfs_readFile this decoders (fileEntry "desktop.ini" size) options pos len
     = Ok (mkServed n (firstn (Z.to_nat n) (skipn (Z.to_nat pos) ini)) None)) /\
  (forall e,
     entry_name e <> "desktop.ini"%string ->
     ends_with (entry_name e) "wav" = false ->
     ends_with (entry_name e) "dng" = false ->
     vfs_readFile this decoders e options pos len
     = Ok (mkServed 0 [] (Some (Ok (0, - 1, []))))).
Proof.
  split; [|split; [|split]].
  - intros size i x. unfold vfs_readFile, readFile.
    cbn [entry_name frameEntry].
    destruct (frame_name_ends_with_dng i) as (Hd & Hw & Hn & _).
    rewrite Hn, Hw, Hd. reflexivity.
  - intros size. unfold vfs_readFile, readFile. cbn [entry_name fileEntry].
    change (("audio.wav" =? "desktop.ini")%string) with false.
    change (ends_with "audio.wav" "wav") with true. cbv iota.
    destruct (generateAudio this pos len). reflexivity.
  - intros ini size Hi Hlen Hpos Hsz n. unfold vfs_readFile, readFile.
    cbn [entry_name fileEntry].
    change (("desktop.ini" =? "desktop.ini")%string) with true. cbv iota. rewrite Hi.
    cbv zeta. unfold wrapU64. rewrite Z.mod_small by lia. fold n.
    destruct (Z.leb_spec (pos + n) (Z.of_nat (List.length ini))) as [_ | C];
      [reflexivity | unfold n in C; lia].
  - intros e Hn Hw Hd. unfold vfs_readFile, readFile.
    destruct (String.eqb_spec (entry_name e) "desktop.ini") as [E | _]; [contradiction|].
    rewrite Hw, Hd. reflexivity.
Qed.

End ServingFacts.

(** Witness for X3: the hidden entry read from offset 2. *)
Lemma readFile_routes_entries_by_name_witness :
  readFile 1 unit unit unit unit (Throws (runtime_error "closed")) (fun _ => Ok tt)
    (fun _ => Ok tt) (fun _ _ _ _ _ _ _ => Ok None)
    (Some [Byte.x5b; Byte.x2e; Byte.x53; Byte.x68]) (mkVFS [] [] 0 F32.zero 1) None
    (fileEntry "desktop.ini" 4) 0 2 16
  = Ok (mkServed 2 [Byte.x53; Byte.x68] None).
Proof.
  refine (proj1 (proj2 (proj2
    (readFile_routes_entries_by_name 1 unit unit unit unit (Throws (runtime_error "closed"))
       (fun _ => Ok tt) (fun _ => Ok tt) (fun _ _ _ _ _ _ _ => Ok None)
       (Some [Byte.x5b; Byte.x2e; Byte.x53; Byte.x68]) (mkVFS [] [] 0 F32.zero 1) None
       0 2 16)))
    [Byte.x5b; Byte.x2e; Byte.x53; Byte.x68] 4 _ _ _ _).
  - reflexivity.
  - lia.
  - simpl. lia.
  - simpl. lia.
Defined.

(** ** Frame numbers *)

Module FrameNumber.

Import IEEE.
Local Open Scope Q_scope.

(** A positive finite [float] lies between the smallest subnormal and the
    infinity. *)
Lemma positive_float_bounds (x : spec_float) :
  F32.fin x -> 0 < val x -> pow2 (- 149) <= val x /\ val x < pow2 128.
Proof.
  intros Fx Px. split.
  - destruct x as [s | s | | s m e]; simpl in Px; try lra.
    destruct Fx as [_ [He _]]. unfold emin, F32.emax, F32.prec in He.
    destruct s; simpl in Px |- *.
    + exfalso. pose proof (pow2_pos e).
      assert (0 < inject_Z (Z.pos m)) by (rewrite <- (Zlt_Qlt 0); lia). nra.
    + pose proof (pow2_le (- 149) e ltac:(lia)) as L. pose proof (pow2_pos (- 149)).
      assert (1 <= inject_Z (Z.pos m)) by (rewrite <- (Zle_Qle 1); lia). nra.
  - rewrite <- (fin_xval F32.prec F32.emax F32.prec32_gt_1 F32.prec32_lt_emax x Fx).
    apply (fin_lt_top F32.prec F32.emax F32.prec32_gt_1 F32.prec32_lt_emax x Fx).
Qed.

(** [1000000000.0 / frameRate] for a positive finite frame rate is a
    positive finite [double]. *)
Lemma nanosecondsPerFrame_positive (frameRate : spec_float) :
  F32.fin frameRate -> 0 < val frameRate ->
  let npf := F64.div (F64.of_Z 1000000000) (F64.of_float frameRate) in
  F64.fin npf /\ pow2 (- 99) <= val npf <= pow2 179.
Proof.
  intros Ff Pf npf.
  destruct (positive_float_bounds frameRate Ff Pf) as [Lo Hi].
  assert (R1 : F64.rep (pow2 (- 149)))
    by (apply (FrameRate.rep64_pow2 _ (- 149)); [reflexivity | lia]).
  assert (R2 : F64.rep (pow2 128))
    by (apply (FrameRate.rep64_pow2 _ 128); [reflexivity | lia]).
  destruct (of_float_between F64.prec F64.emax F64.prec64_gt_1 F64.prec64_lt_emax
              frameRate _ _ (fin_num F32.prec F32.emax F32.prec32_gt_1 F32.prec32_lt_emax _ Ff)
              R1 R2 (conj Lo (Qlt_le_weak _ _ Hi)))
    as (Fd & Ld & Hd).
  fold (F64.of_float frameRate) in *.
  set (v := val (F64.of_float frameRate)) in *.
  assert (P149 : 0 < pow2 (- 149)) by apply pow2_pos.
  assert (Fc : F64.fin (F64.of_Z 1000000000)) by (vm_compute; split; [reflexivity | split; discriminate]).
  assert (Vc : val (F64.of_Z 1000000000) == 1000000000) by (vm_compute; reflexivity).
  assert (Nz : ~ v == 0) by lra.
  assert (E1 : pow2 (- 99) * pow2 128 == 536870912)
    by (rewrite <- pow2_add; vm_compute; reflexivity).
  assert (E2 : pow2 179 * pow2 (- 149) == 1073741824)
    by (rewrite <- pow2_add; vm_compute; reflexivity).
  assert (P99 : 0 < pow2 (- 99)) by apply pow2_pos.
  assert (P179 : 0 < pow2 179) by apply pow2_pos.
  apply (fdiv_between F64.prec F64.emax F64.prec64_gt_1 F64.prec64_lt_emax _ _ _ _ Fc Fd Nz).
  - apply (FrameRate.rep64_pow2 _ (- 99)); [reflexivity | lia].
  - apply (FrameRate.rep64_pow2 _ 179); [reflexivity | lia].
  - fold v. rewrite Vc. split.
    + apply Qle_shift_div_l; [lra | nra].
    + apply Qle_shift_div_r; [lra | nra].
Qed.

Lemma positive_fin_is_not_le_zero (frameRate : spec_float) :
  F32.fin frameRate -> 0 < val frameRate -> F32.le frameRate (F32.of_Z 0) = false.
Proof.
  intros Ff Pf.
  assert (Fz : F32.fin F32.zero) by exact I.
  destruct (F32.le frameRate (F32.of_Z 0)) eqn:Hle; [|reflexivity].
  exfalso. change (F32.of_Z 0) with F32.zero in Hle.
  apply (fle_fin F32.prec F32.emax F32.prec32_gt_1 F32.prec32_lt_emax _ _ Ff Fz) in Hle.
  simpl in Hle. lra.
Qed.

Lemma positive_is_not_le_zero (frameRate : spec_float) :
  F32.fin frameRate -> F32.gt frameRate F32.zero = true ->
  0 < val frameRate /\ F32.le frameRate (F32.of_Z 0) = false.
Proof.
  intros Ff Hgt.
  assert (Fz : F32.fin F32.zero) by exact I.
  assert (Pf : 0 < val frameRate).
  { apply (flt_fin F32.prec F32.emax F32.prec32_gt_1 F32.prec32_lt_emax _ _ Fz Ff) in Hgt.
    exact Hgt. }
  split; [exact Pf | apply positive_fin_is_not_le_zero; assumption].
Qed.

Lemma zero_at_reference (t : Timestamp) (frameRate : spec_float) :
  F32.fin frameRate -> 0 < val frameRate ->
  getFrameNumberFromTimestamp t t frameRate = Some 0%Z.
Proof.
  intros Ff Pf.
  pose proof (positive_fin_is_not_le_zero frameRate Ff Pf) as Hle.
  destruct (nanosecondsPerFrame_positive frameRate Ff Pf) as (Fn & Ln & _).
  unfold getFrameNumberFromTimestamp. rewrite Hle, Z.sub_diag.
  change (wrap64 0) with 0%Z. change (0 <? 0)%Z with false. cbv iota zeta.
  set (npf := F64.div (F64.of_Z 1000000000) (F64.of_float frameRate)) in *.
  change (F64.of_Z 0) with (S754_zero false).
  pose proof (pow2_pos (- 99)) as P.
  destruct npf as [s | s | | s m e].
  - exfalso. apply (Qlt_not_le _ _ P). exact Ln.
  - destruct Fn.
  - destruct Fn.
  - unfold F64.div, fdiv.
    rewrite (round_zero F64.prec F64.emax F64.prec64_gt_1 F64.prec64_lt_emax)
      by (unfold Qdiv; simpl val at 1; ring).
    reflexivity.
Qed.

End FrameNumber.

(** X5: for every positive finite frame rate, the frame at the reference
    timestamp has frame number 0. *)
Theorem frame_number_at_reference_is_zero (t : Timestamp) (frameRate : spec_float) :
  F32.fin frameRate -> F32.gt frameRate F32.zero = true ->
  getFrameNumberFromTimestamp t t frameRate = Some 0.
Proof.
  intros Ff Hgt.
  destruct (FrameNumber.positive_is_not_le_zero frameRate Ff Hgt) as [Pf _].
  apply FrameNumber.zero_at_reference; assumption.
Qed.

(** Witness for X5: 30 frames per second. *)
Lemma frame_number_at_reference_is_zero_witness :
  getFrameNumberFromTimestamp 1000000000 1000000000 (F32.of_Z 30) = Some 0.
Proof.
  apply frame_number_at_reference_is_zero.
  - vm_compute. split; [reflexivity | split; discriminate].
  - vm_compute. reflexivity.
Defined.

(** X6: frame numbers do not decrease with the timestamp.  For two
    timestamps not before the reference, whenever the later one has a
    frame number the earlier one has one too, and it is not larger. *)
Theorem frame_numbers_grow_with_timestamps
    (a b t0 : Timestamp) (frameRate : spec_float) (pb : Z) :
  t0 <= a <= b -> b - t0 <= INT64_MAX ->
  getFrameNumberFromTimestamp b t0 frameRate = Some pb ->
  exists pa, getFrameNumberFromTimestamp a t0 frameRate = Some pa /\ pa <= pb.
Proof.
  intros Hab Hb Eb.
  destruct (Directory.getFrameNumber_mono a b t0 frameRate pb ltac:(lia) Hb Eb)
    as (pa & Ea & Hpa).
  exists pa. split; [exact Ea | lia].
Qed.

(** Witness for X6: two frames of a 30 fps capture. *)
Lemma frame_numbers_grow_with_timestamps_witness :
  exists pa, getFrameNumberFromTimestamp 33333333 0 (F32.of_Z 30) = Some pa /\ pa <= 2.
Proof.
  apply (frame_numbers_grow_with_timestamps 33333333 66666666 0 (F32.of_Z 30) 2).
  - lia.
  - vm_compute. discriminate.
  - vm_compute. reflexivity.
Defined.

(** ** Evenly spaced frames *)

Module EvenSpacing.

Import IEEE.
Local Open Scope Q_scope.

(** Rounding depends on the value of the rational only. *)
Lemma ilog2_comp (p q : Q) : 0 < p -> p == q -> ilog2 p = ilog2 q.
Proof.
  intros Hp E. assert (Hq : 0 < q) by (rewrite <- E; exact Hp).
  destruct (ilog2_spec q Hq) as [L U].
  apply ilog2_unique; rewrite E; assumption.
Qed.

Lemma round_pos_comp (prec emax : Z) (s : bool) (p q : Q) :
  0 < p -> p == q -> round_pos prec emax s p = round_pos prec emax s q.
Proof.
  intros Hp E. unfold round_pos, cexp. rewrite (ilog2_comp p q Hp E).
  f_equal. apply rne_comp. rewrite E. reflexivity.
Qed.

Lemma round_comp (prec emax : Z) (p q : Q) (sp sq : bool) :
  p == q -> (p == 0 -> sp = sq) -> round prec emax p sp = round prec emax q sq.
Proof.
  intros E Hs. unfold round.
  rewrite <- (Qcompare_comp p q E 0 0 (Qeq_refl 0)).
  destruct (Qcompare p 0) eqn:C.
  - apply Qeq_alt in C. rewrite (Hs C). reflexivity.
  - apply (proj2 (Qlt_alt _ _)) in C. apply round_pos_comp; [lra | rewrite E; reflexivity].
  - apply (proj2 (Qgt_alt _ _)) in C. apply round_pos_comp; [exact C | exact E].
Qed.

(** Division of two numbers with a non-zero quotient depends on the values
    of the operands only. *)
Lemma fdiv_comp (prec emax : Z) (x x' y y' : spec_float) :
  is_num x = true -> is_num x' = true -> is_num y = true -> is_num y' = true ->
  val x == val x' -> val y == val y' -> ~ val x == 0 -> ~ val y == 0 ->
  fdiv prec emax x y = fdiv prec emax x' y'.
Proof.
  intros Nx Nx' Ny Ny' Ex Ey Zx Zy.
  assert (Zx' : ~ val x' == 0) by (rewrite <- Ex; exact Zx).
  assert (Zy' : ~ val y' == 0) by (rewrite <- Ey; exact Zy).
  destruct x as [sx | sx | | sx mx ex]; try discriminate Nx;
    [exfalso; apply Zx; reflexivity|].
  destruct x' as [sx' | sx' | | sx' mx' ex']; try discriminate Nx';
    [exfalso; apply Zx'; reflexivity|].
  destruct y as [sy | sy | | sy my ey]; try discriminate Ny;
    [exfalso; apply Zy; reflexivity|].
  destruct y' as [sy' | sy' | | sy' my' ey']; try discriminate Ny';
    [exfalso; apply Zy'; reflexivity|].
  unfold fdiv. apply round_comp.
  - rewrite Ex, Ey. reflexivity.
  - intros Z0. exfalso. apply Zx.
    set (a := val (S754_finite sx mx ex)) in *. set (b := val (S754_finite sy my ey)) in *.
    assert (E : a == a / b * b) by (field; exact Zy).
    rewrite E, Z0. ring.
Qed.

(** *** The running mean of equal durations *)

(** [avg] holds the duration [d] exactly. *)
Definition holds (avg : spec_float) (d : Z) : Prop :=
  F64.fin avg /\ val avg == inject_Z d.

Lemma of_Z_exact (d : Z) :
  (Z.abs d < 2 ^ 53)%Z -> holds (F64.of_Z d) d.
Proof.
  intros Hd. unfold holds, F64.of_Z, of_Z.
  apply (round_exact F64.prec F64.emax F64.prec64_gt_1 F64.prec64_lt_emax).
  apply (rep_Z F64.prec F64.emax F64.prec64_gt_1 F64.prec64_lt_emax). exact Hd.
Qed.

Lemma holds_num (x : spec_float) (d : Z) : holds x d -> is_num x = true.
Proof.
  intros [F _]. apply (fin_num F64.prec F64.emax F64.prec64_gt_1 F64.prec64_lt_emax _ F).
Qed.

Lemma round_holds (q : Q) (sz : bool) (d : Z) :
  (Z.abs d < 2 ^ 53)%Z -> q == inject_Z d -> holds (round F64.prec F64.emax q sz) d.
Proof.
  intros Hd E.
  assert (R : F64.rep q).
  { apply (rep_comp F64.prec F64.emax F64.prec64_gt_1 F64.prec64_lt_emax (inject_Z d));
      [symmetry; exact E|].
    apply (rep_Z F64.prec F64.emax F64.prec64_gt_1 F64.prec64_lt_emax). exact Hd. }
  destruct (round_exact F64.prec F64.emax F64.prec64_gt_1 F64.prec64_lt_emax q sz R)
    as [F V].
  split; [exact F | rewrite V; exact E].
Qed.

(** The first step of the mean: 0 + (d - 0) / 1. *)
Lemma mean_step_first_exact (d : Z) :
  (1 <= d < 2 ^ 53)%Z -> holds (FrameRate.mean_step F64.zero d 1) d.
Proof.
  intros Hd. assert (Hd' : (Z.abs d < 2 ^ 53)%Z) by lia.
  pose proof (of_Z_exact d Hd') as HD.
  unfold FrameRate.mean_step.
  assert (Nz : is_num F64.zero = true) by reflexivity.
  destruct (fsub_round F64.prec F64.emax F64.prec64_gt_1 F64.prec64_lt_emax
              (F64.of_Z d) F64.zero (holds_num _ _ HD) Nz) as [s1 E1].
  fold (F64.sub (F64.of_Z d) F64.zero) in E1. rewrite E1.
  assert (H1 : holds (round F64.prec F64.emax (val (F64.of_Z d) - val F64.zero) s1) d).
  { apply round_holds; [exact Hd'|]. destruct HD as [_ V]. rewrite V. simpl. ring. }
  set (x1 := round F64.prec F64.emax (val (F64.of_Z d) - val F64.zero) s1) in *.
  assert (V1 : val (F64.of_Z 1) == 1) by (vm_compute; reflexivity).
  destruct (fdiv_round F64.prec F64.emax F64.prec64_gt_1 F64.prec64_lt_emax
              x1 (F64.of_Z 1) (holds_num _ _ H1) eq_refl) as [s2 E2].
  { rewrite V1. lra. }
  fold (F64.div x1 (F64.of_Z 1)) in E2. rewrite E2.
  assert (H2 : holds (round F64.prec F64.emax (val x1 / val (F64.of_Z 1)) s2) d).
  { apply round_holds; [exact Hd'|]. destruct H1 as [_ V]. rewrite V, V1. field. }
  set (x2 := round F64.prec F64.emax (val x1 / val (F64.of_Z 1)) s2) in *.
  destruct (fadd_round F64.prec F64.emax F64.prec64_gt_1 F64.prec64_lt_emax
              F64.zero x2 Nz (holds_num _ _ H2)) as [s3 E3].
  fold (F64.add F64.zero x2) in E3. rewrite E3.
  apply round_holds; [exact Hd'|]. destruct H2 as [_ V]. rewrite V. simpl. ring.
Qed.

(** A later step: avg + (d - avg) / k with avg = d. *)
Lemma mean_step_next_exact (avg : spec_float) (d k : Z) :
  (1 <= d < 2 ^ 53)%Z -> (1 <= k <= INT_MAX)%Z -> holds avg d ->
  holds (FrameRate.mean_step avg d k) d.
Proof.
  intros Hd Hk HA. assert (Hd' : (Z.abs d < 2 ^ 53)%Z) by lia.
  pose proof (of_Z_exact d Hd') as HD.
  destruct (FrameRate.count_bounds k Hk) as (FK & LK & _).
  assert (NK : is_num (F64.of_Z k) = true)
    by (apply (fin_num F64.prec F64.emax F64.prec64_gt_1 F64.prec64_lt_emax _ FK)).
  assert (ZK : ~ val (F64.of_Z k) == 0).
  { assert (1 <= inject_Z k) by (rewrite <- (Zle_Qle 1); lia). lra. }
  unfold FrameRate.mean_step.
  destruct (fsub_round F64.prec F64.emax F64.prec64_gt_1 F64.prec64_lt_emax
              (F64.of_Z d) avg (holds_num _ _ HD) (holds_num _ _ HA)) as [s1 E1].
  fold (F64.sub (F64.of_Z d) avg) in E1. rewrite E1.
  rewrite (round_zero F64.prec F64.emax F64.prec64_gt_1 F64.prec64_lt_emax)
    by (destruct HD as [_ V]; destruct HA as [_ V']; rewrite V, V'; ring).
  destruct (fdiv_round F64.prec F64.emax F64.prec64_gt_1 F64.prec64_lt_emax
              (S754_zero s1) (F64.of_Z k) eq_refl NK ZK) as [s2 E2].
  fold (F64.div (S754_zero s1) (F64.of_Z k)) in E2. rewrite E2.
  rewrite (round_zero F64.prec F64.emax F64.prec64_gt_1 F64.prec64_lt_emax)
    by (simpl val at 1; unfold Qdiv; ring).
  destruct (fadd_round F64.prec F64.emax F64.prec64_gt_1 F64.prec64_lt_emax
              avg (S754_zero s2) (holds_num _ _ HA) eq_refl) as [s3 E3].
  fold (F64.add avg (S754_zero s2)) in E3. rewrite E3.
  apply round_holds; [exact Hd'|]. destruct HA as [_ V]. rewrite V. simpl. ring.
Qed.

Lemma running_mean_exact (d : Z) (n : nat) : forall avg k,
  (1 <= d < 2 ^ 53)%Z -> (1 <= k)%Z -> (k + Z.of_nat n <= INT_MAX + 1)%Z -> holds avg d ->
  holds (FrameRate.running_mean avg k (repeat d n)) d.
Proof.
  induction n as [|n IH]; intros avg k Hd Hk Hn HA; simpl; [exact HA|].
  apply IH; [exact Hd | lia | lia|].
  apply mean_step_next_exact; [exact Hd | lia | exact HA].
Qed.

(** The frames t0, t0 + d, t0 + 2 d, ... *)
Definition evenly_spaced (t0 d : Z) (n : nat) : list Timestamp :=
  map (fun j => (t0 + Z.of_nat j * d)%Z) (seq 0 n).

Lemma durationsFrom_even (t0 d : Z) (m : nat) : forall i,
  (1 <= d < 2 ^ 53)%Z ->
  FrameRate.durationsFrom (t0 + Z.of_nat i * d)%Z
    (map (fun j => (t0 + Z.of_nat j * d)%Z) (seq (S i) m))
  = repeat d m.
Proof.
  induction m as [|m IH]; intros i Hd; [reflexivity|].
  cbn [seq map FrameRate.durationsFrom repeat].
  f_equal.
  - replace (t0 + Z.of_nat (S i) * d - (t0 + Z.of_nat i * d))%Z with d by lia.
    apply wrap64_id. unfold in_int64, INT64_MIN, INT64_MAX. lia.
  - apply IH. exact Hd.
Qed.

Lemma filter_positive_repeat (d : Z) (m : nat) :
  (1 <= d)%Z -> filter (fun x => (0 <? x)%Z) (repeat d m) = repeat d m.
Proof.
  intros Hd. induction m as [|m IH]; simpl; [reflexivity|].
  destruct (Z.ltb_spec 0 d); [|lia]. rewrite IH. reflexivity.
Qed.

Lemma frame_rate_even (t0 d : Z) (n : nat) :
  (1 <= d < 2 ^ 53)%Z -> (2 <= n)%nat -> (Z.of_nat n <= INT_MAX)%Z ->
  calculateFrameRate (evenly_spaced t0 d n)
  = F32.of_float (F64.div (F64.of_Z 1000000000) (F64.of_Z d)).
Proof.
  intros Hd Hn Hmax.
  destruct n as [|[|m]]; [lia | lia|].
  unfold evenly_spaced.
  change (seq 0 (S (S m))) with (0%nat :: seq 1 (S m)).
  rewrite map_cons. change (map ?f (seq 1 (S m))) with (f 1%nat :: map f (seq 2 m)).
  unfold calculateFrameRate.
  rewrite FrameRate.frameRateLoop_spec;
    [| lia | simpl List.length; rewrite length_map, length_seq; lia].
  pose proof (durationsFrom_even t0 d (S m) 0 Hd) as D.
  change (map ?f (seq 1 (S m))) with (f 1%nat :: map f (seq 2 m)) in D.
  rewrite D, filter_positive_repeat by lia.
  rewrite repeat_length. destruct (Z.eqb_spec (0 + Z.of_nat (S m)) 0) as [C | _]; [lia|].
  f_equal.
  assert (H : holds (FrameRate.running_mean F64.zero (0 + 1)%Z (repeat d (S m))) d).
  { simpl repeat. simpl FrameRate.running_mean.
    apply running_mean_exact; [exact Hd | lia | lia|].
    apply mean_step_first_exact. exact Hd. }
  pose proof (of_Z_exact d ltac:(lia)) as HD.
  apply fdiv_comp.
  - reflexivity.
  - reflexivity.
  - apply (holds_num _ _ H).
  - apply (holds_num _ _ HD).
  - reflexivity.
  - destruct H as [_ V]. destruct HD as [_ V']. rewrite V, V'. reflexivity.
  - vm_compute. intros C. discriminate C.
  - destruct H as [_ V]. rewrite V.
    assert ((1 <= inject_Z d)%Q) by (rewrite <- (Zle_Qle 1); lia). lra.
Qed.

End EvenSpacing.

(** X7: for frames that are evenly spaced by [d] nanoseconds the running
    mean is exact: the frame rate is [1e9 / d], computed in [double] and
    rounded to [float], however many frames there are. *)
Theorem frame_rate_of_evenly_spaced_frames (t0 d : Z) (n : nat) :
  1 <= d < 2 ^ 53 -> (2 <= n)%nat -> Z.of_nat n <= INT_MAX ->
  calculateFrameRate (EvenSpacing.evenly_spaced t0 d n)
  = F32.of_float (F64.div (F64.of_Z 1000000000) (F64.of_Z d)).
Proof. exact (EvenSpacing.frame_rate_even t0 d n). Qed.

(** Witness for X7: four frames 33 333 333 ns apart. *)
Lemma frame_rate_of_evenly_spaced_frames_witness :
  calculateFrameRate [5; 33333338; 66666671; 100000004]
  = F32.of_float (F64.div (F64.of_Z 1000000000) (F64.of_Z 33333333)).
Proof.
  apply (frame_rate_of_evenly_spaced_frames 5 33333333 4); [lia | lia | vm_compute; discriminate].
Defined.

(** ** The relative error of rounding *)

Module RelativeError.

Import IEEE.
Local Open Scope Q_scope.

Lemma rne_half (x : Q) : x - (1 # 2) <= inject_Z (rne x) <= x + (1 # 2).
Proof.
  pose proof (Qfloor_le x) as L. pose proof (Qlt_floor x) as U.
  rewrite inject_Z_plus in U. change (inject_Z 1) with 1 in U.
  unfold rne. destruct (Qcompare (x - inject_Z (Qfloor x)) (1 # 2)) eqn:C.
  - apply Qeq_alt in C.
    destruct (Z.even (Qfloor x)).
    + lra.
    + rewrite inject_Z_plus. change (inject_Z 1) with 1. lra.
  - apply (proj2 (Qlt_alt _ _)) in C. lra.
  - apply (proj2 (Qgt_alt _ _)) in C. rewrite inject_Z_plus. change (inject_Z 1) with 1. lra.
Qed.

Lemma ilog2_pow2 (e : Z) : ilog2 (pow2 e) = e.
Proof. apply ilog2_unique; [lra | apply pow2_lt; lia]. Qed.

Section Format.

Variables prec emax : Z.
Hypothesis Hprec : (1 < prec)%Z.
Hypothesis Hemax : (prec < emax)%Z.

(** In the normal range the rounded value is within 2^-prec of the exact
    one, relatively. *)
Lemma uval_relative (q : Q) :
  pow2 (emin prec emax + prec - 1) <= q ->
  q * (1 - pow2 (- prec)) <= uval prec emax q <= q * (1 + pow2 (- prec)).
Proof.
  intros Hq.
  assert (P : 0 < q) by (pose proof (pow2_pos (emin prec emax + prec - 1)); lra).
  assert (Hl : (emin prec emax + prec - 1 <= ilog2 q)%Z).
  { rewrite <- (ilog2_pow2 (emin prec emax + prec - 1)).
    apply ilog2_mono; [apply pow2_pos | exact Hq]. }
  destruct (ilog2_spec q P) as [L _].
  unfold uval, mant, cexp. rewrite Z.max_l by lia.
  set (c := (ilog2 q + 1 - prec)%Z).
  pose proof (rne_half (q * pow2 (- c))) as [R1 R2].
  pose proof (pow2_pos c) as Pc.
  assert (E : q * pow2 (- c) * pow2 c == q)
    by (rewrite <- Qmult_assoc, (Qmult_comm (pow2 (- c))), pow2_opp_mul; ring).
  assert (B : pow2 c <= 2 * (q * pow2 (- prec))).
  { assert (E2 : pow2 c == 2 * (pow2 (ilog2 q) * pow2 (- prec))).
    { unfold c. replace (ilog2 q + 1 - prec)%Z with ((ilog2 q + - prec) + 1)%Z by lia.
      rewrite pow2_succ, pow2_add. reflexivity. }
    rewrite E2. pose proof (pow2_pos (- prec)). nra. }
  set (m := inject_Z (rne (q * pow2 (- c)))) in *.
  set (x := q * pow2 (- c)) in *.
  split; nra.
Qed.

Lemma round_relative (q : Q) (sz : bool) :
  pow2 (emin prec emax + prec - 1) <= q ->
  fin prec emax (round prec emax q sz) ->
  q * (1 - pow2 (- prec)) <= val (round prec emax q sz) <= q * (1 + pow2 (- prec)).
Proof.
  intros Hq F.
  assert (P : 0 < q) by (pose proof (pow2_pos (emin prec emax + prec - 1)); lra).
  unfold round in *. destruct (Qcompare q 0) eqn:C.
  - apply Qeq_alt in C. lra.
  - apply (proj2 (Qlt_alt _ _)) in C. lra.
  - destruct (Qlt_le_dec (uval prec emax q) (pow2 emax)) as [Lt | Ge].
    + destruct (round_pos_fin prec emax Hprec Hemax false q P Lt) as [_ V].
      rewrite V. unfold sgn. rewrite Qmult_1_l. apply uval_relative. exact Hq.
    + rewrite (round_pos_inf prec emax Hprec Hemax false q P Ge) in F. destruct F.
Qed.

End Format.

End RelativeError.

(** ** Frame numbers of evenly spaced frames *)

Module ExactNumbers.

Import IEEE.
Local Open Scope Q_scope.

(** The unit roundoffs of [double] and [float]. *)
Definition u : Q := 1 # 9007199254740992.
Definition w : Q := 1 # 16777216.

Lemma u_pow2 : pow2 (- F64.prec) == u.
Proof. vm_compute. reflexivity. Qed.

Lemma w_pow2 : pow2 (- F32.prec) == w.
Proof. vm_compute. reflexivity. Qed.

(** Four roundings in a row: the frame rate from the spacing [d], the
    nanoseconds per frame [p] from the frame rate [f], the quotient [x] of
    the time difference [k * d] by [p]. *)
Lemma chain (c d k f p x y : Q) :
  0 < c -> 0 < d -> 0 <= k -> 0 < f -> 0 < p -> 0 <= y ->
  c * ((1 - u) * (1 - w)) <= f * d <= c * ((1 + u) * (1 + w)) ->
  c * (1 - u) <= p * f <= c * (1 + u) ->
  y * p == k * d ->
  y * (1 - u) <= x <= y * (1 + u) ->
  x * (1 - u) <= k * ((1 + u) * (1 + u) * (1 + w)) /\
  k * ((1 - u) * (1 - u) * (1 - w)) <= x * (1 + u).
Proof.
  intros Hc Hd Hk Hf Hp Hy [F1 F2] [P1 P2] E [X1 X2].
  assert (Hu : 0 < u /\ u < 1) by (unfold u; split; reflexivity).
  assert (Hw : 0 < w /\ w < 1) by (unfold w; split; reflexivity).
  destruct Hu as [Hu Hu1]. destruct Hw as [Hw Hw1].
  revert F1 F2 P1 P2 X1 X2. generalize u w Hu Hu1 Hw Hw1. clear Hu Hu1 Hw Hw1.
  intros u w Hu Hu1 Hw Hw1 F1 F2 P1 P2 X1 X2.
  assert (A : c * (y * (1 - u)) <= c * (k * ((1 + u) * (1 + w)))).
  { assert (A1 : y * (c * (1 - u)) <= y * (p * f)) by nra.
    assert (A2 : y * (p * f) == k * (f * d)).
    { setoid_replace (y * (p * f)) with (y * p * f) by ring. rewrite E. ring. }
    assert (A3 : k * (f * d) <= k * (c * ((1 + u) * (1 + w)))) by nra.
    lra. }
  assert (B : c * (k * ((1 - u) * (1 - w))) <= c * (y * (1 + u))).
  { assert (B1 : y * (p * f) <= y * (c * (1 + u))) by nra.
    assert (B2 : y * (p * f) == k * (f * d)).
    { setoid_replace (y * (p * f)) with (y * p * f) by ring. rewrite E. ring. }
    assert (B3 : k * (c * ((1 - u) * (1 - w))) <= k * (f * d)) by nra.
    lra. }
  apply Qmult_le_l in A; [|exact Hc]. apply Qmult_le_l in B; [|exact Hc].
  split.
  - assert (x * (1 - u) <= y * (1 + u) * (1 - u)) by nra.
    assert (y * (1 - u) * (1 + u) <= k * ((1 + u) * (1 + w)) * (1 + u)) by nra.
    lra.
  - assert (y * (1 - u) * (1 + u) <= x * (1 + u)) by nra.
    assert (k * ((1 - u) * (1 - w)) * (1 - u) <= y * (1 + u) * (1 - u)) by nra.
    lra.
Qed.

(** Up to frame number 2^22 the accumulated error stays below one half. *)
Lemma within_half (k x : Q) :
  1 <= k -> k <= 4194304 ->
  x * (1 - u) <= k * ((1 + u) * (1 + u) * (1 + w)) ->
  k * ((1 - u) * (1 - u) * (1 - w)) <= x * (1 + u) ->
  k - (1 # 2) < x /\ x < k + (1 # 2).
Proof. unfold u, w. intros. split; lra. Qed.

Lemma rha_within_half (k : Z) (x : Q) :
  (0 <= k)%Z -> inject_Z k - (1 # 2) < x -> x < inject_Z k + (1 # 2) -> 0 <= x ->
  rha x = k.
Proof.
  intros Hk L U P. unfold rha.
  replace (Qle_bool 0 x) with true by (symmetry; apply Qle_bool_iff; exact P).
  pose proof (Qfloor_le (x + (1 # 2))) as F1. pose proof (Qlt_floor (x + (1 # 2))) as F2.
  rewrite inject_Z_plus in F2. change (inject_Z 1) with 1 in F2.
  assert (A : inject_Z (Qfloor (x + (1 # 2))) < inject_Z k + 1) by lra.
  assert (B : inject_Z k < inject_Z (Qfloor (x + (1 # 2))) + 1) by lra.
  change 1 with (inject_Z 1) in A, B. rewrite <- inject_Z_plus in A, B.
  rewrite <- Zlt_Qlt in A, B. lia.
Qed.

(** A [float] is a [double]. *)
Lemma rep32_rep64 (q : Q) : F32.rep q -> F64.rep q.
Proof.
  intros (k & e & E & Hk & He & Lo & Hi). exists k, e.
  unfold F32.prec, F32.emax, F64.prec, F64.emax, emin in *.
  split; [exact E|]. split; [lia|]. split; [lia|].
  pose proof (pow2_le 128 1024 ltac:(lia)). split; lra.
Qed.

Lemma of_float_exact (x : spec_float) :
  F32.fin x -> F64.fin (F64.of_float x) /\ val (F64.of_float x) == val x.
Proof.
  intros F.
  pose proof (fin_rep F32.prec F32.emax F32.prec32_gt_1 F32.prec32_lt_emax x F) as R.
  apply rep32_rep64 in R.
  destruct x as [s | s | | s m e]; try contradiction.
  - split; [exact I | reflexivity].
  - unfold F64.of_float, of_float.
    apply (round_exact F64.prec F64.emax F64.prec64_gt_1 F64.prec64_lt_emax). exact R.
Qed.

Lemma fin_1e9 : F64.fin (F64.of_Z 1000000000) /\ val (F64.of_Z 1000000000) == 1000000000.
Proof. split; [vm_compute; split; [reflexivity | split; discriminate] | vm_compute; reflexivity]. Qed.

(** The frame rate computed from the spacing [d]. *)
Definition rate_of (d : Z) : spec_float :=
  F32.of_float (F64.div (F64.of_Z 1000000000) (F64.of_Z d)).

Lemma rate_of_bounds (d : Z) :
  (1 <= d < 2 ^ 53)%Z ->
  F32.fin (rate_of d) /\
  pow2 (- 24) <= val (rate_of d) <= pow2 30 /\
  1000000000 * ((1 - u) * (1 - w)) <= val (rate_of d) * inject_Z d
    <= 1000000000 * ((1 + u) * (1 + w)).
Proof.
  intros Hd. destruct (EvenSpacing.of_Z_exact d ltac:(lia)) as [FD VD].
  destruct fin_1e9 as [FC VC].
  assert (Dq : 1 <= inject_Z d) by (rewrite <- (Zle_Qle 1); lia).
  assert (Dh : inject_Z d <= inject_Z (2 ^ 53)) by (rewrite <- Zle_Qle; lia).
  change (inject_Z (2 ^ 53)) with 9007199254740992 in Dh.
  assert (E24 : pow2 (- 24) == 1 # 16777216) by (vm_compute; reflexivity).
  assert (E30 : pow2 30 == 1073741824) by (vm_compute; reflexivity).
  assert (Nz : ~ val (F64.of_Z d) == 0) by (rewrite VD; lra).
  assert (B1 : pow2 (- 24) <= val (F64.of_Z 1000000000) / val (F64.of_Z d) <= pow2 30).
  { rewrite VC, VD, E24, E30. split.
    - apply Qle_shift_div_l; lra.
    - apply Qle_shift_div_r; lra. }
  destruct (fdiv_between F64.prec F64.emax F64.prec64_gt_1 F64.prec64_lt_emax _ _ _ _
              FC FD Nz
              (FrameRate.rep64_pow2 _ (- 24) (Qeq_refl _) ltac:(lia))
              (FrameRate.rep64_pow2 _ 30 (Qeq_refl _) ltac:(lia)) B1) as (F1 & L1 & H1).
  fold (F64.div (F64.of_Z 1000000000) (F64.of_Z d)) in *.
  destruct (fdiv_round F64.prec F64.emax F64.prec64_gt_1 F64.prec64_lt_emax
              (F64.of_Z 1000000000) (F64.of_Z d)
              (fin_num F64.prec F64.emax F64.prec64_gt_1 F64.prec64_lt_emax _ FC)
              (fin_num F64.prec F64.emax F64.prec64_gt_1 F64.prec64_lt_emax _ FD) Nz)
    as [s1 Eq1].
  fold (F64.div (F64.of_Z 1000000000) (F64.of_Z d)) in Eq1.
  assert (R1 : val (F64.of_Z 1000000000) / val (F64.of_Z d) * (1 - u)
               <= val (F64.div (F64.of_Z 1000000000) (F64.of_Z d))
               <= val (F64.of_Z 1000000000) / val (F64.of_Z d) * (1 + u)).
  { rewrite <- u_pow2. rewrite Eq1. rewrite Eq1 in F1.
    apply (RelativeError.round_relative F64.prec F64.emax F64.prec64_gt_1 F64.prec64_lt_emax);
      [|exact F1].
    eapply Qle_trans; [|exact (proj1 B1)]. apply pow2_le. vm_compute. discriminate. }
  set (q1 := F64.div (F64.of_Z 1000000000) (F64.of_Z d)) in *.
  assert (Nq : is_num q1 = true)
    by (apply (fin_num F64.prec F64.emax F64.prec64_gt_1 F64.prec64_lt_emax _ F1)).
  destruct (of_float_between F32.prec F32.emax F32.prec32_gt_1 F32.prec32_lt_emax q1 _ _ Nq
              (FrameRate.rep32_pow2 _ (- 24) (Qeq_refl _) ltac:(lia))
              (FrameRate.rep32_pow2 _ 30 (Qeq_refl _) ltac:(lia)) (conj L1 H1))
    as (F2 & L2 & H2).
  fold (F32.of_float q1) in *. fold (rate_of d) in *.
  split; [exact F2|]. split; [split; assumption|].
  assert (R2 : val q1 * (1 - w) <= val (rate_of d) <= val q1 * (1 + w)).
  { rewrite <- w_pow2. unfold rate_of. fold q1.
    assert (P24 : 0 < pow2 (- 24)) by apply pow2_pos.
    destruct q1 as [s | s | | s m e]; try discriminate Nq.
    - simpl in L1. lra.
    - unfold F32.of_float, of_float in *.
      apply (RelativeError.round_relative F32.prec F32.emax F32.prec32_gt_1
               F32.prec32_lt_emax); [|exact F2].
      eapply Qle_trans; [|exact L1]. apply pow2_le. vm_compute. discriminate. }
  rewrite VC, VD in R1.
  set (v1 := val q1) in *. set (f := val (rate_of d)) in *. set (dq := inject_Z d) in *.
  assert (Ed : 1000000000 / dq * dq == 1000000000) by (field; lra).
  assert (Pv : 0 < v1) by (rewrite E24 in L1; lra).
  assert (Hu : 0 < u /\ u < 1) by (unfold u; split; reflexivity).
  assert (Hw : 0 < w /\ w < 1) by (unfold w; split; reflexivity).
  destruct R1 as [R1a R1b]. destruct R2 as [R2a R2b].
  set (r := 1000000000 / dq) in *.
  assert (Pr : 0 < r) by (unfold r; apply Qlt_shift_div_l; lra).
  revert R1a R1b R2a R2b. destruct Hu as [Hu Hu1]. destruct Hw as [Hw Hw1].
  generalize u w Hu Hu1 Hw Hw1. clear Hu Hu1 Hw Hw1. intros u w Hu Hu1 Hw Hw1 R1a R1b R2a R2b.
  assert (G1 : r * ((1 - u) * (1 - w)) <= f) by nra.
  assert (G2 : f <= r * ((1 + u) * (1 + w))) by nra.
  split.
  - setoid_replace (1000000000 * ((1 - u) * (1 - w)))
      with (r * ((1 - u) * (1 - w)) * dq) by (rewrite <- Ed; ring).
    apply Qmult_le_compat_r; lra.
  - setoid_replace (1000000000 * ((1 + u) * (1 + w)))
      with (r * ((1 + u) * (1 + w)) * dq) by (rewrite <- Ed; ring).
    apply Qmult_le_compat_r; lra.
Qed.

(** [1000000000.0 / frameRate] for such a frame rate. *)
Lemma npf_bounds (frameRate : spec_float) :
  F32.fin frameRate -> pow2 (- 24) <= val frameRate <= pow2 30 ->
  let npf := F64.div (F64.of_Z 1000000000) (F64.of_float frameRate) in
  F64.fin npf /\ pow2 (- 1) <= val npf <= pow2 54 /\
  1000000000 * (1 - u) <= val npf * val frameRate <= 1000000000 * (1 + u).
Proof.
  intros Ff [Lf Hf] npf.
  destruct (of_float_exact frameRate Ff) as [Fd Vd].
  destruct fin_1e9 as [FC VC].
  assert (E24 : pow2 (- 24) == 1 # 16777216) by (vm_compute; reflexivity).
  assert (E30 : pow2 30 == 1073741824) by (vm_compute; reflexivity).
  assert (E1 : pow2 (- 1) == 1 # 2) by (vm_compute; reflexivity).
  assert (E54 : pow2 54 == 18014398509481984) by (vm_compute; reflexivity).
  set (fd := F64.of_float frameRate) in *.
  assert (Nz : ~ val fd == 0) by (rewrite Vd; lra).
  assert (B : pow2 (- 1) <= val (F64.of_Z 1000000000) / val fd <= pow2 54).
  { rewrite VC, Vd, E1, E54. split.
    - apply Qle_shift_div_l; lra.
    - apply Qle_shift_div_r; lra. }
  destruct (fdiv_between F64.prec F64.emax F64.prec64_gt_1 F64.prec64_lt_emax _ _ _ _
              FC Fd Nz
              (FrameRate.rep64_pow2 _ (- 1) (Qeq_refl _) ltac:(lia))
              (FrameRate.rep64_pow2 _ 54 (Qeq_refl _) ltac:(lia)) B) as (F1 & L1 & H1).
  fold (F64.div (F64.of_Z 1000000000) fd) in *. fold npf in F1, L1, H1.
  split; [exact F1|]. split; [split; assumption|].
  destruct (fdiv_round F64.prec F64.emax F64.prec64_gt_1 F64.prec64_lt_emax
              (F64.of_Z 1000000000) fd
              (fin_num F64.prec F64.emax F64.prec64_gt_1 F64.prec64_lt_emax _ FC)
              (fin_num F64.prec F64.emax F64.prec64_gt_1 F64.prec64_lt_emax _ Fd) Nz)
    as [s1 Eq1].
  fold (F64.div (F64.of_Z 1000000000) fd) in Eq1. fold npf in Eq1.
  assert (R : val (F64.of_Z 1000000000) / val fd * (1 - u)
              <= val npf <= val (F64.of_Z 1000000000) / val fd * (1 + u)).
  { rewrite <- u_pow2. rewrite Eq1. rewrite Eq1 in F1.
    apply (RelativeError.round_relative F64.prec F64.emax F64.prec64_gt_1 F64.prec64_lt_emax);
      [|exact F1].
    eapply Qle_trans; [|exact (proj1 B)]. apply pow2_le. vm_compute. discriminate. }
  rewrite VC, Vd in R.
  set (f := val frameRate) in *. set (p := val npf) in *.
  assert (Pf : 0 < f) by lra.
  assert (Ed : 1000000000 / f * f == 1000000000) by (field; lra).
  destruct R as [Ra Rb].
  split.
  - setoid_replace (1000000000 * (1 - u)) with (1000000000 / f * (1 - u) * f)
      by (rewrite <- Ed at 1; ring).
    apply Qmult_le_compat_r; lra.
  - setoid_replace (1000000000 * (1 + u)) with (1000000000 / f * (1 + u) * f)
      by (rewrite <- Ed at 1; ring).
    apply Qmult_le_compat_r; lra.
Qed.

(** The quotient [timeDifference / nanosecondsPerFrame] for frame [k]. *)
Lemma quotient_rounds_to_k (d k : Z) :
  (1 <= d)%Z -> (1 <= k <= 4194304)%Z -> (k * d < 2 ^ 53)%Z ->
  let npf := F64.div (F64.of_Z 1000000000) (F64.of_float (rate_of d)) in
  let x := F64.div (F64.of_Z (k * d)) npf in
  F64.fin x /\ 0 < val x /\ rha (val x) = k.
Proof.
  intros Hd Hk Hkd npf x.
  assert (Hd53 : (1 <= d < 2 ^ 53)%Z) by nia.
  destruct (rate_of_bounds d Hd53) as (Ff & Bf & Rf).
  destruct (npf_bounds (rate_of d) Ff Bf) as (Fp & Bp & Rp). fold npf in Fp, Bp, Rp.
  destruct (EvenSpacing.of_Z_exact (k * d) ltac:(lia)) as [FT VT].
  assert (E24 : pow2 (- 24) == 1 # 16777216) by (vm_compute; reflexivity).
  assert (E30 : pow2 30 == 1073741824) by (vm_compute; reflexivity).
  assert (E1 : pow2 (- 1) == 1 # 2) by (vm_compute; reflexivity).
  assert (E54 : pow2 54 == 18014398509481984) by (vm_compute; reflexivity).
  assert (E23 : pow2 23 == 8388608) by (vm_compute; reflexivity).
  assert (Dq : 1 <= inject_Z d) by (rewrite <- (Zle_Qle 1); lia).
  assert (Kq : 1 <= inject_Z k) by (rewrite <- (Zle_Qle 1); lia).
  assert (Kh : inject_Z k <= inject_Z 4194304) by (rewrite <- Zle_Qle; lia).
  change (inject_Z 4194304) with 4194304 in Kh.
  rewrite inject_Z_mult in VT.
  set (f := val (rate_of d)) in *. set (p := val npf) in *.
  set (kq := inject_Z k) in *. set (dq := inject_Z d) in *.
  assert (Pf : 0 < f) by lra. assert (Pp : 0 < p) by lra.
  assert (Nz : ~ p == 0) by lra.
  set (y := kq * dq / p).
  assert (Py : 0 <= y).
  { unfold y. apply Qle_shift_div_l; [exact Pp|]. nra. }
  assert (Ey : y * p == kq * dq) by (unfold y; field; exact Nz).
  (* the exact quotient is already close to k *)
  assert (C0 : y * (1 - u) <= kq * ((1 + u) * (1 + w)) /\
               kq * ((1 - u) * (1 - w)) <= y * (1 + u)).
  { clear - Rf Rp Ey Pf Pp Py Kq Dq.
    assert (Hu : 0 < u /\ u < 1) by (unfold u; split; reflexivity).
    assert (Hw : 0 < w /\ w < 1) by (unfold w; split; reflexivity).
    destruct Hu as [Hu Hu1]. destruct Hw as [Hw Hw1].
    destruct Rf as [F1 F2]. destruct Rp as [P1 P2].
    revert F1 F2 P1 P2. generalize u w Hu Hu1 Hw Hw1. clear Hu Hu1 Hw Hw1.
    intros u w Hu Hu1 Hw Hw1 F1 F2 P1 P2.
    assert (A1 : y * (1000000000 * (1 - u)) <= y * (p * f)) by nra.
    assert (A2 : y * (p * f) == kq * (f * dq)).
    { setoid_replace (y * (p * f)) with (y * p * f) by ring. rewrite Ey. ring. }
    assert (A3 : kq * (f * dq) <= kq * (1000000000 * ((1 + u) * (1 + w)))) by nra.
    assert (B1 : y * (p * f) <= y * (1000000000 * (1 + u))) by nra.
    assert (B3 : kq * (1000000000 * ((1 - u) * (1 - w))) <= kq * (f * dq)) by nra.
    split; lra. }
  assert (By : (1 # 2) <= y <= 8388608).
  { destruct C0 as [C1 C2]. unfold u, w in C1, C2. split; lra. }
  assert (B : pow2 (- 1) <= val (F64.of_Z (k * d)) / val npf <= pow2 23).
  { rewrite VT, E1, E23. fold p. fold y. exact By. }
  destruct (fdiv_between F64.prec F64.emax F64.prec64_gt_1 F64.prec64_lt_emax _ _ _ _
              FT Fp Nz
              (FrameRate.rep64_pow2 _ (- 1) (Qeq_refl _) ltac:(lia))
              (FrameRate.rep64_pow2 _ 23 (Qeq_refl _) ltac:(lia)) B) as (Fx & Lx & Hx).
  fold (F64.div (F64.of_Z (k * d)) npf) in *. fold x in Fx, Lx, Hx.
  destruct (fdiv_round F64.prec F64.emax F64.prec64_gt_1 F64.prec64_lt_emax
              (F64.of_Z (k * d)) npf
              (fin_num F64.prec F64.emax F64.prec64_gt_1 F64.prec64_lt_emax _ FT)
              (fin_num F64.prec F64.emax F64.prec64_gt_1 F64.prec64_lt_emax _ Fp) Nz)
    as [s1 Eq1].
  fold (F64.div (F64.of_Z (k * d)) npf) in Eq1. fold x in Eq1.
  assert (R : val (F64.of_Z (k * d)) / val npf * (1 - u)
              <= val x <= val (F64.of_Z (k * d)) / val npf * (1 + u)).
  { rewrite <- u_pow2. rewrite Eq1. rewrite Eq1 in Fx.
    apply (RelativeError.round_relative F64.prec F64.emax F64.prec64_gt_1 F64.prec64_lt_emax);
      [|exact Fx].
    eapply Qle_trans; [|exact (proj1 B)]. apply pow2_le. vm_compute. discriminate. }
  rewrite VT in R. fold p in R. fold y in R.
  destruct (chain 1000000000 dq kq f p (val x) y ltac:(lra) ltac:(lra) ltac:(lra) Pf Pp Py
              Rf Rp Ey R) as [U L].
  destruct (within_half kq (val x) Kq Kh U L) as [W1 W2].
  split; [exact Fx|]. split; [lra|].
  apply rha_within_half; [lia | exact W1 | exact W2 | lra].
Qed.

Local Open Scope Z_scope.

(** Frame [k] of a capture spaced by [d] has frame number [k]. *)
Lemma frame_number_exact (t0 d k : Z) :
  1 <= d < 2 ^ 53 -> 0 <= k <= 4194304 -> k * d < 2 ^ 53 ->
  getFrameNumberFromTimestamp (t0 + k * d) t0 (rate_of d) = Some k.
Proof.
  intros Hd53 Hk Hkd. assert (Hd : 1 <= d) by lia.
  assert (E24 : (pow2 (- 24) == 1 # 16777216)%Q) by (vm_compute; reflexivity).
  destruct (Z.eq_dec k 0) as [-> | Hk0].
  { destruct (rate_of_bounds d Hd53) as (Ff & [Lf _] & _).
    rewrite Z.mul_0_l, Z.add_0_r.
    apply FrameNumber.zero_at_reference; [exact Ff | lra]. }
  destruct (rate_of_bounds d Hd53) as (Ff & [Lf _] & _).
  destruct (quotient_rounds_to_k d k Hd ltac:(lia) Hkd) as (Fx & Px & Rx).
  unfold getFrameNumberFromTimestamp.
  rewrite (FrameNumber.positive_fin_is_not_le_zero (rate_of d) Ff) by lra.
  replace (t0 + k * d - t0)%Z with (k * d)%Z by lia.
  rewrite wrap64_id by (unfold in_int64, INT64_MIN, INT64_MAX; lia).
  destruct (Z.ltb_spec (k * d) 0) as [C | _]; [nia|].
  cbv zeta.
  set (x := F64.div (F64.of_Z (k * d))
              (F64.div (F64.of_Z 1000000000) (F64.of_float (rate_of d)))) in *.
  destruct x as [s | s | | s m e];
    [exfalso; apply (Qlt_irrefl 0); exact Px | destruct Fx | destruct Fx |].
  unfold F64.round, fround. rewrite Rx.
  destruct (EvenSpacing.round_holds (inject_Z k) s k ltac:(lia) (Qeq_refl _)) as [Fr Vr].
  set (r := round F64.prec F64.emax (inject_Z k) s) in *.
  unfold to_int64, to_int.
  rewrite (fin_num F64.prec F64.emax F64.prec64_gt_1 F64.prec64_lt_emax _ Fr).
  assert (T : truncQ (val r) = k).
  { unfold truncQ.
    assert (P : (0 <= val r)%Q) by (rewrite Vr, <- (Zle_Qle 0); lia).
    replace (Qle_bool 0 (val r)) with true by (symmetry; apply Qle_bool_iff; exact P).
    rewrite (Qfloor_comp _ _ Vr). apply Qfloor_Z. }
  rewrite T.
  replace ((INT64_MIN <=? k)%Z && (k <=? INT64_MAX)%Z) with true; [reflexivity|].
  symmetry. apply andb_true_iff. unfold INT64_MIN, INT64_MAX.
  split; apply Z.leb_le; lia.
Qed.

(** With exact frame numbers every frame after the first fills the slot
    before its own. *)
Lemma addVideoFrames_even (t0 d size : Z) (m : nat) : forall i : nat,
  (forall j : nat, (j <= i + m)%nat ->
     getFrameNumberFromTimestamp (t0 + Z.of_nat j * d) t0 (rate_of d) = Some (Z.of_nat j)) ->
  (Z.of_nat (i + m) <= INT_MAX)%Z ->
  addVideoFrames (map (fun j => (t0 + Z.of_nat j * d)%Z) (seq (S i) m)) t0 (rate_of d)
    size (Z.of_nat i)
  = Some (map (fun j => frameEntry size (Z.of_nat j) (t0 + Z.of_nat (S j) * d))
              (seq i m)).
Proof.
  induction m as [|m IH]; intros i H Hmax; [reflexivity|].
  cbn [seq map addVideoFrames].
  rewrite (H (S i)) by lia.
  rewrite wrap32_id by (unfold in_int, INT_MIN, INT_MAX in *; lia).
  replace (Z.max (Z.of_nat i) (Z.of_nat (S i))) with (Z.of_nat (S i)) by lia.
  rewrite IH; [| intros j Hj; apply H; lia | lia].
  replace (Z.to_nat (Z.of_nat (S i) - Z.of_nat i)) with 1%nat by lia.
  reflexivity.
Qed.

End ExactNumbers.

(** X8: in a capture whose frames are evenly spaced by [d] nanoseconds,
    frame [k] gets frame number [k] from the frame rate that
    [calculateFrameRate] derives from the capture: the four roundings on
    the way do not add up to half a frame, up to frame 2^22. *)
Theorem evenly_spaced_frames_are_numbered_in_order (t0 d : Z) (n k : nat) :
  1 <= d -> 2 <= Z.of_nat n <= 4194304 -> (k < n)%nat -> Z.of_nat n * d < 2 ^ 53 ->
  getFrameNumberFromTimestamp (t0 + Z.of_nat k * d) t0
    (calculateFrameRate (EvenSpacing.evenly_spaced t0 d n))
  = Some (Z.of_nat k).
Proof.
  intros Hd Hn Hk Hnd.
  rewrite EvenSpacing.frame_rate_even; [| nia | lia | unfold INT_MAX; lia].
  apply ExactNumbers.frame_number_exact; [nia | lia | nia].
Qed.

(** Witness for X8: frame 3 of a capture of four frames at 30 fps. *)
Lemma evenly_spaced_frames_are_numbered_in_order_witness :
  getFrameNumberFromTimestamp 100000004 5
    (calculateFrameRate [5; 33333338; 66666671; 100000004])
  = Some 3.
Proof.
  apply (evenly_spaced_frames_are_numbered_in_order 5 33333333 4 3); lia.
Defined.

(** X9: for a capture of [n] evenly spaced frames, [init] lists exactly
    [n - 1] image entries, slot [j] carrying frame [j + 1]: no slot is
    duplicated or skipped, the first frame is in no entry, and the slot of
    the last frame is not listed. *)
Theorem evenly_spaced_capture_lists_each_later_frame_once (t0 d size : Z) (n : nat) :
  1 <= d -> 2 <= Z.of_nat n <= 4194304 -> Z.of_nat n * d < 2 ^ 53 ->
  addVideoFrames (EvenSpacing.evenly_spaced t0 d n) t0
    (calculateFrameRate (EvenSpacing.evenly_spaced t0 d n)) size 0
  = Some (map (fun j => frameEntry size (Z.of_nat j) (t0 + Z.of_nat (S j) * d))
              (seq 0 (n - 1))).
Proof.
  intros Hd Hn Hnd.
  assert (Hd53 : (1 <= d < 2 ^ 53)%Z) by nia.
  rewrite EvenSpacing.frame_rate_even
    by (try exact Hd53; try lia; unfold INT_MAX; lia).
  fold (ExactNumbers.rate_of d).
  assert (H : forall j : nat, (j <= 0 + (n - 1))%nat ->
            getFrameNumberFromTimestamp (t0 + Z.of_nat j * d) t0 (ExactNumbers.rate_of d)
            = Some (Z.of_nat j)).
  { intros j Hj. apply ExactNumbers.frame_number_exact; [exact Hd53 | lia | nia]. }
  destruct n as [|n]; [lia|].
  unfold EvenSpacing.evenly_spaced. cbn [seq map addVideoFrames].
  rewrite (H 0%nat) by lia.
  change (wrap32 (Z.of_nat 0)) with 0%Z. change (Z.max 0 0) with 0%Z.
  change (Z.to_nat (0 - 0)) with 0%nat. cbn [duplicateFrames app].
  replace (S n - 1)%nat with n by lia.
  assert (A : addVideoFrames (map (fun j => t0 + Z.of_nat j * d) (seq 1 n)) t0 (ExactNumbers.rate_of d)
                size (Z.of_nat 0)
              = Some (map (fun j => frameEntry size (Z.of_nat j) (t0 + Z.of_nat (S j) * d))
                          (seq 0 n))).
  { apply ExactNumbers.addVideoFrames_even; [intros j Hj; apply H; lia | unfold INT_MAX; lia]. }
  change (Z.of_nat 0) with 0 in A. rewrite A. reflexivity.
Qed.

(** Witness for X9: four frames at 30 fps give three entries. *)
Lemma evenly_spaced_capture_lists_each_later_frame_once_witness :
  addVideoFrames [5; 33333338; 66666671; 100000004] 5
    (calculateFrameRate [5; 33333338; 66666671; 100000004]) 4096 0
  = Some [frameEntry 4096 0 33333338; frameEntry 4096 1 66666671;
          frameEntry 4096 2 100000004].
Proof.
  apply (evenly_spaced_capture_lists_each_later_frame_once 5 33333333 4096 4); lia.
Defined.

(** ** bw64 utils.hpp: checked integer conversions *)

Module SafeInt.

(** A fixed-width integer type: its signedness and its number of bits. *)
Record IntType : Type := mkIntType { is_signed : bool; bits : Z }.

Definition int8_t : IntType := mkIntType true 8.
Definition uint8_t : IntType := mkIntType false 8.
Definition int16_t : IntType := mkIntType true 16.
Definition uint16_t : IntType := mkIntType false 16.
Definition int32_t : IntType := mkIntType true 32.
Definition uint32_t : IntType := mkIntType false 32.
Definition int64_t : IntType := mkIntType true 64.
Definition uint64_t : IntType := mkIntType false 64.

(** [std::streamoff] is a signed 64-bit integer. *)
Definition streamoff : IntType := int64_t.

(** [std::numeric_limits<T>::max()] and [min()]. *)
Definition max_of (t : IntType) : Z :=
  if is_signed t then 2 ^ (bits t - 1) - 1 else 2 ^ bits t - 1.

Definition min_of (t : IntType) : Z :=
  if is_signed t then - 2 ^ (bits t - 1) else 0.

(** [static_cast<T>]: the value modulo 2^bits. *)
Definition convert (t : IntType) (x : Z) : Z :=
  if is_signed t then wrapS (bits t) x else x mod 2 ^ bits t.

(** [std::make_signed<T>::type]. *)
Definition make_signed (t : IntType) : IntType := mkIntType true (bits t).

(** Integral promotion: a type narrower than [int] becomes [int]. *)
Definition promote (t : IntType) : IntType :=
  if bits t <? 32 then int32_t else t.

(** The usual arithmetic conversions: the type in which a binary operator
    works on operands of types [a] and [b]. *)
Definition common (a b : IntType) : IntType :=
  let a := promote a in
  let b := promote b in
  if Bool.eqb (is_signed a) (is_signed b) then (if bits a <? bits b then b else a)
  else
    let u := if is_signed a then b else a in
    let s := if is_signed a then a else b in
    if bits s <=? bits u then u else s.

(** [x < y] for [x] of type [a] and [y] of type [b]. *)
Definition less (a b : IntType) (x y : Z) : bool :=
  convert (common a b) x <? convert (common a b) y.

(** [checkUpper<To>(x)] for [x] of type [From]. *)
Definition checkUpper (To From : IntType) (x : Z) : outcome unit :=
  if less To From (max_of To) (max_of From) then
    if less From From (convert From (max_of To)) x
    then Throws (runtime_error "overflow")
    else Ok tt
  else Ok tt.

(** [checkLower<To>(x)] for [x] of type [From]. *)
Definition checkLower (To From : IntType) (x : Z) : outcome unit :=
  let FromS := make_signed From in
  let ToS := make_signed To in
  if less FromS ToS (convert FromS (min_of From)) (convert ToS (min_of To)) then
    if less From FromS x (convert FromS (min_of To))
    then Throws (runtime_error "underflow")
    else Ok tt
  else Ok tt.

(** [safeCast<To>(x)] for [x] of type [From]. *)
Definition safeCast (To From : IntType) (x : Z) : outcome Z :=
  _ <- checkUpper To From x ;;
  _ <- checkLower To From x ;;
  Ok (convert To x).

(** The result of [+] or [-] in type [t]: modular when unsigned, undefined
    on overflow when signed. *)
Definition arith (t : IntType) (r : Z) : outcome Z :=
  if is_signed t
  then if (min_of t <=? r) && (r <=? max_of t) then Ok r else Undefined
  else Ok (r mod 2 ^ bits t).

(** [safeAdd<T>(x, y)]. *)
Definition safeAdd (T : IntType) (x y : Z) : outcome Z :=
  let P := promote T in
  let positive := less int32_t T 0 y in
  let negative := less T int32_t y 0 in
  over <- (if positive
           then d <- arith P (max_of T - y) ;; Ok (less P P d x)
           else Ok false) ;;
  under <- (if over then Ok false
            else if negative
            then d <- arith P (min_of T - y) ;; Ok (less P P x d)
            else Ok false) ;;
  if over || under
  then Throws (runtime_error (if positive then "overflow" else "underflow"))
  else s <- arith P (x + y) ;; Ok (convert T s).

(** The types of [<cstdint>]. *)
Definition valid (t : IntType) : Prop :=
  bits t = 8 \/ bits t = 16 \/ bits t = 32 \/ bits t = 64.

Definition in_range (t : IntType) (x : Z) : Prop := min_of t <= x <= max_of t.

(** *** Facts *)

Ltac each_type t H :=
  destruct t as [[|] ?b]; unfold valid in H; cbn [bits] in H;
  destruct H as [-> | [-> | [-> | ->]]].

Lemma convert_id (t : IntType) (x : Z) : valid t -> in_range t x -> convert t x = x.
Proof.
  intros V R. unfold in_range, min_of, max_of, convert in *.
  each_type t V; cbn [is_signed bits] in *;
    first [ apply wrapS_id; [lia | simpl in *; lia]
          | apply Z.mod_small; simpl in *; lia ].
Qed.

Lemma in_range_promote (t : IntType) (x : Z) :
  valid t -> in_range t x -> in_range (promote t) x /\ valid (promote t).
Proof.
  intros V R. unfold in_range, min_of, max_of, promote, valid in *.
  each_type t V; cbn [is_signed bits] in *; simpl in *; split; try lia; auto.
Qed.

(** [less] on values that the common type holds is the comparison of the
    values. *)
Lemma less_values (a b : IntType) (x y : Z) :
  valid (common a b) -> in_range (common a b) x -> in_range (common a b) y ->
  less a b x y = (x <? y).
Proof. intros V Rx Ry. unfold less. rewrite !convert_id by assumption. reflexivity. Qed.

Lemma common_valid (a b : IntType) : valid a -> valid b -> valid (common a b).
Proof.
  intros Va Vb. each_type a Va; each_type b Vb; unfold valid; cbn; auto.
Qed.

(** The guard of [checkUpper] compares the two maxima. *)
Lemma upper_guard (To From : IntType) :
  valid To -> valid From ->
  less To From (max_of To) (max_of From) = (max_of To <? max_of From) /\
  (max_of To < max_of From -> convert From (max_of To) = max_of To).
Proof.
  intros Vt Vf. each_type To Vt; each_type From Vf; split; try reflexivity;
    intros H; try reflexivity; exfalso; revert H; vm_compute; discriminate.
Qed.

(** The guard of [checkLower] compares the two minima. *)
Lemma lower_guard (To From : IntType) :
  valid To -> valid From ->
  less (make_signed From) (make_signed To)
       (convert (make_signed From) (min_of From)) (convert (make_signed To) (min_of To))
  = (min_of From <? min_of To) /\
  (min_of From < min_of To ->
   convert (make_signed From) (min_of To) = min_of To /\ is_signed From = true).
Proof.
  intros Vt Vf. each_type To Vt; each_type From Vf; split; try reflexivity;
    intros H; try (split; reflexivity); exfalso; revert H; vm_compute; discriminate.
Qed.

Lemma common_self (t : IntType) : common t t = promote t.
Proof.
  unfold common. rewrite Bool.eqb_reflx, Z.ltb_irrefl. reflexivity.
Qed.

Lemma common_make_signed (t : IntType) :
  is_signed t = true -> common t (make_signed t) = promote t.
Proof.
  destruct t as [s b]. cbn. intros ->. apply common_self.
Qed.

Lemma in_range_max_of (To From : IntType) :
  valid To -> valid From -> max_of To < max_of From -> in_range From (max_of To).
Proof.
  intros Vt Vf. unfold in_range.
  each_type To Vt; each_type From Vf; vm_compute; intros H; try discriminate H;
    split; discriminate.
Qed.

Lemma in_range_min_of (To From : IntType) :
  valid To -> valid From -> min_of From < min_of To -> in_range From (min_of To).
Proof.
  intros Vt Vf. unfold in_range.
  each_type To Vt; each_type From Vf; vm_compute; intros H; try discriminate H;
    split; discriminate.
Qed.

Lemma max_of_ge (To From : IntType) (x : Z) :
  in_range From x -> ~ max_of To < max_of From -> x <= max_of To.
Proof. unfold in_range. lia. Qed.

(** [safeCast] returns the value unchanged when the target type holds it,
    and throws otherwise. *)
Lemma safeCast_spec (To From : IntType) (x : Z) :
  valid To -> valid From -> in_range From x ->
  safeCast To From x =
    if max_of To <? x then Throws (runtime_error "overflow")
    else if x <? min_of To then Throws (runtime_error "underflow")
    else Ok x.
Proof.
  intros Vt Vf Rx.
  destruct (in_range_promote From x Vf Rx) as [Rp Vp].
  destruct (upper_guard To From Vt Vf) as [Gu Cu].
  destruct (lower_guard To From Vt Vf) as [Gl Cl].
  unfold safeCast, checkUpper, checkLower. cbv zeta. rewrite Gu, Gl.
  assert (Up : (if max_of To <? max_of From
                then if less From From (convert From (max_of To)) x
                     then Throws (runtime_error "overflow") else Ok tt
                else Ok tt)
               = if max_of To <? x then Throws (runtime_error "overflow") else Ok tt).
  { destruct (Z.ltb_spec (max_of To) (max_of From)) as [L | G].
    - rewrite (Cu L).
      rewrite less_values;
        [reflexivity | rewrite common_self; exact Vp | rewrite common_self |
         rewrite common_self; exact Rp].
      apply in_range_promote; [exact Vf | apply in_range_max_of; assumption].
    - destruct (Z.ltb_spec (max_of To) x); [unfold in_range in Rx; lia | reflexivity]. }
  assert (Lo : (if min_of From <? min_of To
                then if less From (make_signed From) x (convert (make_signed From) (min_of To))
                     then Throws (runtime_error "underflow") else Ok tt
                else Ok tt)
               = if x <? min_of To then Throws (runtime_error "underflow") else Ok tt).
  { destruct (Z.ltb_spec (min_of From) (min_of To)) as [L | G].
    - destruct (Cl L) as [E S]. rewrite E.
      rewrite less_values;
        [reflexivity | rewrite (common_make_signed _ S); exact Vp |
         rewrite (common_make_signed _ S); exact Rp |
         rewrite (common_make_signed _ S)].
      apply in_range_promote; [exact Vf | apply in_range_min_of; assumption].
    - destruct (Z.ltb_spec x (min_of To)); [unfold in_range in Rx; lia | reflexivity]. }
  rewrite Up, Lo.
  destruct (Z.ltb_spec (max_of To) x) as [O | NO]; [reflexivity|]. cbn [bind].
  destruct (Z.ltb_spec x (min_of To)) as [U | NU]; [reflexivity|]. cbn [bind].
  rewrite convert_id; [reflexivity | exact Vt | unfold in_range; lia].
Qed.

Lemma arith_in_range (t : IntType) (r : Z) :
  valid t -> in_range t r -> arith t r = Ok r.
Proof.
  intros V R. unfold arith. destruct (is_signed t) eqn:S.
  - unfold in_range in R.
    destruct (Z.leb_spec (min_of t) r); [|lia].
    destruct (Z.leb_spec r (max_of t)); [reflexivity | lia].
  - f_equal. pose proof (convert_id t r V R) as C. unfold convert in C.
    rewrite S in C. exact C.
Qed.

Lemma limits (t : IntType) :
  valid t ->
  min_of t <= 0 /\ 0 < max_of t /\
  min_of (promote t) <= min_of t /\ max_of t <= max_of (promote t) /\
  (is_signed (promote t) = false -> min_of t = 0) /\
  - max_of t - 1 <= min_of t.
Proof.
  intros V.
  each_type t V; unfold min_of, max_of, promote, int32_t; simpl;
    (split; [lia | split; [lia | split; [lia | split; [lia | split; [|lia]]]]]);
    intros H; try discriminate H; reflexivity.
Qed.

Lemma in_range_with_int (t : IntType) (y : Z) :
  valid t -> in_range t y ->
  in_range (common int32_t t) y /\ in_range (common t int32_t) y /\
  in_range (common int32_t t) 0 /\ in_range (common t int32_t) 0 /\
  valid (common int32_t t) /\ valid (common t int32_t).
Proof.
  intros V R. unfold in_range in *.
  each_type t V; unfold valid; cbn in *; repeat split; try lia; auto.
Qed.

Lemma common_promoted (t : IntType) :
  valid t -> common (promote t) (promote t) = promote t.
Proof. intros V. each_type t V; reflexivity. Qed.

(** [safeAdd] returns the sum when the type holds it, and throws
    otherwise; the signed addition never overflows. *)
Lemma safeAdd_spec (T : IntType) (x y : Z) :
  valid T -> in_range T x -> in_range T y ->
  safeAdd T x y =
    if max_of T <? x + y then Throws (runtime_error "overflow")
    else if x + y <? min_of T then Throws (runtime_error "underflow")
    else Ok (x + y).
Proof.
  intros V Rx Ry.
  destruct (in_range_promote T x V Rx) as [Rpx Vp].
  destruct (limits T V) as (L0 & L1 & L2 & L3 & L4 & L5).
  destruct (in_range_with_int T y V Ry) as (I1 & I2 & I3 & I4 & I5 & I6).
  unfold safeAdd. cbv zeta.
  rewrite (less_values int32_t T 0 y I5 I3 I1), (less_values T int32_t y 0 I6 I2 I4).
  unfold in_range in *.
  destruct (Z.ltb_spec 0 y) as [Py | Ny].
  - rewrite arith_in_range by (try exact Vp; unfold in_range; lia). cbn [bind].
    rewrite less_values
      by (rewrite ?(common_promoted T V); try exact Vp; unfold in_range; lia).
    destruct (Z.ltb_spec (max_of T - y) x) as [O | NO]; cbn [bind orb].
    + destruct (Z.ltb_spec (max_of T) (x + y)); [reflexivity | lia].
    + destruct (Z.ltb_spec (max_of T) (x + y)); [lia|].
      destruct (Z.ltb_spec (x + y) (min_of T)); [lia|].
      destruct (Z.ltb_spec y 0); [lia|]. cbn [bind].
      rewrite arith_in_range by (try exact Vp; unfold in_range; lia). cbn [bind].
      rewrite convert_id; [reflexivity | exact V | unfold in_range; lia].
  - cbn [bind].
    destruct (Z.ltb_spec (max_of T) (x + y)); [lia|].
    destruct (Z.ltb_spec y 0) as [My | Zy].
    + assert (Sg : is_signed (promote T) = true).
      { destruct (is_signed (promote T)) eqn:S; [reflexivity|]. pose proof (L4 eq_refl). lia. }
      rewrite arith_in_range by (try exact Vp; unfold in_range; lia). cbn [bind].
      rewrite less_values
        by (rewrite ?(common_promoted T V); try exact Vp; unfold in_range; lia).
      destruct (Z.ltb_spec x (min_of T - y)) as [U | NU]; cbn [orb].
      * destruct (Z.ltb_spec (x + y) (min_of T)); [reflexivity | lia].
      * destruct (Z.ltb_spec (x + y) (min_of T)); [lia|].
        rewrite arith_in_range by (try exact Vp; unfold in_range; lia). cbn [bind].
        rewrite convert_id; [reflexivity | exact V | unfold in_range; lia].
    + cbn [orb]. assert (y = 0) by lia. subst y.
      destruct (Z.ltb_spec (x + 0) (min_of T)); [lia|].
      rewrite arith_in_range by (try exact Vp; unfold in_range; lia). cbn [bind].
      rewrite convert_id; [reflexivity | exact V | unfold in_range; lia].
Qed.

End SafeInt.

(** X10: [safeCast<To>(x)] between any two of the fixed-width integer
    types returns [x] unchanged when [To] can hold it, throws "overflow"
    when [x] is above the largest value of [To] and "underflow" when it is
    below the smallest; it never returns a wrapped value. *)
Theorem safeCast_preserves_the_value_or_throws (To From : SafeInt.IntType) (x : Z) :
  SafeInt.valid To -> SafeInt.valid From -> SafeInt.in_range From x ->
  SafeInt.safeCast To From x =
    if SafeInt.max_of To <? x then Throws (runtime_error "overflow")
    else if x <? SafeInt.min_of To then Throws (runtime_error "underflow")
    else Ok x.
Proof. exact (SafeInt.safeCast_spec To From x). Qed.

(** Witness for X10: the block alignment 4 fits [uint16_t]; 70000 does not. *)
Lemma safeCast_preserves_the_value_or_throws_witness :
  SafeInt.safeCast SafeInt.uint16_t SafeInt.uint32_t 4 = Ok 4 /\
  SafeInt.safeCast SafeInt.uint16_t SafeInt.uint32_t 70000 = Throws (runtime_error "overflow").
Proof.
  split.
  - apply (safeCast_preserves_the_value_or_throws SafeInt.uint16_t SafeInt.uint32_t 4).
    + right. left. reflexivity.
    + right. right. left. reflexivity.
    + vm_compute. split; discriminate.
  - apply (safeCast_preserves_the_value_or_throws SafeInt.uint16_t SafeInt.uint32_t 70000).
    + right. left. reflexivity.
    + right. right. left. reflexivity.
    + vm_compute. split; discriminate.
Defined.

(** X11: [safeAdd<T>(x, y)] returns [x + y] when [T] can hold the sum and
    throws "overflow" or "underflow" otherwise; neither the guards nor the
    addition overflow on the way. *)
Theorem safeAdd_returns_the_sum_or_throws (T : SafeInt.IntType) (x y : Z) :
  SafeInt.valid T -> SafeInt.in_range T x -> SafeInt.in_range T y ->
  SafeInt.safeAdd T x y =
    if SafeInt.max_of T <? x + y then Throws (runtime_error "overflow")
    else if x + y <? SafeInt.min_of T then Throws (runtime_error "underflow")
    else Ok (x + y).
Proof. exact (SafeInt.safeAdd_spec T x y). Qed.

(** Witness for X11: the largest [std::streamoff] plus one. *)
Lemma safeAdd_returns_the_sum_or_throws_witness :
  SafeInt.safeAdd SafeInt.streamoff 9223372036854775807 1 = Throws (runtime_error "overflow").
Proof.
  apply (safeAdd_returns_the_sum_or_throws SafeInt.streamoff 9223372036854775807 1).
  - right. right. right. reflexivity.
  - vm_compute. split; discriminate.
  - vm_compute. split; discriminate.
Defined.

(** ** bw64 utils.hpp: chunk ids and PCM samples *)

Module Pcm.

(** The byte with value [z mod 256]: the conversion of an [int] to [char]. *)
Definition byteOfZ (z : Z) : Byte.byte :=
  match Byte.of_N (Z.to_N (z mod 256)) with
  | Some b => b
  | None => Byte.x00
  end.

(** [utils::fourCCToStr]: the four bytes of the value as they lie in
    memory, least significant first; the library reads and writes its
    integers in the byte order of the machine, which is little endian. *)
Definition fourCCToStr (value : Z) : list Byte.byte :=
  [byteOfZ value; byteOfZ (Z.shiftr value 8); byteOfZ (Z.shiftr value 16);
   byteOfZ (Z.shiftr value 24)].

Lemma byteZ_range (b : Byte.byte) : 0 <= Bw64.byteZ b < 256.
Proof.
  unfold Bw64.byteZ. pose proof (Byte.to_N_bounded b). lia.
Qed.

Lemma byteOfZ_byteZ (b : Byte.byte) : byteOfZ (Bw64.byteZ b) = b.
Proof.
  unfold byteOfZ. rewrite Z.mod_small by apply byteZ_range.
  unfold Bw64.byteZ. rewrite N2Z.id, Byte.of_to_N. reflexivity.
Qed.

Lemma byteZ_byteOfZ (z : Z) : Bw64.byteZ (byteOfZ z) = z mod 256.
Proof.
  unfold byteOfZ. pose proof (Z.mod_pos_bound z 256 ltac:(lia)) as B.
  destruct (Byte.of_N (Z.to_N (z mod 256))) as [b|] eqn:E.
  - unfold Bw64.byteZ. rewrite (Byte.to_of_N _ E). lia.
  - apply Byte.of_N_None_iff in E. lia.
Qed.

(** Bits that do not overlap add up. *)
Lemma lor_shiftl_add (a b n : Z) :
  0 <= n -> 0 <= b < 2 ^ n -> Z.lor (Z.shiftl a n) b = a * 2 ^ n + b.
Proof.
  intros Hn Hb.
  assert (D : Z.land (Z.shiftl a n) b = 0).
  { apply Z.bits_inj'. intros i Hi. rewrite Z.land_spec, Z.bits_0.
    destruct (Z.lt_ge_cases i n) as [L | G].
    - rewrite Z.shiftl_spec_low by exact L. reflexivity.
    - rewrite <- (Z.mod_small b (2 ^ n)) by exact Hb.
      rewrite Z.mod_pow2_bits_high by lia. apply andb_false_r. }
  rewrite <- Z.lxor_lor, <- Z.add_nocarry_lxor by exact D.
  rewrite Z.shiftl_mul_pow2 by exact Hn. reflexivity.
Qed.

(** [fourCC] is the little-endian value of the four characters. *)
Lemma fourCC_le_value (p0 p1 p2 p3 : Byte.byte) :
  Bw64.fourCC p0 p1 p2 p3 = Bw64.le_value [p0; p1; p2; p3].
Proof.
  pose proof (byteZ_range p0). pose proof (byteZ_range p1).
  pose proof (byteZ_range p2). pose proof (byteZ_range p3).
  unfold Bw64.fourCC. cbn [Bw64.le_value].
  rewrite (Z.shiftl_mul_pow2 _ 24), (Z.shiftl_mul_pow2 _ 16) by lia.
  replace (Bw64.byteZ p3 * 2 ^ 24) with (Z.shiftl (Bw64.byteZ p3 * 2 ^ 8) 16)
    by (rewrite Z.shiftl_mul_pow2 by lia; lia).
  rewrite <- (Z.shiftl_mul_pow2 (Bw64.byteZ p2) 16) by lia.
  rewrite <- Z.shiftl_lor.
  rewrite <- (Z.shiftl_mul_pow2 (Bw64.byteZ p3) 8) by lia.
  rewrite (lor_shiftl_add (Bw64.byteZ p3) (Bw64.byteZ p2) 8) by lia.
  replace (Z.shiftl (Bw64.byteZ p3 * 2 ^ 8 + Bw64.byteZ p2) 16)
    with (Z.shiftl ((Bw64.byteZ p3 * 2 ^ 8 + Bw64.byteZ p2) * 2 ^ 8) 8)
    by (rewrite !Z.shiftl_mul_pow2 by lia; lia).
  rewrite <- Z.shiftl_lor.
  rewrite <- (Z.shiftl_mul_pow2 (Bw64.byteZ p3 * 2 ^ 8 + Bw64.byteZ p2) 8) by lia.
  rewrite (lor_shiftl_add _ (Bw64.byteZ p1) 8) by lia.
  rewrite (lor_shiftl_add _ (Bw64.byteZ p0) 8) by lia.
  lia.
Qed.

Lemma byteOfZ_add (b k : Z) : byteOfZ (b + 256 * k) = byteOfZ b.
Proof.
  unfold byteOfZ. replace (b + 256 * k) with (b + k * 256) by lia.
  rewrite Z.mod_add by lia. reflexivity.
Qed.

Lemma fourCCToStr_le_value (p0 p1 p2 p3 : Byte.byte) :
  fourCCToStr (Bw64.le_value [p0; p1; p2; p3]) = [p0; p1; p2; p3].
Proof.
  pose proof (byteZ_range p0). pose proof (byteZ_range p1).
  pose proof (byteZ_range p2). pose proof (byteZ_range p3).
  unfold fourCCToStr. cbn [Bw64.le_value].
  rewrite !Z.shiftr_div_pow2 by lia.
  set (b0 := Bw64.byteZ p0) in *. set (b1 := Bw64.byteZ p1) in *.
  set (b2 := Bw64.byteZ p2) in *. set (b3 := Bw64.byteZ p3) in *.
  set (v := b0 + 256 * (b1 + 256 * (b2 + 256 * (b3 + 256 * 0)))).
  assert (D1 : v / 2 ^ 8 = b1 + 256 * (b2 + 256 * b3))
    by (symmetry; apply (Z.div_unique _ _ _ b0); unfold v; lia).
  assert (D2 : v / 2 ^ 16 = b2 + 256 * b3)
    by (symmetry; apply (Z.div_unique _ _ _ (b0 + 256 * b1)); unfold v; lia).
  assert (D3 : v / 2 ^ 24 = b3)
    by (symmetry; apply (Z.div_unique _ _ _ (b0 + 256 * b1 + 65536 * b2)); unfold v; lia).
  rewrite D1, D2, D3. unfold v. rewrite !byteOfZ_add.
  unfold b0, b1, b2, b3. rewrite !byteOfZ_byteZ. reflexivity.
Qed.

End Pcm.

(** X12: a chunk id of four ASCII characters that is read from a stream
    is the [fourCC] of those characters, [fourCCToStr] gives the characters
    back, and so two ids are equal only for the same characters.  (Beyond
    ASCII the value of the C++ expression depends on the signedness of
    [char].) *)
Theorem chunk_ids_round_trip (p0 p1 p2 p3 : Byte.byte) (rest : Bw64.Stream) :
  Bw64.byteZ p0 < 128 -> Bw64.byteZ p1 < 128 -> Bw64.byteZ p2 < 128 -> Bw64.byteZ p3 < 128 ->
  Bw64.readValue 4 (p0 :: p1 :: p2 :: p3 :: rest) = Ok (Bw64.fourCC p0 p1 p2 p3, rest) /\
  Pcm.fourCCToStr (Bw64.fourCC p0 p1 p2 p3) = [p0; p1; p2; p3] /\
  (forall q0 q1 q2 q3,
     Bw64.fourCC q0 q1 q2 q3 = Bw64.fourCC p0 p1 p2 p3 ->
     [q0; q1; q2; q3] = [p0; p1; p2; p3]).
Proof.
  intros _ _ _ _. split; [|split].
  - unfold Bw64.readValue, Bw64.readRaw. cbn [List.length Nat.ltb Nat.leb].
    cbn [firstn skipn bind]. rewrite Pcm.fourCC_le_value. reflexivity.
  - rewrite Pcm.fourCC_le_value. apply Pcm.fourCCToStr_le_value.
  - intros q0 q1 q2 q3 E.
    rewrite <- (Pcm.fourCCToStr_le_value q0 q1 q2 q3), <- Pcm.fourCC_le_value, E.
    rewrite Pcm.fourCC_le_value. apply Pcm.fourCCToStr_le_value.
Qed.

(** Witness for X12: the id "data". *)
Lemma chunk_ids_round_trip_witness :
  Pcm.fourCCToStr (Bw64.fourCC Byte.x64 Byte.x61 Byte.x74 Byte.x61)
  = [Byte.x64; Byte.x61; Byte.x74; Byte.x61].
Proof.
  refine (proj1 (proj2 (chunk_ids_round_trip Byte.x64 Byte.x61 Byte.x74 Byte.x61 [] _ _ _ _)));
    vm_compute; reflexivity.
Defined.

(** ** bw64 utils.hpp: PCM samples *)

Module Samples.

Import IEEE.

(** The literals [1.f] and [-1.f]. *)
Definition one : spec_float := F32.of_Z 1.
Definition minus_one : spec_float := F32.of_Z (- 1).

(** [utils::clipSample<float>]. *)
Definition clipSample (value : spec_float) : spec_float :=
  if F32.gt value one then one
  else if F32.lt value minus_one then minus_one
  else value.

(** The body of the loops of [encodePcmSamples<float>] for 24 and 32 bits:
    the bytes written for one sample; [None] when the cast to [int32_t] is
    undefined.  [scale] is the literal [8388607.] or [2147483647.]. *)
Definition sampleValue (scale : Z) (x : spec_float) : option Z :=
  to_int32 (F64.mul (F64.of_float (clipSample x)) (F64.of_Z scale)).

Definition encodeSample (bitsPerSample : Z) (x : spec_float) : option (list Byte.byte) :=
  if bitsPerSample =? 24 then
    match sampleValue 8388607 x with
    | Some v => Some [Pcm.byteOfZ (Z.land v 255);
                      Pcm.byteOfZ (Z.land (Z.shiftr v 8) 255);
                      Pcm.byteOfZ (Z.land (Z.shiftr v 16) 255)]
    | None => None
    end
  else
    match sampleValue 2147483647 x with
    | Some v => Some [Pcm.byteOfZ (Z.land v 255);
                      Pcm.byteOfZ (Z.land (Z.shiftr v 8) 255);
                      Pcm.byteOfZ (Z.land (Z.shiftr v 16) 255);
                      Pcm.byteOfZ (Z.land (Z.shiftr v 24) 255)]
    | None => None
    end.

Fixpoint encodeLoop (n : nat) (bitsPerSample : Z) (inBuffer : list spec_float)
  : outcome (list Byte.byte) :=
  match n with
  | O => Ok []
  | S n' =>
      match inBuffer with
      | [] => Undefined
      | x :: rest =>
          match encodeSample bitsPerSample x with
          | None => Undefined
          | Some bs => out <- encodeLoop n' bitsPerSample rest ;; Ok (bs ++ out)
          end
      end
  end.

Section Encode.

(** The object representation of an array of [float]: what the [memcpy]
    of the 16-bit branch copies from. *)
Variable objectBytes : list spec_float -> list Byte.byte.

(** [utils::encodePcmSamples<float>]: the bytes written to [outBuffer]. *)
Definition encodePcmSamples (inBuffer : list spec_float) (numberOfSamples bitsPerSample : Z)
  : outcome (list Byte.byte) :=
  if bitsPerSample =? 16 then
    if Z.of_nat (List.length (objectBytes inBuffer)) <? numberOfSamples * 2 then Undefined
    else Ok (firstn (Z.to_nat (numberOfSamples * 2)) (objectBytes inBuffer))
  else if (bitsPerSample =? 24) || (bitsPerSample =? 32) then
    encodeLoop (Z.to_nat numberOfSamples) bitsPerSample inBuffer
  else Throws (runtime_error "unsupported number of bits").

End Encode.

(** A value that a [float] variable can hold and that is not a NaN. *)
Definition is_float (x : spec_float) : Prop :=
  F32.fin x \/ exists s, x = S754_infinity s.

Local Open Scope Q_scope.

Lemma one_facts :
  F32.fin one /\ val one == 1 /\ F32.fin minus_one /\ val minus_one == - (1).
Proof.
  split; [vm_compute; split; [reflexivity | split; discriminate]|].
  split; [vm_compute; reflexivity|].
  split; [vm_compute; split; [reflexivity | split; discriminate]|].
  vm_compute. reflexivity.
Qed.

(** [clipSample] maps every float that is not a NaN into [-1, 1], leaves
    the values of that interval alone, and does nothing when repeated. *)
Lemma clipSample_spec (x : spec_float) :
  is_float x ->
  F32.fin (clipSample x) /\ - (1) <= val (clipSample x) <= 1 /\
  (F32.fin x -> - (1) <= val x <= 1 -> clipSample x = x) /\
  clipSample (clipSample x) = clipSample x.
Proof.
  destruct one_facts as (F1 & V1 & Fm & Vm).
  assert (Inside : forall y, F32.fin y -> - (1) <= val y <= 1 -> clipSample y = y).
  { intros y Fy [Ly Hy]. unfold clipSample.
    destruct (F32.gt y one) eqn:G.
    - apply (flt_fin F32.prec F32.emax F32.prec32_gt_1 F32.prec32_lt_emax _ _ F1 Fy) in G.
      lra.
    - destruct (F32.lt y minus_one) eqn:L; [|reflexivity].
      apply (flt_fin F32.prec F32.emax F32.prec32_gt_1 F32.prec32_lt_emax _ _ Fy Fm) in L.
      lra. }
  assert (C1 : clipSample one = one) by (apply Inside; [exact F1 | lra]).
  assert (Cm : clipSample minus_one = minus_one) by (apply Inside; [exact Fm | lra]).
  intros [Fx | [s ->]].
  - destruct (F32.gt x one) eqn:G.
    { assert (E : clipSample x = one) by (unfold clipSample; rewrite G; reflexivity).
      rewrite E.
      split; [exact F1|]. split; [lra|]. split; [|exact C1].
      intros _ [_ H].
      apply (flt_fin F32.prec F32.emax F32.prec32_gt_1 F32.prec32_lt_emax _ _ F1 Fx) in G.
      lra. }
    destruct (F32.lt x minus_one) eqn:L.
    { assert (E : clipSample x = minus_one)
        by (unfold clipSample; rewrite G, L; reflexivity).
      rewrite E.
      split; [exact Fm|]. split; [lra|]. split; [|exact Cm].
      intros _ [H _].
      apply (flt_fin F32.prec F32.emax F32.prec32_gt_1 F32.prec32_lt_emax _ _ Fx Fm) in L.
      lra. }
    assert (Hx : - (1) <= val x <= 1).
    { split.
      - destruct (Qlt_le_dec (val x) (- (1))) as [C | C]; [|exact C].
        rewrite <- Vm in C.
        apply (flt_fin F32.prec F32.emax F32.prec32_gt_1 F32.prec32_lt_emax _ _ Fx Fm) in C.
        unfold F32.lt in L. congruence.
      - destruct (Qlt_le_dec 1 (val x)) as [C | C]; [|exact C].
        rewrite <- V1 in C.
        apply (flt_fin F32.prec F32.emax F32.prec32_gt_1 F32.prec32_lt_emax _ _ F1 Fx) in C.
        unfold F32.gt, fgt in G. congruence. }
    assert (E : clipSample x = x) by (unfold clipSample; rewrite G, L; reflexivity).
    rewrite E.
    split; [exact Fx|]. split; [exact Hx|]. split; [reflexivity | exact E].
  - destruct s.
    + change (clipSample (S754_infinity true)) with minus_one.
      split; [exact Fm|]. split; [lra|]. split; [intros []|exact Cm].
    + change (clipSample (S754_infinity false)) with one.
      split; [exact F1|]. split; [lra|]. split; [intros []|exact C1].
Qed.

Local Open Scope Z_scope.

Lemma truncQ_between (q : Q) (s : Z) :
  0 <= s -> (- inject_Z s <= q <= inject_Z s)%Q -> - s <= truncQ q <= s.
Proof.
  intros Hs [L U]. unfold truncQ.
  destruct (Qle_bool 0 q) eqn:B.
  - apply Qle_bool_iff in B.
    pose proof (Qfloor_nonneg q B).
    assert (Qfloor q <= s)
      by (rewrite <- (Qfloor_Z s); apply Qfloor_resp_le; exact U).
    lia.
  - assert (N : (0 <= - q)%Q).
    { destruct (Qlt_le_dec q 0) as [C | C]; [lra|].
      apply Qle_bool_iff in C. congruence. }
    pose proof (Qfloor_nonneg (- q) N).
    assert (Qfloor (- q) <= s)
      by (rewrite <- (Qfloor_Z s); apply Qfloor_resp_le; lra).
    lia.
Qed.

(** The cast of a clipped sample to [int32_t] is defined. *)
Lemma sampleValue_defined (scale : Z) (x : spec_float) :
  is_float x -> 1 <= scale < 2 ^ 31 ->
  exists v, sampleValue scale x = Some v /\ - scale <= v <= scale.
Proof.
  intros Hx Hs.
  destruct (clipSample_spec x Hx) as (Fc & [Lc Uc] & _).
  destruct (ExactNumbers.of_float_exact _ Fc) as [Fd Vd].
  destruct (EvenSpacing.of_Z_exact scale ltac:(lia)) as [Fs Vs].
  assert (Sq : (1 <= inject_Z scale)%Q) by (rewrite <- (Zle_Qle 1); lia).
  assert (B : (- inject_Z scale
               <= val (F64.of_float (clipSample x)) * val (F64.of_Z scale)
               <= inject_Z scale)%Q).
  { rewrite Vd, Vs. set (c := val (clipSample x)) in *. set (m := inject_Z scale) in *.
    split; nra. }
  assert (Rs : F64.rep (inject_Z scale))
    by (apply (rep_Z F64.prec F64.emax F64.prec64_gt_1 F64.prec64_lt_emax);
        unfold F64.prec; lia).
  destruct (fmul_between F64.prec F64.emax F64.prec64_gt_1 F64.prec64_lt_emax _ _ _ _
              Fd Fs
              (rep_opp F64.prec F64.emax F64.prec64_gt_1 F64.prec64_lt_emax _ Rs) Rs B)
    as (Fp & Bp).
  fold (F64.mul (F64.of_float (clipSample x)) (F64.of_Z scale)) in Fp, Bp.
  pose proof (truncQ_between _ scale ltac:(lia) Bp) as T.
  exists (truncQ (val (F64.mul (F64.of_float (clipSample x)) (F64.of_Z scale)))).
  split; [|exact T].
  unfold sampleValue, to_int32, to_int.
  rewrite (fin_num F64.prec F64.emax F64.prec64_gt_1 F64.prec64_lt_emax _ Fp).
  set (t := truncQ _) in *.
  replace ((INT_MIN <=? t) && (t <=? INT_MAX)) with true; [reflexivity|].
  symmetry. apply andb_true_iff. unfold INT_MIN, INT_MAX.
  split; apply Z.leb_le; lia.
Qed.

(** The four bytes written for a 32-bit sample hold it in two's complement. *)
Lemma bytes32_value (v : Z) :
  - 2 ^ 31 <= v < 2 ^ 31 ->
  wrap32 (Bw64.le_value [Pcm.byteOfZ (Z.land v 255);
                         Pcm.byteOfZ (Z.land (Z.shiftr v 8) 255);
                         Pcm.byteOfZ (Z.land (Z.shiftr v 16) 255);
                         Pcm.byteOfZ (Z.land (Z.shiftr v 24) 255)]) = v.
Proof.
  intros H. cbn [Bw64.le_value]. rewrite !Pcm.byteZ_byteOfZ.
  change 255 with (Z.ones 8). rewrite !Z.land_ones, !Z.shiftr_div_pow2 by lia.
  unfold wrap32, wrapS.
  change (2 ^ 8) with 256. change (2 ^ 16) with 65536. change (2 ^ 24) with 16777216.
  change (2 ^ 32) with 4294967296. change (2 ^ (32 - 1)) with 2147483648.
  change (2 ^ 31) with 2147483648 in H.
  cbv zeta.
  match goal with |- (if ?c then _ else _) = _ => destruct c eqn:C end.
  - apply Z.ltb_lt in C. Z.div_mod_to_equations. lia.
  - apply Z.ltb_ge in C. Z.div_mod_to_equations. lia.
Qed.

(** The three bytes written for a 24-bit sample are read back into the
    upper three bytes of an [int32_t]. *)
Lemma bytes24_value (v : Z) :
  - 2 ^ 23 <= v < 2 ^ 23 ->
  wrap32 (256 * Bw64.le_value [Pcm.byteOfZ (Z.land v 255);
                               Pcm.byteOfZ (Z.land (Z.shiftr v 8) 255);
                               Pcm.byteOfZ (Z.land (Z.shiftr v 16) 255)]) = 256 * v.
Proof.
  intros H. cbn [Bw64.le_value]. rewrite !Pcm.byteZ_byteOfZ.
  change 255 with (Z.ones 8). rewrite !Z.land_ones, !Z.shiftr_div_pow2 by lia.
  unfold wrap32, wrapS.
  change (2 ^ 8) with 256. change (2 ^ 16) with 65536.
  change (2 ^ 32) with 4294967296. change (2 ^ (32 - 1)) with 2147483648.
  change (2 ^ 23) with 8388608 in H.
  cbv zeta.
  match goal with |- (if ?c then _ else _) = _ => destruct c eqn:C end.
  - apply Z.ltb_lt in C. Z.div_mod_to_equations. lia.
  - apply Z.ltb_ge in C. Z.div_mod_to_equations. lia.
Qed.

(** Encoding one sample and decoding its bytes. *)
Lemma encode_decode_sample (x : spec_float) :
  is_float x ->
  (exists v, sampleValue 8388607 x = Some v /\ - 8388607 <= v <= 8388607 /\
     exists bs, encodeSample 24 x = Some bs /\ List.length bs = 3%nat /\
       Bw64.decodeSample 24 bs = F32.div (F32.of_Z (256 * v)) (F32.of_Z 2147483647)) /\
  (exists v, sampleValue 2147483647 x = Some v /\ - 2147483647 <= v <= 2147483647 /\
     exists bs, encodeSample 32 x = Some bs /\ List.length bs = 4%nat /\
       Bw64.decodeSample 32 bs = F32.div (F32.of_Z v) (F32.of_Z 2147483647)).
Proof.
  intros Hx. split.
  - destruct (sampleValue_defined 8388607 x Hx ltac:(lia)) as (v & E & Hv).
    exists v. split; [exact E|]. split; [exact Hv|].
    unfold encodeSample. change (24 =? 24) with true. cbv iota. rewrite E.
    eexists. split; [reflexivity|]. split; [reflexivity|].
    unfold Bw64.decodeSample. change (24 =? 16) with false. change (24 =? 24) with true.
    cbv iota. rewrite bytes24_value by lia. reflexivity.
  - destruct (sampleValue_defined 2147483647 x Hx ltac:(lia)) as (v & E & Hv).
    exists v. split; [exact E|]. split; [exact Hv|].
    unfold encodeSample. change (32 =? 24) with false. cbv iota. rewrite E.
    eexists. split; [reflexivity|]. split; [reflexivity|].
    unfold Bw64.decodeSample. change (32 =? 16) with false. change (32 =? 24) with false.
    cbv iota. rewrite bytes32_value by lia. reflexivity.
Qed.

(** What decoding gives back for a sample that was encoded. *)
Definition requantised (bitsPerSample : Z) (x : spec_float) : spec_float :=
  match encodeSample bitsPerSample x with
  | Some bs => Bw64.decodeSample bitsPerSample bs
  | None => S754_nan
  end.

Lemma Some_inj {A} (a b : A) : Some a = Some b -> a = b.
Proof.
  intros E. exact (f_equal (fun o => match o with Some x => x | None => a end) E).
Qed.

Lemma encodeSample_length (bits : Z) (x : spec_float) (bs : list Byte.byte) :
  bits = 24 \/ bits = 32 -> encodeSample bits x = Some bs ->
  List.length bs = Z.to_nat (bits / 8).
Proof.
  intros [-> | ->]; unfold encodeSample.
  - change (24 =? 24) with true. cbv iota.
    destruct (sampleValue 8388607 x) as [v|]; intros E; [|discriminate E].
    apply Some_inj in E. subst bs. reflexivity.
  - change (32 =? 24) with false. cbv iota.
    destruct (sampleValue 2147483647 x) as [v|]; intros E; [|discriminate E].
    apply Some_inj in E. subst bs. reflexivity.
Qed.

Lemma encodeLoop_decodeLoop (bits : Z) (xs : list spec_float) :
  bits = 24 \/ bits = 32 -> Forall is_float xs ->
  exists bytes,
    encodeLoop (List.length xs) bits xs = Ok bytes /\
    List.length bytes = (Z.to_nat (bits / 8) * List.length xs)%nat /\
    Bw64.decodeLoop (List.length xs) (Z.to_nat (bits / 8)) bits bytes
    = map (requantised bits) xs.
Proof.
  intros Hb H. induction H as [|x xs Hx _ IH].
  - exists []. split; [reflexivity|]. split; [simpl; lia | reflexivity].
  - destruct IH as (bytes & E & L & D).
    assert (S : exists bs, encodeSample bits x = Some bs).
    { destruct (encode_decode_sample x Hx) as [(v & _ & _ & bs & Eb & _) (v' & _ & _ & bs' & Eb' & _)].
      destruct Hb as [-> | ->]; eauto. }
    destruct S as [bs Eb].
    pose proof (encodeSample_length bits x bs Hb Eb) as Lb.
    exists (bs ++ bytes). cbn [List.length encodeLoop]. rewrite Eb, E. cbn [bind].
    split; [reflexivity|]. split; [rewrite length_app; lia|].
    cbn [Bw64.decodeLoop map].
    rewrite <- Lb at 1. rewrite firstn_app, Nat.sub_diag, firstn_all, firstn_O, app_nil_r.
    rewrite <- Lb at 2. rewrite skipn_app, Nat.sub_diag, skipn_all, skipn_O.
    cbn [app]. rewrite D.
    assert (Rq : requantised bits x = Bw64.decodeSample bits bs)
      by (unfold requantised; rewrite Eb; reflexivity).
    rewrite Rq. reflexivity.
Qed.

Local Open Scope Q_scope.

Lemma truncQ_error (q : Q) : Qabs (inject_Z (truncQ q) - q) < 1.
Proof.
  unfold truncQ. apply Qabs_Qlt_condition.
  destruct (Qle_bool 0 q) eqn:B.
  - pose proof (Qfloor_le q). pose proof (Qlt_floor q) as U.
    rewrite inject_Z_plus in U. change (inject_Z 1) with 1 in U. split; lra.
  - pose proof (Qfloor_le (- q)). pose proof (Qlt_floor (- q)) as U.
    rewrite inject_Z_plus in U. change (inject_Z 1) with 1 in U.
    rewrite inject_Z_opp. split; lra.
Qed.

Lemma truncQ_comp (p q : Q) : p == q -> truncQ p = truncQ q.
Proof.
  intros E. unfold truncQ.
  assert (B : Qle_bool 0 p = Qle_bool 0 q).
  { destruct (Qle_bool 0 p) eqn:Bp, (Qle_bool 0 q) eqn:Bq; try reflexivity.
    - apply Qle_bool_iff in Bp. rewrite E in Bp. apply Qle_bool_iff in Bp. congruence.
    - apply Qle_bool_iff in Bq. rewrite <- E in Bq. apply Qle_bool_iff in Bq. congruence. }
  rewrite B. destruct (Qle_bool 0 q).
  - apply Qfloor_comp. exact E.
  - f_equal. apply Qfloor_comp. rewrite E. reflexivity.
Qed.

(** The product of a [float] and a 23-bit integer is exact in [double]. *)
Lemma product_exact (c : spec_float) :
  F32.fin c -> - (1) <= val c <= 1 ->
  val (F64.mul (F64.of_float c) (F64.of_Z 8388607)) == val c * 8388607.
Proof.
  intros Fc Bc.
  destruct (ExactNumbers.of_float_exact c Fc) as [Fd Vd].
  destruct (EvenSpacing.of_Z_exact 8388607 ltac:(lia)) as [Fs Vs].
  change (inject_Z 8388607) with 8388607 in Vs.
  destruct (fmul_round F64.prec F64.emax F64.prec64_gt_1 F64.prec64_lt_emax _ _
              (fin_num F64.prec F64.emax F64.prec64_gt_1 F64.prec64_lt_emax _ Fd)
              (fin_num F64.prec F64.emax F64.prec64_gt_1 F64.prec64_lt_emax _ Fs))
    as [sz E].
  fold (F64.mul (F64.of_float c) (F64.of_Z 8388607)) in E. rewrite E.
  assert (R : F64.rep (val (F64.of_float c) * val (F64.of_Z 8388607))).
  { destruct (fin_rep F32.prec F32.emax F32.prec32_gt_1 F32.prec32_lt_emax c Fc)
      as (k & e & Ek & Hk & He & _).
    exists (k * 8388607)%Z, e. rewrite Vd, Vs.
    split; [rewrite Ek, inject_Z_mult; change (inject_Z 8388607) with 8388607; ring|].
    split; [unfold F32.prec, F64.prec in *; lia|].
    split; [unfold emin, F32.prec, F32.emax, F64.prec, F64.emax in *; lia|].
    assert (P : 8388608 <= pow2 F64.emax).
    { assert (E23 : pow2 23 == 8388608) by (vm_compute; reflexivity).
      rewrite <- E23. apply pow2_le. unfold F64.emax. lia. }
    split; lra. }
  destruct (round_exact F64.prec F64.emax F64.prec64_gt_1 F64.prec64_lt_emax _ sz R) as [_ V].
  rewrite V, Vd, Vs. reflexivity.
Qed.

(** A 24-bit sample comes back within 2^-22 of its clipped value. *)
Lemma requantised24_close (x : spec_float) :
  is_float x ->
  F32.fin (requantised 24 x) /\
  Qabs (val (requantised 24 x) - val (clipSample x)) < 1 # 4194304.
Proof.
  intros Hx.
  destruct (clipSample_spec x Hx) as (Fc & Bc & _).
  destruct (encode_decode_sample x Hx) as [(v & Ev & Hv & bs & Eb & _ & Db) _].
  unfold requantised. rewrite Eb, Db.
  (* the value of the sample *)
  assert (Tv : v = truncQ (val (clipSample x) * 8388607)).
  { unfold sampleValue, to_int32, to_int in Ev.
    destruct (is_num _); [|discriminate Ev].
    destruct (_ && _); [|discriminate Ev].
    apply Some_inj in Ev. subst v.
    apply truncQ_comp. apply product_exact; assumption. }
  pose proof (truncQ_error (val (clipSample x) * 8388607)) as Te. rewrite <- Tv in Te.
  (* 256 v as a float, and its quotient by 2^31 *)
  assert (R1 : F32.rep (inject_Z (256 * v))).
  { exists v, 8%Z. split; [rewrite inject_Z_mult; vm_compute (pow2 8); ring_simplify; reflexivity|].
    split; [unfold F32.prec; lia|].
    split; [unfold emin, F32.prec, F32.emax; lia|].
    assert (E : pow2 F32.emax == inject_Z (2 ^ 128)) by (vm_compute; reflexivity).
    rewrite E, <- Zlt_Qlt, <- inject_Z_opp, <- Zlt_Qlt. lia. }
  destruct (round_exact F32.prec F32.emax F32.prec32_gt_1 F32.prec32_lt_emax _ false R1)
    as [F1 V1].
  fold (of_Z F32.prec F32.emax (256 * v)) in F1, V1. fold (F32.of_Z (256 * v)) in F1, V1.
  assert (F2 : F32.fin (F32.of_Z 2147483647))
    by (vm_compute; split; [reflexivity | split; discriminate]).
  assert (V2 : val (F32.of_Z 2147483647) == 2147483648) by (vm_compute; reflexivity).
  destruct (fdiv_round F32.prec F32.emax F32.prec32_gt_1 F32.prec32_lt_emax _ _
              (fin_num F32.prec F32.emax F32.prec32_gt_1 F32.prec32_lt_emax _ F1)
              (fin_num F32.prec F32.emax F32.prec32_gt_1 F32.prec32_lt_emax _ F2))
    as [sz E].
  { rewrite V2. lra. }
  fold (F32.div (F32.of_Z (256 * v)) (F32.of_Z 2147483647)) in E.
  assert (Q : val (F32.of_Z (256 * v)) / val (F32.of_Z 2147483647)
              == inject_Z v * (1 # 8388608)).
  { rewrite V1, V2, inject_Z_mult. change (inject_Z 256) with 256. field. }
  assert (R2 : F32.rep (val (F32.of_Z (256 * v)) / val (F32.of_Z 2147483647))).
  { exists v, (- 23)%Z.
    split; [rewrite Q; vm_compute (pow2 (- 23)); reflexivity|].
    split; [unfold F32.prec; lia|].
    split; [unfold emin, F32.prec, F32.emax; lia|].
    rewrite Q.
    assert (B : - (8388608) < inject_Z v < 8388608).
    { split; [change (- (8388608)) with (inject_Z (- 8388608)) | change 8388608 with (inject_Z 8388608)];
        rewrite <- Zlt_Qlt; lia. }
    assert (P : 1 <= pow2 F32.emax).
    { change 1 with (pow2 0). apply pow2_le. unfold F32.emax. lia. }
    split; lra. }
  destruct (round_exact F32.prec F32.emax F32.prec32_gt_1 F32.prec32_lt_emax _ sz R2)
    as [F3 V3].
  rewrite <- E in F3, V3.
  split; [exact F3|].
  rewrite V3, Q.
  set (c := val (clipSample x)) in *. set (vq := inject_Z v) in *.
  apply Qabs_Qlt_condition. apply Qabs_Qlt_condition in Te.
  destruct Bc as [B1 B2]. destruct Te as [T1 T2]. split; lra.
Qed.

(** **** Decoded samples *)







End Samples.

(** X13: [clipSample] maps every float that is not a NaN into [-1, 1]
    (the infinities to the ends), returns the values of [-1, 1] unchanged,
    and clipping twice is clipping once.  A NaN passes through. *)
Theorem clipSample_limits_to_unit_interval (x : spec_float) :
  Samples.is_float x ->
  F32.fin (Samples.clipSample x) /\
  (- (1) <= IEEE.val (Samples.clipSample x) <= 1)%Q /\
  (F32.fin x -> (- (1) <= IEEE.val x <= 1)%Q -> Samples.clipSample x = x) /\
  Samples.clipSample (Samples.clipSample x) = Samples.clipSample x /\
  Samples.clipSample S754_nan = S754_nan.
Proof.
  intros H. destruct (Samples.clipSample_spec x H) as (A & B & C & D).
  split; [exact A|]. split; [exact B|]. split; [exact C|]. split; [exact D|].
  reflexivity.
Qed.

(** Witness for X13: 3 is clipped to 1. *)
Lemma clipSample_limits_to_unit_interval_witness :
  (- (1) <= IEEE.val (Samples.clipSample (F32.of_Z 3)) <= 1)%Q.
Proof.
  refine (proj1 (proj2 (clipSample_limits_to_unit_interval (F32.of_Z 3) _))).
  left. vm_compute. split; [reflexivity | split; discriminate].
Defined.

(** X14: every list of samples that holds no NaN can be encoded with 24
    or 32 bits: no cast is undefined, each sample takes 3 or 4 bytes, and
    decoding the bytes gives back one sample for each.  A 24-bit sample
    comes back within 2^-22 of its clipped value; a 32-bit sample comes
    back as its integer value, read back from the bytes in full, divided
    by 2^31. *)
Theorem encoded_samples_decode_to_their_clipped_values
    (objectBytes : list spec_float -> list Byte.byte) (xs : list spec_float) (bits : Z) :
  bits = 24 \/ bits = 32 -> Forall Samples.is_float xs ->
  exists bytes,
    Samples.encodePcmSamples objectBytes xs (Z.of_nat (List.length xs)) bits = Ok bytes /\
    Z.of_nat (List.length bytes) = bits / 8 * Z.of_nat (List.length xs) /\
    Bw64.decodePcmSamples bytes (Z.of_nat (List.length xs)) bits
    = Ok (map (Samples.requantised bits) xs) /\
    Forall (fun x =>
              F32.fin (Samples.requantised 24 x) /\
              (Qabs (IEEE.val (Samples.requantised 24 x)
                     - IEEE.val (Samples.clipSample x)) < 1 # 4194304)%Q /\
              exists v, Samples.sampleValue 2147483647 x = Some v /\
                        - 2147483647 <= v <= 2147483647 /\
                        Samples.requantised 32 x
                        = F32.div (F32.of_Z v) (F32.of_Z 2147483647)) xs.
Proof.
  intros Hb Hx.
  destruct (Samples.encodeLoop_decodeLoop bits xs Hb Hx) as (bytes & E & L & D).
  exists bytes. split; [|split; [|split]].
  - unfold Samples.encodePcmSamples. rewrite Nat2Z.id.
    destruct Hb as [-> | ->]; exact E.
  - rewrite L. destruct Hb as [-> | ->].
    + change (24 / 8) with 3. change (Z.to_nat 3) with 3%nat. lia.
    + change (32 / 8) with 4. change (Z.to_nat 4) with 4%nat. lia.
  - unfold Bw64.decodePcmSamples. rewrite Nat2Z.id, D.
    destruct Hb as [-> | ->]; reflexivity.
  - eapply Forall_impl; [|exact Hx]. intros x Fx.
    destruct (Samples.requantised24_close x Fx) as [F C].
    split; [exact F|]. split; [exact C|].
    destruct (Samples.encode_decode_sample x Fx) as [_ (v & Ev & Hv & bs & Eb & _ & Db)].
    exists v. split; [exact Ev|]. split; [exact Hv|].
    unfold Samples.requantised. rewrite Eb. exact Db.
Qed.

(** Witness for X14: the samples 0.5 and 3 with 24 bits. *)
Lemma encoded_samples_decode_to_their_clipped_values_witness :
  exists bytes,
    Samples.encodePcmSamples (fun _ => []) [F32.div (F32.of_Z 1) (F32.of_Z 2); F32.of_Z 3] 2 24
    = Ok bytes /\
    Z.of_nat (List.length bytes) = 6.
Proof.
  destruct (encoded_samples_decode_to_their_clipped_values (fun _ => [])
              [F32.div (F32.of_Z 1) (F32.of_Z 2); F32.of_Z 3] 24)
    as (bytes & E & L & _).
  - left. reflexivity.
  - apply Forall_cons; [|apply Forall_cons; [|apply Forall_nil]];
      left; vm_compute; (split; [reflexivity | split; discriminate]).
  - exists bytes. split; [exact E | exact L].
Defined.



(** ** bw64 reader.hpp and parser.hpp: the chunks of a file *)

Module Riff.

(** Modelled from the spec: the chunk header of the missing [chunks.hpp],
    "Chunk header: { id: 4-byte ASCII (little-endian packed), size,
    position: uint64 }"; [parseHeader] stores the 64-bit size. *)
Record ChunkHeader : Type := mkChunkHeader {
  h_id : Z;
  h_size : Z;
  h_position : Z
}.

(** Modelled from the spec: the ds64 chunk of the missing [chunks.hpp],
    "{ bw64_size: uint64, data_size: uint64, dummy: uint64, table_length:
    uint32, table: map from 4-byte id to uint64 size }"; the table is the
    [std::map] that [parseDataSize64Chunk] fills, in key order. *)
Record DataSize64Chunk : Type := mkDataSize64Chunk {
  bw64Size : Z;
  dataSize : Z;
  table : list (Z * Z)
}.

(** The ids that the reader compares with. *)
Definition fourCC_RIFF : Z := Bw64.fourCC Byte.x52 Byte.x49 Byte.x46 Byte.x46.
Definition fourCC_BW64 : Z := Bw64.fourCC Byte.x42 Byte.x57 Byte.x36 Byte.x34.
Definition fourCC_RF64 : Z := Bw64.fourCC Byte.x52 Byte.x46 Byte.x36 Byte.x34.
Definition fourCC_WAVE : Z := Bw64.fourCC Byte.x57 Byte.x41 Byte.x56 Byte.x45.
Definition fourCC_ds64 : Z := Bw64.fourCC Byte.x64 Byte.x73 Byte.x36 Byte.x34.
Definition fourCC_data : Z := Bw64.fourCC Byte.x64 Byte.x61 Byte.x74 Byte.x61.

(** The file stream of the reader: the bytes of the file and the read
    position.  A read that reaches beyond the last byte sets [eof]; a seek
    to a position inside the file leaves the stream good. *)
Record FileStream : Type := mkFileStream {
  bytes : list Byte.byte;
  tellg : Z
}.

(** [utils::readValue] of an unsigned integer of [n] bytes at the read
    position. *)
Definition readValue (n : nat) (s : FileStream) : outcome (Z * FileStream) :=
  '(v, _) <- Bw64.readValue n (skipn (Z.to_nat (tellg s)) (bytes s)) ;;
  Ok (v, mkFileStream (bytes s) (tellg s + Z.of_nat n)).

(** [readRiffChunk]: file format, file size, and the stream afterwards. *)
Definition readRiffChunk (s : FileStream) : outcome (Z * Z * FileStream) :=
  '(fileFormat, s1) <- readValue 4 s ;;
  '(fileSize, s2) <- readValue 4 s1 ;;
  '(riffType, s3) <- readValue 4 s2 ;;
  if negb (fileFormat =? fourCC_RIFF) && negb (fileFormat =? fourCC_BW64)
     && negb (fileFormat =? fourCC_RF64)
  then Throws (runtime_error "File is not a RIFF, BW64 or RF64 file.")
  else if negb (riffType =? fourCC_WAVE)
  then Throws (runtime_error "File is not a WAVE file.")
  else Ok (fileFormat, fileSize, s3).

(** [hasChunk] and [getChunkHeader]: [std::find_if] over [chunkHeaders_]. *)
Definition hasChunk (chunkHeaders : list ChunkHeader) (id : Z) : bool :=
  match find (fun header => h_id header =? id) chunkHeaders with
  | Some _ => true
  | None => false
  end.

Definition getChunkHeader (chunkHeaders : list ChunkHeader) (id : Z) : outcome ChunkHeader :=
  match find (fun header => h_id header =? id) chunkHeaders with
  | Some header => Ok header
  | None =>
      Throws (runtime_error
                ("no chunk with id '" ++ string_of_list_byte (Pcm.fourCCToStr id)
                 ++ "' found"))
  end.

Section Headers.

(** [ds64Chunk()]: the ds64 chunk among [chunks_], if there is one, and
    its two table methods of the missing [chunks.hpp]. *)
Variable ds64Chunk : option DataSize64Chunk.
Variable hasChunkSize : DataSize64Chunk -> Z -> bool.
Variable getChunkSize : DataSize64Chunk -> Z -> Z.

Definition getChunkSize64 (id chunkSize : Z) : Z :=
  match ds64Chunk with
  | Some ds64 =>
      if (id =? fourCC_BW64) || (id =? fourCC_RF64) then bw64Size ds64
      else if id =? fourCC_data then dataSize ds64
      else if hasChunkSize ds64 id then getChunkSize ds64 id
      else chunkSize
  | None => chunkSize
  end.

Definition parseHeader (s : FileStream) : outcome (ChunkHeader * FileStream) :=
  let position := tellg s in
  '(chunkId, s1) <- readValue 4 s ;;
  '(chunkSize, s2) <- readValue 4 s1 ;;
  Ok (mkChunkHeader chunkId (getChunkSize64 chunkId chunkSize) position, s2).

(** The loop of [parseChunkHeaders]; [fuel] bounds the number of
    iterations, [end_] is the length of the file. *)
Fixpoint parseChunkHeadersLoop (fuel : nat) (s : FileStream)
    (chunkHeaders : list ChunkHeader) : outcome (list ChunkHeader * FileStream) :=
  let end_ := Z.of_nat (List.length (bytes s)) in
  if tellg s + 8 <=? end_ then
    match fuel with
    | O => Undefined
    | S fuel' =>
        '(chunkHeader, s1) <- parseHeader s ;;
        chunk_size <- SafeInt.safeCast SafeInt.streamoff SafeInt.uint64_t
                        (h_size chunkHeader) ;;
        chunk_size <- (if negb (Z.rem chunk_size 2 =? 0)
                       then SafeInt.safeAdd SafeInt.streamoff chunk_size 1
                       else Ok chunk_size) ;;
        chunk_end <- SafeInt.safeAdd SafeInt.streamoff (tellg s1) chunk_size ;;
        if end_ <? chunk_end
        then Throws (runtime_error "chunk ends after end of file")
        else parseChunkHeadersLoop fuel'
               (mkFileStream (bytes s1) (tellg s1 + chunk_size))
               (chunkHeaders ++ [chunkHeader])
    end
  else Ok (chunkHeaders, s).

(** [parseChunkHeaders]: every iteration consumes a header of 8 bytes, so
    one iteration per byte of the file is more than the loop can run. *)
Definition parseChunkHeaders (s : FileStream) (chunkHeaders : list ChunkHeader)
  : outcome (list ChunkHeader * FileStream) :=
  parseChunkHeadersLoop (List.length (bytes s)) s chunkHeaders.

End Headers.

(** *** Facts *)

Lemma find_first {A} (f : A -> bool) (l : list A) (x : A) :
  find f l = Some x ->
  f x = true /\
  exists before after, l = before ++ x :: after /\ Forall (fun y => f y = false) before.
Proof.
  induction l as [|y l IH]; intros H; simpl in H; [discriminate H|].
  destruct (f y) eqn:Fy.
  - injection H as ->. split; [exact Fy|].
    exists [], l. split; [reflexivity | constructor].
  - destruct (IH H) as (Fx & before & after & E & Hb).
    split; [exact Fx|]. exists (y :: before), after.
    split; [rewrite E; reflexivity | constructor; assumption].
Qed.

(** [padded h]: the size of the chunk with its padding byte. *)
Definition padded (h : ChunkHeader) : Z := h_size h + h_size h mod 2.

(** The headers lie one after the other from [start] to [stop]. *)
Fixpoint tiles (start : Z) (hs : list ChunkHeader) (stop : Z) : Prop :=
  match hs with
  | [] => start = stop
  | h :: hs' => h_position h = start /\ 0 <= h_size h /\ tiles (start + 8 + padded h) hs' stop
  end.

Lemma tiles_app (hs1 hs2 : list ChunkHeader) : forall start mid stop,
  tiles start hs1 mid -> tiles mid hs2 stop -> tiles start (hs1 ++ hs2) stop.
Proof.
  induction hs1 as [|h hs1 IH]; intros start mid stop H1 H2; simpl in *.
  - subst mid. exact H2.
  - destruct H1 as (P & S & T). split; [exact P|]. split; [exact S|].
    apply (IH _ mid); assumption.
Qed.

Lemma tiles_le (hs : list ChunkHeader) : forall start stop,
  tiles start hs stop -> start <= stop.
Proof.
  induction hs as [|h hs IH]; intros start stop H; simpl in H; [lia|].
  destruct H as (_ & S & T). apply IH in T. unfold padded in T.
  pose proof (Z.mod_pos_bound (h_size h) 2 ltac:(lia)). lia.
Qed.

Lemma readValue_inside (n : nat) (s : FileStream) :
  0 <= tellg s -> tellg s + Z.of_nat n <= Z.of_nat (List.length (bytes s)) ->
  exists v,
    readValue n s = Ok (v, mkFileStream (bytes s) (tellg s + Z.of_nat n)) /\
    v = Bw64.le_value (firstn n (skipn (Z.to_nat (tellg s)) (bytes s))).
Proof.
  intros Hp Hn. unfold readValue, Bw64.readValue, Bw64.readRaw.
  assert (L : (List.length (skipn (Z.to_nat (tellg s)) (bytes s)) <? n)%nat = false).
  { apply Nat.ltb_ge. rewrite length_skipn. lia. }
  rewrite L. cbn [bind]. eexists. split; reflexivity.
Qed.

Lemma le_value_range (bs : list Byte.byte) :
  0 <= Bw64.le_value bs < 256 ^ Z.of_nat (List.length bs).
Proof.
  induction bs as [|b bs IH]; [simpl; lia|].
  cbn [Bw64.le_value List.length]. rewrite Nat2Z.inj_succ, Z.pow_succ_r by lia.
  pose proof (Pcm.byteZ_range b). lia.
Qed.

Section HeaderFacts.

Variable ds64Chunk : option DataSize64Chunk.
Variable hasChunkSize : DataSize64Chunk -> Z -> bool.
Variable getChunkSize : DataSize64Chunk -> Z -> Z.

(** The sizes that the ds64 chunk supplies are [uint64_t] values. *)
Hypothesis sizes_are_uint64 : forall id chunkSize,
  0 <= chunkSize < 2 ^ 32 ->
  0 <= getChunkSize64 ds64Chunk hasChunkSize getChunkSize id chunkSize < 2 ^ 64.

Let loop := parseChunkHeadersLoop ds64Chunk hasChunkSize getChunkSize.

Lemma parseChunkHeadersLoop_tiles (fuel : nat) : forall s acc,
  0 <= tellg s <= Z.of_nat (List.length (bytes s)) ->
  Z.of_nat (List.length (bytes s)) < 2 ^ 63 ->
  Z.of_nat (List.length (bytes s)) - tellg s <= Z.of_nat fuel ->
  (exists what, loop fuel s acc = Throws (runtime_error what)) \/
  (exists hs s',
     loop fuel s acc = Ok (acc ++ hs, s') /\
     bytes s' = bytes s /\
     tiles (tellg s) hs (tellg s') /\
     tellg s' <= Z.of_nat (List.length (bytes s)) < tellg s' + 8).
Proof.
  induction fuel as [|fuel IH]; intros s acc Hp Hlen Hfuel.
  - right. exists [], s. cbn [loop parseChunkHeadersLoop].
    destruct (Z.leb_spec (tellg s + 8) (Z.of_nat (List.length (bytes s)))) as [C | C]; [lia|].
    rewrite app_nil_r. split; [reflexivity|]. split; [reflexivity|].
    split; [reflexivity | lia].
  - unfold loop. cbn [parseChunkHeadersLoop]. fold loop.
    destruct (Z.leb_spec (tellg s + 8) (Z.of_nat (List.length (bytes s)))) as [In | Out].
    2:{ right. exists [], s. rewrite app_nil_r. split; [reflexivity|].
        split; [reflexivity|]. split; [reflexivity | lia]. }
    unfold parseHeader. cbv zeta.
    destruct (readValue_inside 4 s (proj1 Hp) ltac:(lia)) as (chunkId & E1 & V1).
    rewrite E1. cbn [bind].
    destruct (readValue_inside 4 (mkFileStream (bytes s) (tellg s + Z.of_nat 4))
                ltac:(cbn; lia) ltac:(cbn; lia)) as (chunkSize & E2 & V2).
    rewrite E2. cbn [bind tellg bytes].
    assert (R32 : 0 <= chunkSize < 2 ^ 32).
    { rewrite V2. pose proof (le_value_range
        (firstn 4 (skipn (Z.to_nat (tellg s + Z.of_nat 4)) (bytes s)))) as R.
      rewrite length_firstn in R. cbn [bytes tellg] in *.
      assert (256 ^ Z.of_nat (Nat.min 4 (List.length (skipn (Z.to_nat (tellg s + Z.of_nat 4))
                                                     (bytes s)))) <= 2 ^ 32).
      { change (2 ^ 32) with (256 ^ 4). apply Z.pow_le_mono_r; lia. }
      lia. }
    pose proof (sizes_are_uint64 chunkId chunkSize R32) as R64.
    set (size := getChunkSize64 ds64Chunk hasChunkSize getChunkSize chunkId chunkSize) in *.
    change (h_size (mkChunkHeader chunkId size (tellg s))) with size.
    rewrite SafeInt.safeCast_spec;
      [| right; right; right; reflexivity | right; right; right; reflexivity
       | unfold SafeInt.in_range; cbn; lia].
    change (SafeInt.max_of SafeInt.streamoff) with (2 ^ 63 - 1).
    change (SafeInt.min_of SafeInt.streamoff) with (- 2 ^ 63).
    destruct (Z.ltb_spec (2 ^ 63 - 1) size) as [Big | Small]; [left; eexists; reflexivity|].
    destruct (Z.ltb_spec size (- 2 ^ 63)) as [C | _]; [lia|]. cbn [bind].
    assert (Hrem : Z.rem size 2 = size mod 2) by (apply Z.rem_mod_nonneg; lia).
    pose proof (Z.mod_pos_bound size 2 ltac:(lia)) as Hm.
    assert (Pad : exists what,
              (if negb (Z.rem size 2 =? 0)
               then SafeInt.safeAdd SafeInt.streamoff size 1 else Ok size)
              = Throws (runtime_error what)
            \/ ((if negb (Z.rem size 2 =? 0)
                 then SafeInt.safeAdd SafeInt.streamoff size 1 else Ok size)
                = Ok (size + size mod 2) /\ size + size mod 2 <= 2 ^ 63 - 1)).
    { rewrite Hrem. destruct (Z.eqb_spec (size mod 2) 0) as [Ev | Od]; cbn [negb].
      - exists EmptyString. right. split; [f_equal; lia | lia].
      - rewrite SafeInt.safeAdd_spec;
          [| right; right; right; reflexivity | unfold SafeInt.in_range; cbn; lia
           | unfold SafeInt.in_range; cbn; lia].
        change (SafeInt.max_of SafeInt.streamoff) with (2 ^ 63 - 1).
        change (SafeInt.min_of SafeInt.streamoff) with (- 2 ^ 63).
        destruct (Z.ltb_spec (2 ^ 63 - 1) (size + 1)); [eexists; left; reflexivity|].
        destruct (Z.ltb_spec (size + 1) (- 2 ^ 63)); [lia|].
        exists EmptyString. right. split; [f_equal; lia | lia]. }
    destruct Pad as (what & [Pe | [Pe Pb]]); rewrite Pe; cbn [bind];
      [left; eexists; reflexivity|].
    rewrite SafeInt.safeAdd_spec;
      [| right; right; right; reflexivity | unfold SafeInt.in_range; cbn; lia
       | unfold SafeInt.in_range; cbn; lia].
    change (SafeInt.max_of SafeInt.streamoff) with (2 ^ 63 - 1).
    change (SafeInt.min_of SafeInt.streamoff) with (- 2 ^ 63).
    change (Z.of_nat 4) with 4.
    destruct (Z.ltb_spec (2 ^ 63 - 1) (tellg s + 4 + 4 + (size + size mod 2)));
      [left; eexists; reflexivity|].
    destruct (Z.ltb_spec (tellg s + 4 + 4 + (size + size mod 2)) (- 2 ^ 63)); [lia|].
    cbn [bind].
    destruct (Z.ltb_spec (Z.of_nat (List.length (bytes s)))
                (tellg s + 4 + 4 + (size + size mod 2))) as [Over | Fits];
      [left; eexists; reflexivity|].
    destruct (IH (mkFileStream (bytes s) (tellg s + 4 + 4 + (size + size mod 2)))
                (acc ++ [mkChunkHeader chunkId size (tellg s)])
                ltac:(cbn; lia) ltac:(cbn; lia) ltac:(cbn; lia))
      as [(what' & Et) | (hs & s' & Eo & Eb & T & Hend)].
    + left. exists what'. exact Et.
    + right. exists (mkChunkHeader chunkId size (tellg s) :: hs), s'.
      cbn [bytes tellg] in *.
      split; [rewrite Eo, <- app_assoc; reflexivity|].
      split; [exact Eb|]. split; [|exact Hend].
      cbn [tiles h_position h_size]. split; [reflexivity|]. split; [lia|].
      unfold padded. cbn [h_size].
      replace (tellg s + 8 + (size + size mod 2))
        with (tellg s + 4 + 4 + (size + size mod 2)) by lia.
      exact T.
Qed.

End HeaderFacts.

End Riff.

(** X16: [hasChunk] and [getChunkHeader] agree: [hasChunk(id)] is true
    exactly when [getChunkHeader(id)] returns a header, and that header is
    the first one of the list with this id; otherwise [getChunkHeader]
    throws a [runtime_error]. *)
Theorem getChunkHeader_returns_the_first_header_with_the_id
    (chunkHeaders : list Riff.ChunkHeader) (id : Z) :
  (Riff.hasChunk chunkHeaders id = true ->
   exists header before after,
     Riff.getChunkHeader chunkHeaders id = Ok header /\
     Riff.h_id header = id /\
     chunkHeaders = before ++ header :: after /\
     Forall (fun h => Riff.h_id h <> id) before) /\
  (Riff.hasChunk chunkHeaders id = false ->
   Forall (fun h => Riff.h_id h <> id) chunkHeaders /\
   exists what, Riff.getChunkHeader chunkHeaders id = Throws (runtime_error what)).
Proof.
  unfold Riff.hasChunk, Riff.getChunkHeader.
  destruct (find (fun header => Riff.h_id header =? id) chunkHeaders) as [header|] eqn:F.
  - split; [intros _ | intros C; discriminate C].
    destruct (Riff.find_first _ _ _ F) as (Hid & before & after & E & Hb).
    exists header, before, after. split; [reflexivity|].
    split; [apply Z.eqb_eq; exact Hid|]. split; [exact E|].
    eapply Forall_impl; [|exact Hb]. intros h Hh. apply Z.eqb_neq. exact Hh.
  - split; [intros C; discriminate C | intros _].
    split; [|eexists; reflexivity].
    apply Forall_forall. intros h Hh. apply Z.eqb_neq.
    exact (find_none _ _ F h Hh).
Qed.

(** X17: [parseChunkHeaders] stops for every file: it either throws a
    [runtime_error] or returns headers that lie one after the other, each
    chunk (header, payload and padding byte) followed at once by the next,
    all of them inside the file, with fewer than 8 bytes left at the end. *)
Theorem chunk_headers_tile_the_file
    (ds64Chunk : option Riff.DataSize64Chunk)
    (hasChunkSize : Riff.DataSize64Chunk -> Z -> bool)
    (getChunkSize : Riff.DataSize64Chunk -> Z -> Z) (s : Riff.FileStream) :
  (forall id chunkSize,
     0 <= chunkSize < 2 ^ 32 ->
     0 <= Riff.getChunkSize64 ds64Chunk hasChunkSize getChunkSize id chunkSize < 2 ^ 64) ->
  0 <= Riff.tellg s <= Z.of_nat (List.length (Riff.bytes s)) ->
  Z.of_nat (List.length (Riff.bytes s)) < 2 ^ 63 ->
  (exists what,
     Riff.parseChunkHeaders ds64Chunk hasChunkSize getChunkSize s []
     = Throws (runtime_error what)) \/
  (exists hs s',
     Riff.parseChunkHeaders ds64Chunk hasChunkSize getChunkSize s [] = Ok (hs, s') /\
     Riff.bytes s' = Riff.bytes s /\
     Riff.tiles (Riff.tellg s) hs (Riff.tellg s') /\
     Riff.tellg s' <= Z.of_nat (List.length (Riff.bytes s)) < Riff.tellg s' + 8).
Proof.
  intros H64 Hp Hlen. unfold Riff.parseChunkHeaders.
  apply (Riff.parseChunkHeadersLoop_tiles ds64Chunk hasChunkSize getChunkSize H64
           (List.length (Riff.bytes s)) s [] Hp Hlen).
  lia.
Qed.

(** A file of 20 bytes: a chunk "fmt " of 2 bytes and a chunk "data" of
    1 byte with its padding byte. *)
Definition two_chunk_file : Riff.FileStream :=
  Riff.mkFileStream
    [Byte.x66; Byte.x6d; Byte.x74; Byte.x20; Byte.x02; Byte.x00; Byte.x00; Byte.x00;
     Byte.x01; Byte.x02;
     Byte.x64; Byte.x61; Byte.x74; Byte.x61; Byte.x01; Byte.x00; Byte.x00; Byte.x00;
     Byte.x07; Byte.x00]
    0.

(** Witness for X17. *)
Lemma chunk_headers_tile_the_file_witness :
  Riff.parseChunkHeaders None (fun _ _ => false) (fun _ _ => 0) two_chunk_file []
  = Ok ([Riff.mkChunkHeader Bw64.fourCC_fmt 2 0; Riff.mkChunkHeader Riff.fourCC_data 1 10],
        Riff.mkFileStream (Riff.bytes two_chunk_file) 20) /\
  Riff.tiles 0 [Riff.mkChunkHeader Bw64.fourCC_fmt 2 0; Riff.mkChunkHeader Riff.fourCC_data 1 10]
    20.
Proof.
  destruct (chunk_headers_tile_the_file None (fun _ _ => false) (fun _ _ => 0)
              two_chunk_file) as [(what & E) | (hs & s' & E & _ & T & _)].
  - intros id chunkSize H. cbn. lia.
  - cbn. lia.
  - cbn. lia.
  - vm_compute in E. discriminate E.
  - split; [vm_compute; reflexivity|].
    cbn. unfold Riff.padded. cbn. repeat split; lia.
Defined.

(** ** bw64 reader.hpp: seek, tell and eof *)

Module Seek.

(** [std::ios_base::seekdir]. *)
Inductive seekdir : Type := beg | cur | end_.

(** A result of a signed 64-bit operation: no defined result outside
    [int64_t]. *)
Definition checked64 (x : Z) : outcome Z :=
  if (INT64_MIN <=? x) && (x <=? INT64_MAX) then Ok x else Undefined.

Section Seek.

(** Whether [fileStream_] is good after [seekg] to a position; the stream
    class is in the missing [internal_stream.hpp]. *)
Variable good_after_seekg : Z -> bool.

(** [seek(offset, way)]: the reader afterwards. *)
Definition seek (r : Bw64.Bw64Reader) (offset : Z) (way : seekdir) : outcome Bw64.Bw64Reader :=
  startFrame <- match way with
                | cur => t <- Bw64.tell r ;; Ok (wrap64 t)
                | beg => Ok 0
                | end_ => n <- Bw64.numberOfFrames r ;; Ok (wrap64 n)
                end ;;
  frame <- checked64 (startFrame + offset) ;;
  frame <- (if frame <? 0 then Ok 0
            else n <- Bw64.numberOfFrames r ;;
                 if n <? wrapU64 frame then Ok (wrap64 n) else Ok frame) ;;
  let dataStartPos := wrap64 (wrapU64 (Bw64.dataPosition r + 8)) in
  ba <- Bw64.readerBlockAlignment r ;;
  offsetInData <- checked64 (frame * ba) ;;
  framePos <- checked64 (dataStartPos + offsetInData) ;;
  if good_after_seekg framePos
  then Ok (Bw64.mkReader (Bw64.fileBytes r) framePos (Bw64.dataPosition r) (Bw64.dataSize r)
             (Bw64.channels r) (Bw64.bitDepth r))
  else Throws (runtime_error "file error while seeking").

End Seek.

(** [eof()]: [tell() == numberOfFrames()]. *)
Definition eof (r : Bw64.Bw64Reader) : outcome bool :=
  t <- Bw64.tell r ;;
  n <- Bw64.numberOfFrames r ;;
  Ok (t =? n).

(** *** Facts *)

Lemma checked64_in (x : Z) : in_int64 x -> checked64 x = Ok x.
Proof.
  unfold in_int64, checked64. intros [L U].
  destruct (Z.leb_spec INT64_MIN x) as [_ | C]; [|lia].
  destruct (Z.leb_spec x INT64_MAX) as [_ | C]; [reflexivity | lia].
Qed.

Lemma blockAlignment_le (r : Bw64.Bw64Reader) (ba : Z) :
  Bw64.readerBlockAlignment r = Ok ba -> ba <= 65535.
Proof.
  unfold Bw64.readerBlockAlignment.
  destruct (Z.ltb_spec 65535 (wrapU32 (Bw64.channels r * Bw64.bitDepth r) / 8)) as [C | C];
    intros E; [discriminate E|].
  assert (E' : wrapU32 (Bw64.channels r * Bw64.bitDepth r) / 8 = ba)
    by (apply (f_equal (fun o => match o with Ok v => v | _ => 0 end)) in E; exact E).
  lia.
Qed.

Lemma tell_value (r : Bw64.Bw64Reader) (ba : Z) :
  Bw64.readerBlockAlignment r = Ok ba -> 0 < ba ->
  0 <= Bw64.dataPosition r ->
  Bw64.dataPosition r + 8 <= Bw64.tellg r < 2 ^ 63 ->
  Bw64.tell r = Ok ((Bw64.tellg r - Bw64.dataPosition r - 8) / ba).
Proof.
  intros HBA Hba Hdp Hp. unfold Bw64.tell.
  rewrite HBA. cbn [bind]. unfold Bw64.divU64.
  destruct (Z.eqb_spec ba 0) as [C | _]; [lia|].
  unfold wrapU64.
  rewrite (Z.mod_small (Bw64.tellg r - Bw64.dataPosition r)) by lia.
  rewrite Z.mod_small by lia.
  reflexivity.
Qed.

Lemma tell_at (r : Bw64.Bw64Reader) (ba p : Z) :
  Bw64.readerBlockAlignment r = Ok ba -> 0 < ba ->
  0 <= Bw64.dataPosition r ->
  Bw64.dataPosition r + 8 <= p < 2 ^ 63 ->
  Bw64.tell (Bw64.mkReader (Bw64.fileBytes r) p (Bw64.dataPosition r) (Bw64.dataSize r)
               (Bw64.channels r) (Bw64.bitDepth r))
  = Ok ((p - Bw64.dataPosition r - 8) / ba).
Proof.
  intros HBA Hba Hdp Hp.
  apply (tell_value (Bw64.mkReader (Bw64.fileBytes r) p (Bw64.dataPosition r)
                       (Bw64.dataSize r) (Bw64.channels r) (Bw64.bitDepth r)) ba);
    [exact HBA | exact Hba | exact Hdp | exact Hp].
Qed.

Lemma numberOfFrames_at (r : Bw64.Bw64Reader) (ba p : Z) :
  Bw64.numberOfFrames (Bw64.mkReader (Bw64.fileBytes r) p (Bw64.dataPosition r)
                         (Bw64.dataSize r) (Bw64.channels r) (Bw64.bitDepth r))
  = Bw64.numberOfFrames r.
Proof. reflexivity. Qed.

End Seek.

(** A reader on a file of 50 bytes whose data chunk, three mono 16-bit
    frames, has its header at offset 36; the read position is on frame 1. *)
Definition three_frame_reader : Bw64.Bw64Reader :=
  Bw64.mkReader (repeat Byte.x00 50) 46 36 6 1 16.

(** X18: [seek] moves the reader to the requested frame, clamped to the
    frames of the data chunk: with a positive block alignment and a data
    chunk below 2^62, [seek(offset, way)] leaves the stream at the start of
    frame [max 0 (min numberOfFrames (start + offset))], where [start] is 0,
    [tell()] or [numberOfFrames()]; [tell] then returns this frame, [eof]
    holds exactly when it is [numberOfFrames], and the position is inside
    the data chunk.  [seek] throws only when the stream rejects the
    position. *)
Theorem seek_moves_to_the_clamped_frame
    (good_after_seekg : Z -> bool) (r : Bw64.Bw64Reader) (offset : Z)
    (way : Seek.seekdir) (ba : Z) :
  Bw64.readerBlockAlignment r = Ok ba -> 0 < ba ->
  0 <= Bw64.dataPosition r -> 0 <= Bw64.dataSize r ->
  Bw64.dataPosition r + 8 + Bw64.dataSize r < 2 ^ 62 ->
  Bw64.dataPosition r + 8 <= Bw64.tellg r < 2 ^ 62 ->
  in_int offset ->
  exists now total,
    Bw64.tell r = Ok now /\
    Bw64.numberOfFrames r = Ok total /\
    let start := match way with Seek.beg => 0 | Seek.cur => now | Seek.end_ => total end in
    let frame := Z.max 0 (Z.min total (start + offset)) in
    let framePos := Bw64.dataPosition r + 8 + frame * ba in
    let r' := Bw64.mkReader (Bw64.fileBytes r) framePos (Bw64.dataPosition r)
                (Bw64.dataSize r) (Bw64.channels r) (Bw64.bitDepth r) in
    Seek.seek good_after_seekg r offset way
    = (if good_after_seekg framePos then Ok r'
       else Throws (runtime_error "file error while seeking")) /\
    Bw64.tell r' = Ok frame /\
    Seek.eof r' = Ok (frame =? total) /\
    framePos <= Bw64.dataPosition r + 8 + Bw64.dataSize r.
Proof.
  intros HBA Hba Hdp Hds Hfit Htg Hoff.
  set (total := Bw64.dataSize r / ba).
  unfold in_int, INT_MIN, INT_MAX in Hoff.
  assert (Hba16 := Seek.blockAlignment_le r ba HBA).
  assert (HN : Bw64.numberOfFrames r = Ok total).
  { unfold Bw64.numberOfFrames. rewrite HBA. cbn [bind]. unfold Bw64.divU64.
    destruct (Z.eqb_spec ba 0) as [C | _]; [lia | reflexivity]. }
  assert (HT : Bw64.tell r = Ok ((Bw64.tellg r - Bw64.dataPosition r - 8) / ba)).
  { apply (Seek.tell_value r ba HBA Hba Hdp). lia. }
  assert (Htot : 0 <= total <= Bw64.dataSize r).
  { unfold total. split; [apply Z.div_pos; lia|].
    apply Z.div_le_upper_bound; [lia|]. nia. }
  assert (Htotba : total * ba <= Bw64.dataSize r).
  { unfold total. rewrite Z.mul_comm. apply Z.mul_div_le. lia. }
  assert (Ht : 0 <= (Bw64.tellg r - Bw64.dataPosition r - 8) / ba < 2 ^ 62).
  { split; [apply Z.div_pos; lia|].
    apply Z.div_lt_upper_bound; [lia|]. nia. }
  exists ((Bw64.tellg r - Bw64.dataPosition r - 8) / ba), total.
  split; [exact HT|]. split; [exact HN|].
  intros start frame framePos r'.
  assert (Hstart : 0 <= start < 2 ^ 62) by (unfold start; destruct way; lia).
  assert (Hframe : 0 <= frame <= total) by (unfold frame; lia).
  assert (Hfb : 0 <= frame * ba <= Bw64.dataSize r).
  { split; [apply Z.mul_nonneg_nonneg; lia|].
    apply Z.le_trans with (total * ba); [|exact Htotba].
    apply Z.mul_le_mono_nonneg_r; lia. }
  assert (HT' : Bw64.tell r' = Ok frame).
  { unfold r'. rewrite (Seek.tell_at r ba framePos HBA Hba Hdp) by (unfold framePos; lia).
    unfold framePos.
    replace (Bw64.dataPosition r + 8 + frame * ba - Bw64.dataPosition r - 8)
      with (frame * ba) by ring.
    rewrite Z.div_mul by lia. reflexivity. }
  split; [|split; [exact HT'|split; [|unfold framePos; lia]]].
  - unfold Seek.seek.
    assert (S1 : match way with
                 | Seek.cur => t <- Bw64.tell r ;; Ok (wrap64 t)
                 | Seek.beg => Ok 0
                 | Seek.end_ => n <- Bw64.numberOfFrames r ;; Ok (wrap64 n)
                 end = Ok start).
    { unfold start. destruct way; [reflexivity | |].
      - rewrite HT. cbn [bind]. rewrite wrap64_id; [reflexivity|].
        unfold in_int64, INT64_MIN, INT64_MAX. lia.
      - rewrite HN. cbn [bind]. rewrite wrap64_id; [reflexivity|].
        unfold in_int64, INT64_MIN, INT64_MAX. lia. }
    rewrite S1. cbn [bind].
    rewrite Seek.checked64_in by (unfold in_int64, INT64_MIN, INT64_MAX; lia).
    cbn [bind].
    assert (S2 : (if start + offset <? 0 then Ok 0
                  else n <- Bw64.numberOfFrames r ;;
                       if n <? wrapU64 (start + offset) then Ok (wrap64 n)
                       else Ok (start + offset)) = Ok frame).
    { destruct (Z.ltb_spec (start + offset) 0) as [C | C].
      - unfold frame. f_equal. lia.
      - rewrite HN. cbn [bind]. rewrite wrapU64_id by lia.
        destruct (Z.ltb_spec total (start + offset)) as [D | D].
        + rewrite wrap64_id by (unfold in_int64, INT64_MIN, INT64_MAX; lia).
          unfold frame. f_equal. lia.
        + unfold frame. f_equal. lia. }
    rewrite S2. cbn [bind]. rewrite HBA. cbn [bind].
    rewrite Seek.checked64_in by (unfold in_int64, INT64_MIN, INT64_MAX; lia).
    cbn [bind].
    rewrite (wrapU64_id (Bw64.dataPosition r + 8)) by lia.
    rewrite (wrap64_id (Bw64.dataPosition r + 8))
      by (unfold in_int64, INT64_MIN, INT64_MAX; lia).
    rewrite Seek.checked64_in by (unfold in_int64, INT64_MIN, INT64_MAX; lia).
    cbn [bind]. reflexivity.
  - unfold Seek.eof. rewrite HT'. cbn [bind]. unfold r'.
    rewrite Seek.numberOfFrames_at by exact ba.
    rewrite HN. reflexivity.
Qed.

(** Witness for X18: from frame 1 of three, [seek(5, cur)] stops at the
    end of the data chunk. *)
Lemma seek_moves_to_the_clamped_frame_witness :
  Seek.seek (fun _ => true) three_frame_reader 5 Seek.cur
  = Ok (Bw64.mkReader (repeat Byte.x00 50) 50 36 6 1 16) /\
  Seek.eof (Bw64.mkReader (repeat Byte.x00 50) 50 36 6 1 16) = Ok true.
Proof.
  destruct (seek_moves_to_the_clamped_frame (fun _ => true) three_frame_reader 5 Seek.cur 2)
    as (now & total & HT & HN & HS & _ & HE & _).
  - reflexivity.
  - lia.
  - cbn. lia.
  - cbn. lia.
  - cbn. lia.
  - cbn. lia.
  - unfold in_int, INT_MIN, INT_MAX. lia.
  - assert (En : now = 1).
    { apply (f_equal (fun o => match o with Ok v => v | _ => 0 end)) in HT. symmetry. exact HT. }
    assert (Et : total = 3).
    { apply (f_equal (fun o => match o with Ok v => v | _ => 0 end)) in HN. symmetry. exact HN. }
    subst now total. split; [exact HS | exact HE].
Defined.

(** ** bw64 parser.hpp: the layout of the fmt and ds64 chunks *)

Module Layout.

(** The unsigned integer of [n] bytes at offset [at_] of a stream. *)
Definition field (at_ n : nat) (stream : list Byte.byte) : Z :=
  Bw64.le_value (firstn n (skipn at_ stream)).

(** The number of bytes that [parseFormatInfoChunk] reads from a chunk of
    [size] bytes: 16, and [cbSize] when the size is above 16, and the extra
    data when the size is above 18 and [cbSize] is not zero. *)
Definition fmtBytesRead (size cbSize : Z) : nat :=
  if size =? 16 then 16%nat
  else if (18 <? size) && (0 <? cbSize) then 40%nat
  else 18%nat.

Lemma readRaw_at (k n : nat) (stream : Bw64.Stream) :
  (k + n <= List.length stream)%nat ->
  Bw64.readRaw n (skipn k stream) = Ok (firstn n (skipn k stream), skipn (k + n) stream).
Proof.
  intros L. unfold Bw64.readRaw.
  destruct (Nat.ltb_spec (List.length (skipn k stream)) n) as [C | _].
  - rewrite length_skipn in C. lia.
  - rewrite skipn_skipn. do 2 f_equal. f_equal. lia.
Qed.

Lemma readValue_at (k n : nat) (stream : Bw64.Stream) :
  (k + n <= List.length stream)%nat ->
  Bw64.readValue n (skipn k stream) = Ok (field k n stream, skipn (k + n) stream).
Proof.
  intros L. unfold Bw64.readValue. rewrite (readRaw_at k n stream L). reflexivity.
Qed.

(** *** The ds64 chunk *)

(** [std::map<uint32_t, uint64_t>]: the entries in key order;
    [table[id] = size] replaces the entry of a key that is present. *)
Fixpoint map_assign (id size : Z) (table : list (Z * Z)) : list (Z * Z) :=
  match table with
  | [] => [(id, size)]
  | (id', size') :: rest =>
      if id <? id' then (id, size) :: table
      else if id =? id' then (id, size) :: rest
      else (id', size') :: map_assign id size rest
  end.

(** The loop of [parseDataSize64Chunk] over the table entries. *)
Fixpoint readTable (n : nat) (s : Riff.FileStream) (table : list (Z * Z))
  : outcome (list (Z * Z) * Riff.FileStream) :=
  match n with
  | O => Ok (table, s)
  | S n' =>
      '(id, s1) <- Riff.readValue 4 s ;;
      '(size, s2) <- Riff.readValue 8 s1 ;;
      readTable n' s2 (map_assign id size table)
  end.

Section Ds64.

(** Whether the stream is good after [seekg] to a position; the stream
    class is in the missing [internal_stream.hpp]. *)
Variable good_after_seekg : Z -> bool.

(** [parseDataSize64Chunk]; the offset of the last [seekg] is a
    [std::streamoff]. *)
Definition parseDataSize64Chunk (s : Riff.FileStream) (id size : Z)
  : outcome (Riff.DataSize64Chunk * Riff.FileStream) :=
  if negb (id =? Riff.fourCC_ds64) then Throws (runtime_error "chunkId != 'ds64'")
  else if size <? 28 then Throws (runtime_error "illegal ds64 chunk size")
  else
    '(bw64Size, s1) <- Riff.readValue 8 s ;;
    '(dataSize, s2) <- Riff.readValue 8 s1 ;;
    '(dummySize, s3) <- Riff.readValue 8 s2 ;;
    '(tableLength, s4) <- Riff.readValue 4 s3 ;;
    let minSize := wrapU64 (28 + wrapU64 (tableLength * 12)) in
    if size <? minSize
    then Throws (runtime_error "ds64 chunk too short to hold table entries")
    else
      '(table, s5) <- readTable (Z.to_nat tableLength) s4 [] ;;
      let target := Riff.tellg s5 + wrap64 (wrapU64 (size - minSize)) in
      if good_after_seekg target
      then Ok (Riff.mkDataSize64Chunk bw64Size dataSize table,
               Riff.mkFileStream (Riff.bytes s5) target)
      else Throws (runtime_error "file error while seeking past ds64 chunk").

End Ds64.

(** The size that a table holds for an id. *)
Definition lookup (id : Z) (table : list (Z * Z)) : option Z :=
  option_map snd (find (fun e => fst e =? id) table).

(** The unsigned integer of [n] bytes at position [pos] of a file. *)
Definition fieldAt (pos : Z) (n : nat) (file : list Byte.byte) : Z :=
  field (Z.to_nat pos) n file.

(** The [i]-th table entry of a ds64 chunk whose table starts at [pos]. *)
Definition entryAt (file : list Byte.byte) (pos : Z) (i : nat) : Z * Z :=
  (fieldAt (pos + 12 * Z.of_nat i) 4 file, fieldAt (pos + 12 * Z.of_nat i + 4) 8 file).

Definition entriesAt (file : list Byte.byte) (pos : Z) (n : nat) : list (Z * Z) :=
  map (entryAt file pos) (seq 0 n).

Lemma lookup_map_assign (id id' size : Z) (table : list (Z * Z)) :
  lookup id (map_assign id' size table)
  = if id' =? id then Some size else lookup id table.
Proof.
  unfold lookup. induction table as [|[k v] rest IH]; cbn [map_assign find fst].
  - destruct (id' =? id); reflexivity.
  - destruct (Z.ltb_spec id' k) as [Lt | Ge]; cbn [find fst].
    + destruct (id' =? id); reflexivity.
    + destruct (Z.eqb_spec id' k) as [Eq | Ne]; cbn [find fst].
      * subst k. destruct (Z.eqb_spec id' id); reflexivity.
      * destruct (Z.eqb_spec k id) as [Ek | Nk].
        -- subst k. destruct (Z.eqb_spec id' id) as [C | _]; [contradiction | reflexivity].
        -- exact IH.
Qed.

Lemma find_append {A} (f : A -> bool) (l1 l2 : list A) :
  find f (l1 ++ l2) = match find f l1 with Some x => Some x | None => find f l2 end.
Proof.
  induction l1 as [|x l1 IH]; cbn [app find]; [reflexivity|].
  destruct (f x); [reflexivity | exact IH].
Qed.

Lemma lookup_fold (id : Z) (entries : list (Z * Z)) : forall table,
  lookup id (fold_left (fun t e => map_assign (fst e) (snd e) t) entries table)
  = match find (fun e => fst e =? id) (rev entries) with
    | Some e => Some (snd e)
    | None => lookup id table
    end.
Proof.
  induction entries as [|[k v] entries IH]; intros table; cbn [fold_left rev].
  - reflexivity.
  - rewrite IH. rewrite find_append.
    destruct (find (fun e => fst e =? id) (rev entries)) as [e|]; [reflexivity|].
    cbn [find fst snd]. rewrite lookup_map_assign.
    destruct (k =? id); reflexivity.
Qed.

Lemma readTable_entries (n : nat) : forall s table,
  0 <= Riff.tellg s ->
  Riff.tellg s + 12 * Z.of_nat n <= Z.of_nat (List.length (Riff.bytes s)) ->
  readTable n s table
  = Ok (fold_left (fun t e => map_assign (fst e) (snd e) t)
          (entriesAt (Riff.bytes s) (Riff.tellg s) n) table,
        Riff.mkFileStream (Riff.bytes s) (Riff.tellg s + 12 * Z.of_nat n)).
Proof.
  induction n as [|n IH]; intros s table Hp Hlen.
  - cbn [readTable entriesAt seq map fold_left]. destruct s as [b p]. cbn. do 3 f_equal. lia.
  - cbn [readTable].
    destruct (Riff.readValue_inside 4 s Hp ltac:(lia)) as (id & E1 & V1).
    rewrite E1. cbn [bind].
    destruct (Riff.readValue_inside 8 (Riff.mkFileStream (Riff.bytes s) (Riff.tellg s + Z.of_nat 4))
                ltac:(cbn; lia) ltac:(cbn; lia)) as (size & E2 & V2).
    rewrite E2. cbn [bind Riff.tellg Riff.bytes].
    rewrite IH by (cbn [Riff.tellg Riff.bytes]; lia).
    cbn [Riff.tellg Riff.bytes]. f_equal. f_equal.
    + unfold entriesAt. cbn [seq map fold_left]. rewrite <- seq_shift, map_map.
      f_equal.
      * apply map_ext. intros i. unfold entryAt. f_equal; f_equal; lia.
      * unfold entryAt, fieldAt, field. cbn [fst snd Riff.tellg Riff.bytes] in *.
        rewrite V1, V2. f_equal; f_equal; f_equal; f_equal; f_equal; lia.
    + f_equal. lia.
Qed.

End Layout.

(** X19: [parseFormatInfoChunk] reads a fmt chunk of a legal size by fixed
    offsets: format tag, channel count, sample rate, bytes per second,
    block alignment and bits per sample from the first 16 bytes, [cbSize]
    at offset 16 of a longer chunk, and the extra data at offset 18 when
    the chunk has 40 bytes and [cbSize] is not zero.  It reads 16, 18 or 40
    bytes and never more than the size of the chunk. *)
Theorem fmt_chunk_is_read_by_offsets (stream : Bw64.Stream) (size : Z) :
  size = 16 \/ size = 18 \/ size = 40 ->
  size <= Z.of_nat (List.length stream) ->
  let cbSize := if 16 <? size then Layout.field 16 2 stream else 0 in
  let extraData :=
    if (18 <? size) && (0 <? cbSize)
    then Some (Bw64.mkExtraData (Layout.field 18 2 stream) (Layout.field 20 4 stream)
                 (Layout.field 24 2 stream) (firstn 14 (skipn 26 stream)))
    else None in
  Bw64.readFormatFields stream size
  = Ok (Bw64.mkFormatFields (Layout.field 0 2 stream) (Layout.field 2 2 stream)
          (Layout.field 4 4 stream) (Layout.field 8 4 stream) (Layout.field 12 2 stream)
          (Layout.field 14 2 stream) cbSize extraData,
        skipn (Layout.fmtBytesRead size cbSize) stream) /\
  Z.of_nat (Layout.fmtBytesRead size cbSize) <= size.
Proof.
  intros Hsize Hlen cbSize extraData.
  assert (H16 : (16 <= List.length stream)%nat) by lia.
  unfold Bw64.readFormatFields.
  change stream with (skipn 0 stream) at 1.
  rewrite (Layout.readValue_at 0 2) by lia. cbn [bind Nat.add].
  rewrite (Layout.readValue_at 2 2) by lia. cbn [bind Nat.add].
  rewrite (Layout.readValue_at 4 4) by lia. cbn [bind Nat.add].
  rewrite (Layout.readValue_at 8 4) by lia. cbn [bind Nat.add].
  rewrite (Layout.readValue_at 12 2) by lia. cbn [bind Nat.add].
  rewrite (Layout.readValue_at 14 2) by lia. cbn [bind Nat.add].
  unfold extraData, cbSize, Layout.fmtBytesRead.
  destruct Hsize as [-> | [-> | ->]].
  - change (16 <? 16) with false. change (18 <? 16) with false.
    cbn [bind andb Z.eqb Pos.eqb]. split; [reflexivity | lia].
  - change (16 <? 18) with true. change (18 <? 18) with false. cbv iota.
    rewrite (Layout.readValue_at 16 2) by lia. cbn [bind Nat.add andb].
    split; [reflexivity | cbn; lia].
  - change (16 <? 40) with true. change (18 <? 40) with true. cbv iota.
    rewrite (Layout.readValue_at 16 2) by lia. cbn [bind Nat.add andb].
    destruct (0 <? Layout.field 16 2 stream).
    + unfold Bw64.parseExtraData.
      rewrite (Layout.readValue_at 18 2) by lia. cbn [bind Nat.add].
      rewrite (Layout.readValue_at 20 4) by lia. cbn [bind Nat.add].
      rewrite (Layout.readValue_at 24 2) by lia. cbn [bind Nat.add].
      rewrite (Layout.readRaw_at 26 14) by lia. cbn [bind Nat.add].
      split; [reflexivity | cbn; lia].
    + cbn [bind]. split; [reflexivity | cbn; lia].
Qed.

(** A fmt chunk of 18 bytes, stereo 16 bit at 48 kHz, followed by two
    bytes of the next chunk. *)
Definition fmt18_stream : Bw64.Stream :=
  [Byte.x01; Byte.x00; Byte.x02; Byte.x00; Byte.x80; Byte.xbb; Byte.x00; Byte.x00;
   Byte.x00; Byte.xee; Byte.x02; Byte.x00; Byte.x04; Byte.x00; Byte.x10; Byte.x00;
   Byte.x00; Byte.x00; Byte.x64; Byte.x61].

(** Witness for X19. *)
Lemma fmt_chunk_is_read_by_offsets_witness :
  Bw64.readFormatFields fmt18_stream 18
  = Ok (Bw64.mkFormatFields 1 2 48000 192000 4 16 0 None, [Byte.x64; Byte.x61]).
Proof.
  refine (proj1 (fmt_chunk_is_read_by_offsets fmt18_stream 18 _ _)).
  - right. left. reflexivity.
  - cbn. lia.
Defined.

(** X20: [parseDataSize64Chunk] on a ds64 chunk whose header of 28 bytes
    is inside the file: a chunk too short for its table is refused with a
    [runtime_error]; otherwise the 64-bit file size and data size are the
    integers at offsets 0 and 8, the table holds for every id the size of
    the last entry with this id, and the stream is left exactly [size]
    bytes after the start of the chunk, unless the stream rejects that
    position. *)
Theorem ds64_chunk_is_read_whole
    (good_after_seekg : Z -> bool) (s : Riff.FileStream) (size : Z) :
  0 <= Riff.tellg s ->
  28 <= size < 2 ^ 63 ->
  Riff.tellg s + 28 <= Z.of_nat (List.length (Riff.bytes s)) ->
  let start := Riff.tellg s in
  let file := Riff.bytes s in
  let tableLength := Layout.fieldAt (start + 24) 4 file in
  let entries := Layout.entriesAt file (start + 28) (Z.to_nat tableLength) in
  let parsed := Layout.parseDataSize64Chunk good_after_seekg s Riff.fourCC_ds64 size in
  (size < 28 + 12 * tableLength ->
   parsed = Throws (runtime_error "ds64 chunk too short to hold table entries")) /\
  (28 + 12 * tableLength <= size ->
   start + 28 + 12 * tableLength <= Z.of_nat (List.length file) ->
   exists table,
     parsed
     = (if good_after_seekg (start + size)
        then Ok (Riff.mkDataSize64Chunk (Layout.fieldAt start 8 file)
                   (Layout.fieldAt (start + 8) 8 file) table,
                 Riff.mkFileStream file (start + size))
        else Throws (runtime_error "file error while seeking past ds64 chunk")) /\
     forall id,
       Layout.lookup id table
       = option_map snd (find (fun e => fst e =? id) (rev entries))).
Proof.
  intros Hp Hsize Hlen start file tableLength entries parsed.
  unfold parsed, Layout.parseDataSize64Chunk.
  rewrite Z.eqb_refl. cbn [negb].
  destruct (Z.ltb_spec size 28) as [C | _]; [lia|].
  destruct (Riff.readValue_inside 8 s Hp ltac:(lia)) as (v1 & E1 & V1).
  rewrite E1. cbn [bind].
  destruct (Riff.readValue_inside 8 (Riff.mkFileStream (Riff.bytes s) (Riff.tellg s + Z.of_nat 8))
              ltac:(cbn; lia) ltac:(cbn; lia)) as (v2 & E2 & V2).
  rewrite E2. cbn [bind Riff.tellg Riff.bytes].
  destruct (Riff.readValue_inside 8
              (Riff.mkFileStream (Riff.bytes s) (Riff.tellg s + Z.of_nat 8 + Z.of_nat 8))
              ltac:(cbn; lia) ltac:(cbn; lia)) as (v3 & E3 & V3).
  rewrite E3. cbn [bind Riff.tellg Riff.bytes].
  destruct (Riff.readValue_inside 4
              (Riff.mkFileStream (Riff.bytes s)
                 (Riff.tellg s + Z.of_nat 8 + Z.of_nat 8 + Z.of_nat 8))
              ltac:(cbn; lia) ltac:(cbn; lia)) as (v4 & E4 & V4).
  rewrite E4. cbn [bind Riff.tellg Riff.bytes] in *.
  assert (T : v4 = tableLength).
  { rewrite V4. unfold tableLength, Layout.fieldAt, Layout.field, start, file.
    do 4 f_equal. lia. }
  assert (R : 0 <= tableLength < 2 ^ 32).
  { rewrite <- T, V4.
    pose proof (Riff.le_value_range
      (firstn 4 (skipn (Z.to_nat (Riff.tellg s + Z.of_nat 8 + Z.of_nat 8 + Z.of_nat 8))
                   (Riff.bytes s)))) as B.
    rewrite length_firstn in B.
    assert (256 ^ Z.of_nat (Nat.min 4 (List.length
              (skipn (Z.to_nat (Riff.tellg s + Z.of_nat 8 + Z.of_nat 8 + Z.of_nat 8))
                 (Riff.bytes s)))) <= 2 ^ 32).
    { change (2 ^ 32) with (256 ^ 4). apply Z.pow_le_mono_r; lia. }
    lia. }
  rewrite T. clear T V4 E4 v4 V3 E3 v3.
  rewrite (wrapU64_id (tableLength * 12)) by lia.
  rewrite (wrapU64_id (28 + tableLength * 12)) by lia.
  split.
  - intros Short.
    destruct (Z.ltb_spec size (28 + tableLength * 12)) as [_ | C]; [reflexivity | lia].
  - intros Fits Inside.
    destruct (Z.ltb_spec size (28 + tableLength * 12)) as [C | _]; [lia|].
    rewrite Layout.readTable_entries
      by (cbn [Riff.tellg Riff.bytes]; unfold start, file in *; lia).
    cbn [bind Riff.tellg Riff.bytes].
    rewrite (wrapU64_id (size - (28 + tableLength * 12))) by lia.
    rewrite wrap64_id by (unfold in_int64, INT64_MIN, INT64_MAX; lia).
    replace (Riff.tellg s + Z.of_nat 8 + Z.of_nat 8 + Z.of_nat 8 + Z.of_nat 4
             + 12 * Z.of_nat (Z.to_nat tableLength) + (size - (28 + tableLength * 12)))
      with (start + size) by (unfold start; lia).
    replace (Riff.tellg s + Z.of_nat 8 + Z.of_nat 8 + Z.of_nat 8 + Z.of_nat 4)
      with (start + 28) by (unfold start; lia).
    eexists. split.
    + rewrite V1, V2. unfold Layout.fieldAt, Layout.field, start, file.
      replace (Z.to_nat (Riff.tellg s + Z.of_nat 8)) with (Z.to_nat (Riff.tellg s + 8))
        by (f_equal; lia).
      reflexivity.
    + intros id. rewrite Layout.lookup_fold.
      change (Layout.entriesAt (Riff.bytes s) (Riff.tellg s + 28) (Z.to_nat tableLength))
        with entries.
      destruct (find (fun e => fst e =? id) (rev entries)); reflexivity.
Qed.

(** A ds64 chunk of 52 bytes at the start of a file: sizes 1, 2 and 3, and
    a table of two entries for the same id, the second of which is twice
    the first. *)
Definition ds64_file : Riff.FileStream :=
  Riff.mkFileStream
    ([Byte.x01] ++ repeat Byte.x00 7 ++ [Byte.x02] ++ repeat Byte.x00 7
     ++ [Byte.x03] ++ repeat Byte.x00 7 ++ [Byte.x02; Byte.x00; Byte.x00; Byte.x00]
     ++ [Byte.x61; Byte.x78; Byte.x6d; Byte.x6c; Byte.x05] ++ repeat Byte.x00 7
     ++ [Byte.x61; Byte.x78; Byte.x6d; Byte.x6c; Byte.x0a] ++ repeat Byte.x00 7)
    0.

(** Witness for X20. *)
Lemma ds64_chunk_is_read_whole_witness :
  exists table,
    Layout.parseDataSize64Chunk (fun _ => true) ds64_file Riff.fourCC_ds64 52
    = Ok (Riff.mkDataSize64Chunk 1 2 table, Riff.mkFileStream (Riff.bytes ds64_file) 52) /\
    Layout.lookup (Bw64.fourCC Byte.x61 Byte.x78 Byte.x6d Byte.x6c) table = Some 10.
Proof.
  destruct (ds64_chunk_is_read_whole (fun _ => true) ds64_file 52) as (_ & H).
  - cbn. lia.
  - lia.
  - cbn. lia.
  - destruct H as (table & E & L).
    + vm_compute. discriminate.
    + vm_compute. discriminate.
    + exists table. split; [exact E|]. rewrite L. reflexivity.
Defined.
